(** * Schemaless: a shallow embedding of the translation engine

    The development follows the three Go files of the package:
    [translate.go] (shape fingerprinting, forward application, the
    single-flight wrapper around the generator, sub-standard fan-out) and
    [reverse.go] (reverse inference and the write-back [MapValueToLocation]).

    Conventions.
    - A decoded JSON document is the tree Go's [encoding/json] builds for an
      [interface{}]: [nil], [bool], [float64], [string], [[]interface{}] and
      [map[string]interface{}].
    - A Go map is an association list.  Go leaves the iteration order of a map
      unspecified; the order of the list is the order in which a [range] loop
      visits the entries, and every statement below is made for every order.
      A Go map never holds a key twice: [json_wf] states it.
    - A Go [string] is a [string] of bytes.
    - Functions of the Go standard library whose result the engine only passes
      on ([json.Marshal], [crypto/md5], [fmt] on floats, ...) are the fields of
      the class [GoLib]; the theorems hold for every instance. *)

From Stdlib Require Import ZArith Lia.
From stdpp Require Import base tactics option list strings sorting pretty.

Set Warnings "-register-all,-clear-no-such-hyp".
Set Default Proof Using "Type".
Local Open Scope Z_scope.

(** ** The JSON tree *)

Inductive Json : Type :=
| JNull
| JBool (b : bool)
| JNum (n : Z)
| JStr (s : string)
| JList (l : list Json)
| JObj (m : list (string * Json)).

(** [map[string]interface{}] *)
Abbreviation GoMap := (list (string * Json)).

Section json_induction.
Variable P : Json → Prop.
Hypothesis Hnull : P JNull.
Hypothesis Hbool : ∀ b, P (JBool b).
Hypothesis Hnum : ∀ n, P (JNum n).
Hypothesis Hstr : ∀ s, P (JStr s).
Hypothesis Hlist : ∀ l, Forall P l → P (JList l).
Hypothesis Hobj : ∀ m, Forall (λ kv, P kv.2) m → P (JObj m).

Fixpoint Json_ind' (v : Json) : P v :=
  match v with
  | JNull => Hnull
  | JBool b => Hbool b
  | JNum n => Hnum n
  | JStr s => Hstr s
  | JList l =>
      Hlist l ((fix go (l : list Json) : Forall P l :=
                  match l with
                  | [] => Forall_nil_2 P
                  | x :: r => Forall_cons_2 P x r (Json_ind' x) (go r)
                  end) l)
  | JObj m =>
      Hobj m ((fix go (m : GoMap) : Forall (λ kv, P kv.2) m :=
                 match m with
                 | [] => Forall_nil_2 _
                 | kv :: r => Forall_cons_2 _ kv r (Json_ind' kv.2) (go r)
                 end) m)
  end.
End json_induction.

(** Reading and writing a Go map. [m[k]] is [lookupKey]; [m[k] = v] is
    [setKey]: an existing entry keeps its place, a new one is visited last. *)
Fixpoint lookupKey {A} (k : string) (m : list (string * A)) : option A :=
  match m with
  | [] => None
  | (k', v) :: r => if decide (k' = k) then Some v else lookupKey k r
  end.

Fixpoint setKey {A} (k : string) (v : A) (m : list (string * A)) : list (string * A) :=
  match m with
  | [] => [(k, v)]
  | (k', v') :: r => if decide (k' = k) then (k, v) :: r else (k', v') :: setKey k v r
  end.

Definition keysOf {A} (m : list (string * A)) : list string := m.*1.

(** No map of the tree holds a key twice. *)
Fixpoint json_wf (v : Json) : Prop :=
  match v with
  | JList l => (fix all (l : list Json) : Prop :=
                  match l with [] => True | x :: r => json_wf x ∧ all r end) l
  | JObj m => NoDup (keysOf m) ∧
              (fix all (m : GoMap) : Prop :=
                 match m with [] => True | kv :: r => json_wf kv.2 ∧ all r end) m
  | _ => True
  end.

(** ** Go's [strings] package, on byte strings *)

Definition HasPrefix (s p : string) : bool := String.prefix p s.

Definition HasSuffix (s p : string) : bool :=
  String.prefix (String.rev p) (String.rev s).

Fixpoint Contains (s sub : string) : bool :=
  String.prefix sub s ||
  match s with
  | EmptyString => false
  | String _ r => Contains r sub
  end.

Fixpoint dropBytes (n : nat) (s : string) : string :=
  match n, s with
  | S n', String _ r => dropBytes n' r
  | _, _ => s
  end.

Definition TrimPrefix (s p : string) : string :=
  if HasPrefix s p then dropBytes (String.length p) s else s.

Definition TrimSuffix (s p : string) : string :=
  if HasSuffix s p
  then String.rev (dropBytes (String.length p) (String.rev s))
  else s.

(** [strings.Split(s, sep)] for a separator that is not empty: [skip] counts
    the bytes of a separator still to be passed over, [acc] is the current
    piece, reversed. *)
Fixpoint SplitFrom (sep : string) (skip : nat) (acc : string) (s : string)
  : list string :=
  match s with
  | EmptyString => [String.rev acc]
  | String c r =>
      match skip with
      | S n => SplitFrom sep n acc r
      | O =>
          if String.prefix sep s
          then String.rev acc :: SplitFrom sep (String.length sep - 1) "" r
          else SplitFrom sep 0 (String c acc) r
      end
  end.

Definition Split (s sep : string) : list string := SplitFrom sep 0 "" s.

Definition Join (parts : list string) (sep : string) : string :=
  String.concat sep parts.

(** [strings.ReplaceAll(s, old, new)] for a pattern [old] that is not empty
    (the engine never passes an empty one). *)
Fixpoint ReplaceFrom (old new : string) (skip : nat) (s : string) : string :=
  match s with
  | EmptyString => ""
  | String c r =>
      match skip with
      | S n => ReplaceFrom old new n r
      | O =>
          if String.prefix old s
          then new +:+ ReplaceFrom old new (String.length old - 1) r
          else String c (ReplaceFrom old new 0 r)
      end
  end.

Definition ReplaceAll (s old new : string) : string :=
  match old with
  | EmptyString => s
  | _ => ReplaceFrom old new 0 s
  end.

Fixpoint CountFrom (sub : string) (skip : nat) (s : string) : nat :=
  match s with
  | EmptyString => 0
  | String c r =>
      match skip with
      | S n => CountFrom sub n r
      | O => if String.prefix sub s
             then S (CountFrom sub (String.length sub - 1) r)
             else CountFrom sub 0 r
      end
  end.

Definition Count (s sub : string) : nat := CountFrom sub 0 s.

(** Decimal digits. *)
Definition isDigit (c : Ascii.ascii) : bool :=
  let n := Ascii.N_of_ascii c in (48 <=? n)%N && (n <=? 57)%N.

(** The decimal digits at the head of [s], their value with [acc] before
    them, and the rest. *)
Fixpoint readDigits (acc : Z) (s : string) : Z * string :=
  match s with
  | String c r =>
      if isDigit c
      then readDigits (10 * acc + Z.of_N (Ascii.N_of_ascii c) - 48) r
      else (acc, s)
  | EmptyString => (acc, s)
  end.

Definition newline : string := String (Ascii.ascii_of_nat 10) "".

(** The byte of a dot. *)
Definition dotByte : Ascii.ascii := Ascii.ascii_of_nat 46.

(** ** The Go standard library, as far as the engine relies on it *)

Class GoLib : Type := {
  (** [json.MarshalIndent(v, "", "\t")] *)
  MarshalIndent : Json → string;
  (** [json.Marshal(v)] *)
  Marshal : Json → string;
  (** [json.Unmarshal] into a [map[string]interface{}]; [None] is an error *)
  UnmarshalMap : string → option GoMap;
  (** what a [[]string] holds after [json.Unmarshal] into it *)
  UnmarshalStrings : string → list string;
  (** [fmt.Sprintf("%v", f)] for a [float64] *)
  FormatFloat : Z → string;
  (** [fmt.Sprintf("%x", md5.Sum([]byte(s)))] *)
  md5hex : string → string;
}.

(** ** Shape fingerprinting: [RemoveJsonValues] (translate.go) *)

(** The test of lines 321 and 423: the key ends with a decimal digit. *)
Definition endsInDigit (k : string) : bool :=
  HasSuffix k "1" || HasSuffix k "2" || HasSuffix k "3" || HasSuffix k "4" ||
  HasSuffix k "5" || HasSuffix k "6" || HasSuffix k "7" || HasSuffix k "8" ||
  HasSuffix k "9" || HasSuffix k "0".

(** [sort.Strings] *)
Definition SortStrings (keys : list string) : list string :=
  merge_sort String.le keys.

(** What the loop over the sorted keys (lines 320-420) makes of one entry:
    the value stored back under the key and the text appended to [keyToken]
    after the key itself. *)
Abbreviation Stripped := (list (string * (Json * string))).

(** The loop over the sorted keys, then the deletion of lines 422-427. *)
Definition keyTokenOf (perKey : Stripped) : string :=
  foldl (λ keyToken k,
           if endsInDigit k then keyToken
           else keyToken +:+ k +:+
                match lookupKey k perKey with
                | Some (_, sub) => sub
                | None => ""
                end)
        "" (SortStrings (keysOf perKey)).

Definition skeletonOf (perKey : Stripped) : GoMap :=
  List.filter (λ kv, negb (endsInDigit kv.1))
              (List.map (λ e, (e.1, e.2.1)) perKey).

(** [RemoveJsonValues(input, depth)] on the decoded [input]: the skeleton
    (the document [MarshalIndent] writes out) and [keyToken]; [None] is the
    error of the first [json.Unmarshal]. A value that is an object is
    marshalled and decoded again on the way into the recursive call, which
    gives the same tree. *)
Fixpoint RemoveJsonValues (input : Json) (depth : Z) {struct input}
  : option (Json * string) :=
  match input with
  | JObj jsonParsed =>
      let perKey :=
        (fix each (kvs : GoMap) : Stripped :=
           match kvs with
           | [] => []
           | (k, v) :: rest =>
               (k,
                match v with
                | JList items =>
                    (JList
                       ((fix loop (items : list Json) : list Json :=
                           match items with
                           | [] => []
                           | item :: tl =>
                               match item with
                               | JObj _ =>
                                   match RemoveJsonValues item (depth + 1) with
                                   | Some (returnJson, _) => returnJson :: loop tl
                                   | None => loop tl
                                   end
                               | JList _ => loop tl
                               | JStr _ => JStr "" :: loop tl
                               | JNum _ => JNum 0 :: loop tl
                               | JBool _ => JBool false :: loop tl
                               | JNull => loop tl
                               end
                           end) items), "")
                | JStr _ => (JStr "", "")
                | JNum _ => (JNum 0, "")
                | JBool _ => (JBool false, "")
                | JObj _ =>
                    match RemoveJsonValues v (depth + 1) with
                    | Some (returnJson, newKeyToken) =>
                        (returnJson,
                         if (depth <? 3) && (0 <? String.length newKeyToken)%nat
                         then "." +:+ newKeyToken else "")
                    | None => (v, "")
                    end
                | JNull => (JNull, "")
                end) :: each rest
           end) jsonParsed in
      Some (JObj (skeletonOf perKey), keyTokenOf perKey)
  | JNull => Some (JNull, "")
  | _ => None
  end.

(** The fingerprint [Translate] derives from a document (lines 1624-1635):
    the skeleton, the key token, the name of the stored template
    ([keyTokenFile]) and the key of the structure cache
    ([SetStructureCache], lines 268-271). *)
Record Fingerprint := {
  fp_skeleton : Json;
  fp_keyToken : string;
  fp_keyTokenFile : string;
  fp_cacheKey : string;
}.

Definition fingerprint `{GoLib} (filenamePrefix inputStandard : string)
    (startValue : Json) : option Fingerprint :=
  match RemoveJsonValues startValue 1 with
  | None => None
  | Some (returnJson, keyToken) =>
      let inputStandard := TrimSuffix inputStandard ".json" in
      Some {| fp_skeleton := returnJson;
              fp_keyToken := keyToken;
              fp_keyTokenFile :=
                filenamePrefix +:+ inputStandard +:+ "-" +:+ md5hex keyToken;
              fp_cacheKey := md5hex keyToken |}
  end.

(** The pieces of [RemoveJsonValues] by name: the loop over the items of a
    list value (lines 333-371), the treatment of one entry (lines 329-413)
    and the table of all entries. *)
Definition stripItem (depth : Z) (item : Json) : list Json :=
  match item with
  | JObj _ =>
      match RemoveJsonValues item (depth + 1) with
      | Some (returnJson, _) => [returnJson]
      | None => []
      end
  | JList _ => []
  | JStr _ => [JStr ""]
  | JNum _ => [JNum 0]
  | JBool _ => [JBool false]
  | JNull => []
  end.

Definition stripEntry (depth : Z) (v : Json) : Json * string :=
  match v with
  | JList items => (JList (concat (List.map (stripItem depth) items)), "")
  | JStr _ => (JStr "", "")
  | JNum _ => (JNum 0, "")
  | JBool _ => (JBool false, "")
  | JObj _ =>
      match RemoveJsonValues v (depth + 1) with
      | Some (returnJson, newKeyToken) =>
          (returnJson,
           if (depth <? 3) && (0 <? String.length newKeyToken)%nat
           then "." +:+ newKeyToken else "")
      | None => (v, "")
      end
  | JNull => (JNull, "")
  end.

Definition perKeyOf (depth : Z) (jsonParsed : GoMap) : Stripped :=
  List.map (λ kv, (kv.1, stripEntry depth kv.2)) jsonParsed.

(** [keyToken] alone. *)
Definition keyTokenAt (depth : Z) (input : Json) : string :=
  match RemoveJsonValues input depth with
  | Some (_, keyToken) => keyToken
  | None => ""
  end.

(** *** Documents of one shape

    [sameShape a b]: [a] and [b] differ only in the values of their scalar
    leaves and in the presence of keys that end in a digit. *)
Definition isScalar (v : Json) : Prop :=
  match v with
  | JList _ | JObj _ => False
  | _ => True
  end.

Inductive sameShape : Json → Json → Prop :=
| sameShape_scalar a b :
    isScalar a → isScalar b → sameShape a b
| sameShape_list l1 l2 :
    Forall2 sameShape l1 l2 → sameShape (JList l1) (JList l2)
| sameShape_obj m1 m2 :
    (∀ k, endsInDigit k = false →
          option_Forall2 sameShape (lookupKey k m1) (lookupKey k m2)) →
    sameShape (JObj m1) (JObj m2).

(** [hiddenFrom depth v1 v2]: two values stored under the same key of an
    object that [RemoveJsonValues] walks at [depth] differ only where the
    token does not look: inside a list, or below the third level. *)
Inductive hiddenFrom : Z → Json → Json → Prop :=
| hidden_same depth v : hiddenFrom depth v v
| hidden_list depth l1 l2 : hiddenFrom depth (JList l1) (JList l2)
| hidden_deep depth v1 v2 : 3 ≤ depth → hiddenFrom depth v1 v2
| hidden_obj depth m1 m2 :
    Forall2 (λ e1 e2, e1.1 = e2.1 ∧ hiddenFrom (depth + 1) e1.2 e2.2) m1 m2 →
    hiddenFrom depth (JObj m1) (JObj m2).

(** The keys that count for the token, in the order of the walk, and the
    text an entry adds after its key. *)
Definition countedKeys (keys : list string) : list string :=
  filter (λ k, endsInDigit k = false) (SortStrings keys).

Definition entrySuffix (perKey : Stripped) (k : string) : string :=
  match lookupKey k perKey with
  | Some (_, sub) => sub
  | None => ""
  end.

(** A document that holds no value: every string is empty, every number
    zero, every boolean false, and no key of an object ends in a digit. *)
Fixpoint holdsNoValue (v : Json) : bool :=
  match v with
  | JNull => true
  | JBool b => negb b
  | JNum n => n =? 0
  | JStr s => String.eqb s ""
  | JList l => forallb holdsNoValue l
  | JObj m => forallb (λ kv, negb (endsInDigit kv.1) && holdsNoValue kv.2) m
  end.

(** What is shown of [RemoveJsonValues] on a part of the document. *)
Definition stripsValues (v : Json) : Prop :=
  ∀ depth returnJson keyToken,
    RemoveJsonValues v depth = Some (returnJson, keyToken) →
    holdsNoValue returnJson = true.

(** What is shown of [RemoveJsonValues] on a part of the document: the
    skeleton it returns is returned for itself, with the same key token. *)
Definition skeletonIsFixed (v : Json) : Prop :=
  ∀ depth returnJson keyToken,
    RemoveJsonValues v depth = Some (returnJson, keyToken) →
    RemoveJsonValues returnJson depth = Some (returnJson, keyToken).

(** ** Path resolution: [recurseFindKey] (translate.go) *)

(** [(string, error)]: the one error a decoded document can raise is
    "Key '...' not found". *)
Inductive Resolved : Type :=
| Found (value : string)
| KeyNotFound (key : string).

Definition strDquote : string := String (Ascii.ascii_of_nat 34) "".

(** The [len(keys) <= 1] branch (lines 751-781): the value as a string. *)
Definition stringifyLeaf `{GoLib} (v : Json) : string :=
  match v with
  | JNull => ""
  | JStr val => val
  | JObj _ => MarshalIndent v
  | JList _ => MarshalIndent v
  | JBool true => "true"
  | JBool false => "false"
  | JNum val => FormatFloat val
  end.

(** Lines 815-826: what is looked up in each item of a list. *)
Definition itemKey (parsedKey : string) : string :=
  if Contains parsedKey "." then
    let parts := Split parsedKey "." in
    if (1 <? length parts)%nat then Join (tail parts) "."
    else hd "" parts
  else parsedKey.

(** [recurseFindKey(input, key, depth)]; [input] is the map as a tree, and
    [depth], which only shows in log lines, is left out. The inner [range]
    is the loop over the entries of [input]: an entry whose branch does not
    return lets the loop go on. *)
Fixpoint recurseFindKey `{GoLib} (input : Json) (key : string) {struct input}
  : Resolved :=
  match input with
  | JObj entries =>
      let keys := Split key "." in
      let key := if (1 <? length keys)%nat then hd "" keys else key in
      (fix range (entries : GoMap) : Resolved :=
         match entries with
         | [] => KeyNotFound key
         | (k, v) :: rest =>
             if negb (String.eqb k key) then range rest
             else if (length keys <=? 1)%nat then Found (stringifyLeaf v)
             else
               let parsedKey := Join (tail keys) "." in
               match v with
               | JObj _ =>
                   match recurseFindKey v parsedKey with
                   | Found foundValue => Found foundValue
                   | KeyNotFound _ =>
                       if HasPrefix parsedKey strDquote
                          && (1 <? Count parsedKey strDquote)%nat
                       then
                         match recurseFindKey v (ReplaceAll parsedKey strDquote "") with
                         | Found foundValue => Found foundValue
                         | KeyNotFound _ => range rest
                         end
                       else range rest
                   end
               | JList listValue =>
                   if HasPrefix parsedKey "#" then
                     let parsedKey := itemKey parsedKey in
                     let itemList :=
                       (fix each (items : list Json) : list Json :=
                          match items with
                          | [] => []
                          | item :: tl =>
                              match item with
                              | JObj _ =>
                                  match recurseFindKey item parsedKey with
                                  | Found foundValue => JStr foundValue :: each tl
                                  | KeyNotFound _ => each tl
                                  end
                              | _ => item :: each tl
                              end
                          end) listValue in
                     let marshalled := Marshal (JList itemList) in
                     if (2 <? String.length marshalled)%nat
                     then Found ("schemaless_list" +:+ marshalled)
                     else Found ""
                   else range rest
               | _ => range rest
               end
         end) entries
  | _ => KeyNotFound key
  end.

(** The pieces of [recurseFindKey] by name: the loop over the items of a list
    (lines 830-849) and the loop over the entries of [input]. *)
Definition findInItems `{GoLib} (parsedKey : string) (listValue : list Json)
  : list Json :=
  List.concat
    (List.map (λ item, match item with
                       | JObj _ =>
                           match recurseFindKey item parsedKey with
                           | Found foundValue => [JStr foundValue]
                           | KeyNotFound _ => []
                           end
                       | _ => [item]
                       end) listValue).

Fixpoint findInEntries `{GoLib} (keys : list string) (key : string) (entries : GoMap)
  : Resolved :=
  match entries with
  | [] => KeyNotFound key
  | (k, v) :: rest =>
      if negb (String.eqb k key) then findInEntries keys key rest
      else if (length keys <=? 1)%nat then Found (stringifyLeaf v)
      else
        let parsedKey := Join (tail keys) "." in
        match v with
        | JObj _ =>
            match recurseFindKey v parsedKey with
            | Found foundValue => Found foundValue
            | KeyNotFound _ =>
                if HasPrefix parsedKey strDquote
                   && (1 <? Count parsedKey strDquote)%nat
                then
                  match recurseFindKey v (ReplaceAll parsedKey strDquote "") with
                  | Found foundValue => Found foundValue
                  | KeyNotFound _ => findInEntries keys key rest
                  end
                else findInEntries keys key rest
            end
        | JList listValue =>
            if HasPrefix parsedKey "#" then
              let marshalled :=
                Marshal (JList (findInItems (itemKey parsedKey) listValue)) in
              if (2 <? String.length marshalled)%nat
              then Found ("schemaless_list" +:+ marshalled)
              else Found ""
            else findInEntries keys key rest
        | _ => findInEntries keys key rest
        end
  end.

(** A path of keys through nested objects, and the value it leads to. *)
Fixpoint lookupPath (v : Json) (keys : list string) : option Json :=
  match keys with
  | [] => Some v
  | k :: rest =>
      match v with
      | JObj m =>
          match lookupKey k m with
          | Some x => lookupPath x rest
          | None => None
          end
      | _ => None
      end
  end.

(** Lines 728-731: the key the loop over [input] looks for. *)
Definition firstSegment (key : string) : string :=
  let keys := Split key "." in
  if (1 <? length keys)%nat then hd "" keys else key.

(** ** Runs that may panic *)

(** A Go call either returns, or panics (a failed type assertion, an index
    out of range); [OutOfFuel] belongs to the model alone: a recursion that
    is not structural is cut off after [fuel] nested calls. *)
Inductive Run (A : Type) : Type :=
| Ret (a : A)
| Panic
| OutOfFuel.
Arguments Ret {A} a.
Arguments Panic {A}.
Arguments OutOfFuel {A}.

Global Instance Run_ret : MRet Run := λ A a, Ret a.

Global Instance Run_bind : MBind Run := λ A B k r,
  match r with
  | Ret a => k a
  | Panic => Panic
  | OutOfFuel => OutOfFuel
  end.

(** A [range] loop whose body may panic, over the indices and items. *)
Fixpoint rangeRun {A St} (body : St → nat → A → Run St) (i : nat) (l : list A)
    (s : St) : Run St :=
  match l with
  | [] => Ret s
  | x :: r => s' ← body s i x; rangeRun body (S i) r s'
  end.

(** ** More of [strings] *)

(** [strings.SplitN(s, sep, n)] for [n >= 1] and a separator that is not
    empty. *)
Fixpoint SplitNFrom (sep : string) (n skip : nat) (acc : string) (s : string)
  : list string :=
  match s with
  | EmptyString => [String.rev acc]
  | String c r =>
      match skip with
      | S k => SplitNFrom sep n k acc r
      | O =>
          if (1 <? n)%nat && String.prefix sep s
          then String.rev acc :: SplitNFrom sep (n - 1) (String.length sep - 1) "" r
          else SplitNFrom sep n 0 (String c acc) r
      end
  end.

Definition SplitN (s sep : string) (n : nat) : list string :=
  SplitNFrom sep n 0 "" s.

Fixpoint trimLeftByte (c : Ascii.ascii) (s : string) : string :=
  match s with
  | String c' r => if Ascii.eqb c c' then trimLeftByte c r else s
  | EmptyString => s
  end.

(** [strings.Trim(s, cutset)] for a cutset of one byte. *)
Definition TrimByte (s : string) (c : Ascii.ascii) : string :=
  String.rev (trimLeftByte c (String.rev (trimLeftByte c s))).

(** ** Merging resolved list values: [setNestedMap], [copyMap], [deepMerge] *)

Fixpoint copyMapValue (v : Json) : Json :=
  match v with
  | JObj m =>
      JObj ((fix each (m : GoMap) : GoMap :=
               match m with
               | [] => []
               | (k, x) :: r =>
                   (k, match x with JObj _ => copyMapValue x | _ => x end) :: each r
               end) m)
  | _ => v
  end.

Definition copyMap (m : GoMap) : GoMap :=
  match copyMapValue (JObj m) with
  | JObj copy => copy
  | _ => m
  end.

(** [deepMerge(dst, src)]; [src] is the map as a tree. *)
Fixpoint deepMerge (dst : GoMap) (src : Json) {struct src} : GoMap :=
  match src with
  | JObj entries =>
      (fix range (entries : GoMap) (dst : GoMap) : GoMap :=
         match entries with
         | [] => dst
         | (k, v) :: rest =>
             range rest
               match v, lookupKey k dst with
               | JObj _, Some (JObj dvMap) => setKey k (JObj (deepMerge dvMap v)) dst
               | _, _ => setKey k v dst
               end
         end) entries dst
  | _ => dst
  end.

(** The loop of [setNestedMap] from the last key to the first (lines
    899-923): the value wrapped so far and [found]. *)
Definition wrapKey (m : GoMap) (st : Json * bool) (key : string) : Json * bool :=
  let '(nested, found) := st in
  if String.eqb key "#" then st
  else
    match lookupKey key m with
    | Some (JStr val) =>
        if Contains val "schemaless_list" then (JObj [(key, nested)], true)
        else st
    | _ => (JObj [(key, nested)], found)
    end.

(** [setNestedMap(m, path, value)]; the final type assertion
    [nested.(map[string]interface{})] panics when no key wrapped [value]. *)
Definition setNestedMap (m : GoMap) (path : string) (value : Json)
  : Run (GoMap * bool) :=
  let keys := Split path "." in
  let '(nested, found) := foldl (wrapKey m) (value, false) (reverse keys) in
  match nested with
  | JObj _ => Ret (deepMerge (copyMap m) nested, found)
  | _ => Panic
  end.

(** ** List alignment: [handleMultiListItems] (translate.go) *)

(** Lines 1024-1042: the parts of [parentKey] kept for [newParentKey]. *)
Fixpoint newKeySplitLoop (listDepth counter : Z) (prev : option string)
    (parentKeySplit : list string) : list string :=
  match parentKeySplit with
  | [] => []
  | part :: rest =>
      let isLoop := String.eqb part "#" in
      let counter := if isLoop then counter + 1 else counter in
      (if isLoop then match prev with Some p => [p] | None => [] end else []) ++
      (if counter - 1 =? listDepth then [part] else []) ++
      newKeySplitLoop listDepth counter (Some part) rest
  end.

(** The text the marshalled item is searched for: the quoted key, a colon
    and a string that starts with the marker (lines 1064 and 1116). *)
Definition comparisonString (key : string) : string :=
  strDquote +:+ key +:+ strDquote +:+ ":" +:+ strDquote +:+ "schemaless_list[".

(** [list[i].(map[string]interface{})] *)
Definition mapAt (list : list Json) (i : nat) : Run GoMap :=
  match list !! i with
  | Some (JObj m) => Ret m
  | _ => Panic
  end.

(** One round of the loop of lines 1052-1078 over the resolved values of a
    field: the state is [modificationList] and [updated]. *)
Definition placeListValue `{GoLib} (firstItem : Json) (newParentKey childKey : string)
    (st : list Json * bool) (cnt : nat) (listValue : string)
  : Run (list Json * bool) :=
  let '(modificationList, updated) := st in
  let modificationList :=
    if (length modificationList <=? cnt)%nat
    then modificationList ++ [firstItem] else modificationList in
  match SplitN (newParentKey +:+ "." +:+ childKey) "." 2 !! 1%nat with
  | None => Panic
  | Some newKey =>
      newModList ← mapAt modificationList cnt;
      if negb (Contains (Marshal (JObj newModList)) (comparisonString newKey))
      then Ret (modificationList, updated)
      else
        '(newModList, _) ← setNestedMap newModList newKey (JStr listValue);
        Ret (<[cnt := JObj newModList]> modificationList, true)
  end.

(** The whole loop, with [firstItem := modificationList[0]] before it. *)
Definition placeListValues `{GoLib} (newParentKey childKey : string)
    (modificationList : list Json) (unmarshalledList : list string)
  : Run (list Json * bool) :=
  match modificationList with
  | [] => Panic
  | firstItem :: _ =>
      rangeRun (placeListValue firstItem newParentKey childKey) 0
               unmarshalledList (modificationList, false)
  end.

(** What a round of the loop makes of the item it finds at its position:
    the item takes [listValue] at [newKey] when its marshalled text holds
    the marker there, and is left as it is otherwise. *)
Definition alignedItem `{GoLib} (newKey : string) (item : Json)
    (listValue : string) : Json :=
  match item with
  | JObj newModList =>
      if Contains (Marshal item) (comparisonString newKey)
      then JObj (setKey newKey (JStr listValue) newModList)
      else item
  | _ => item
  end.

(** The merged list after the loop, position by position: the items of
    [modificationList] while there are some, [firstItem] after them. *)
Fixpoint alignFrom `{GoLib} (newKey : string) (firstItem : Json)
    (modificationList : list Json) (unmarshalledList : list string)
  : list Json :=
  match unmarshalledList with
  | [] => modificationList
  | listValue :: values =>
      match modificationList with
      | [] => alignedItem newKey firstItem listValue
              :: alignFrom newKey firstItem [] values
      | item :: items => alignedItem newKey item listValue
                         :: alignFrom newKey firstItem items values
      end
  end.

(** An item [setNestedMap] can put a value into at [key]: an object that
    holds at [key] nothing, a value that is not a string, or a string with
    the marker. *)
Definition takesValueAt (key : string) (item : Json) : Prop :=
  match item with
  | JObj m =>
      match lookupKey key m with
      | Some (JStr val) => Contains val "schemaless_list" = true
      | _ => True
      end
  | _ => False
  end.

(** Lines 1105-1130: the first item of [translatedInput] that still holds the
    marker under [childKey] takes [modificationList]; [None] when no item
    was updated. *)
Fixpoint updateParentLoop `{GoLib} (childKey oldParentKey : string)
    (modificationList : list Json) (translatedInput : list Json)
  : Run (option (list Json)) :=
  match translatedInput with
  | [] => Ret None
  | item :: rest =>
      match item with
      | JObj newMap =>
          if negb (Contains (Marshal item) (comparisonString childKey))
          then
            later ← updateParentLoop childKey oldParentKey modificationList rest;
            Ret (match later with
                 | Some rest => Some (item :: rest)
                 | None => None
                 end)
          else
            '(newMap, _) ← setNestedMap newMap oldParentKey (JList modificationList);
            Ret (Some (JObj newMap :: rest))
      | _ => Panic
      end
  end.

(** Lines 1105-1141. *)
Definition updateParent `{GoLib} (childKey oldParentKey : string)
    (modificationList : list Json) (translatedInput : list Json)
  : Run (list Json) :=
  updated ← updateParentLoop childKey oldParentKey modificationList translatedInput;
  match updated with
  | Some translatedInput => Ret translatedInput
  | None =>
      '(newMap, _) ← setNestedMap [] oldParentKey (JList modificationList);
      Ret (translatedInput ++ [JObj newMap])
  end.

(** The string branch (lines 1002-1158) for a value that holds the marker:
    the new [translatedInput] and [parsedValues]. *)
Definition alignField `{GoLib} (translatedInput : list Json) (parentKey : string)
    (parsedValues : GoMap) (listDepth : Z) (childIndex : nat)
    (childKey val : string) : Run (list Json * GoMap) :=
  let foundList := Split val "schemaless_list" in
  if (length foundList <? 2)%nat then Ret (translatedInput, parsedValues)
  else
    let matchingList := Join (tail foundList) "schemaless_list" in
    let unmarshalledList := UnmarshalStrings matchingList in
    let oldParentKey := parentKey in
    let '(newParentKey, modificationList) :=
      if 0 <? listDepth
      then (Join (newKeySplitLoop listDepth 0 None (Split parentKey ".")) ".",
            [JObj parsedValues])
      else (parentKey, translatedInput) in
    '(modificationList, updated) ←
      placeListValues newParentKey childKey modificationList unmarshalledList;
    parsedValues ←
      (if updated : bool then mapAt modificationList childIndex else Ret parsedValues);
    if 0 <? listDepth then
      let oldParentKey :=
        if HasPrefix oldParentKey "." then TrimByte oldParentKey (Ascii.ascii_of_nat 46)
        else oldParentKey in
      translatedInput ← updateParent childKey oldParentKey modificationList translatedInput;
      parsedValues ← mapAt modificationList childIndex;
      Ret (translatedInput, parsedValues)
    else
      parsedValues ← mapAt modificationList childIndex;
      Ret (modificationList, parsedValues).

(** [handleMultiListItems(translatedInput, parentKey, parsedValues,
    listDepth, childIndex)]. The loop runs over the keys of the map passed
    in and reads each value from the current [parsedValues]. *)
Fixpoint handleMultiListItems `{GoLib} (fuel : nat) (translatedInput : list Json)
    (parentKey : string) (parsedValues : GoMap) (listDepth : Z) (childIndex : nat)
  : Run (list Json) :=
  match fuel with
  | O => OutOfFuel
  | S fuel =>
      let translatedInput :=
        if negb (Contains parentKey ".") && (length translatedInput =? 0)%nat
        then translatedInput ++ [JObj parsedValues] else translatedInput in
      '(translatedInput, _) ←
        rangeRun
          (λ (st : list Json * GoMap) (_ : nat) (childKey : string),
             let '(translatedInput, parsedValues) := st in
             match lookupKey childKey parsedValues with
             | Some (JObj val) =>
                 let newKey := parentKey +:+ "." +:+ childKey in
                 translatedInput ←
                   handleMultiListItems fuel translatedInput newKey val
                                        listDepth childIndex;
                 Ret (translatedInput, parsedValues)
             | Some (JList val) =>
                 let newKey := parentKey +:+ "." +:+ childKey +:+ ".#" in
                 translatedInput ←
                   rangeRun
                     (λ (translatedInput : list Json) (cnt : nat) (subItem : Json),
                        match subItem with
                        | JObj parsedSubitem =>
                            handleMultiListItems fuel translatedInput newKey
                                                 parsedSubitem (listDepth + 1) cnt
                        | _ => Ret translatedInput
                        end)
                     0 val translatedInput;
                 Ret (translatedInput, parsedValues)
             | Some (JStr val) =>
                 if Contains val "schemaless_list["
                 then alignField translatedInput parentKey parsedValues
                                 listDepth childIndex childKey val
                 else Ret st
             | _ => Ret st
             end)
          0 (keysOf parsedValues) (translatedInput, parsedValues);
      Ret translatedInput
  end.

(** The values a field resolved to, read back from its marker (lines
    1006-1016). *)
Definition resolvedValues `{GoLib} (val : string) : list string :=
  UnmarshalStrings (Join (tail (Split val "schemaless_list")) "schemaless_list").

(** A map with nothing to align: no string with the start of the marker
    under a key, at any depth that [handleMultiListItems] goes to, which is
    through the maps and through the maps that are items of a list. *)
Fixpoint markerFree (v : Json) : bool :=
  match v with
  | JStr val => negb (Contains val "schemaless_list[")
  | JList val =>
      forallb (λ subItem, match subItem with
                          | JObj _ => markerFree subItem
                          | _ => true
                          end) val
  | JObj parsedValues => forallb (λ kv, markerFree kv.2) parsedValues
  | _ => true
  end.

(** The list [handleMultiListItems] works on (lines 968-970). *)
Definition startingList (translatedInput : list Json) (parentKey : string)
    (parsedValues : GoMap) : list Json :=
  if negb (Contains parentKey ".") && (length translatedInput =? 0)%nat
  then translatedInput ++ [JObj parsedValues] else translatedInput.

(** [handleMultiListItems] with [fuel] returns the list it starts from,
    whatever the other arguments. *)
Definition leftAlone `{GoLib} (fuel : nat) (parsedValues : GoMap) : Prop :=
  ∀ translatedInput parentKey listDepth childIndex,
    handleMultiListItems fuel translatedInput parentKey parsedValues listDepth
                         childIndex
    = Ret (startingList translatedInput parentKey parsedValues).

Definition leftAloneItem `{GoLib} (fuel : nat) (subItem : Json) : Prop :=
  match subItem with
  | JObj parsedSubitem => leftAlone fuel parsedSubitem
  | _ => True
  end.

Definition leftAloneValue `{GoLib} (fuel : nat) (v : Json) : Prop :=
  match v with
  | JObj val => leftAlone fuel val
  | JList val => Forall (leftAloneItem fuel) val
  | _ => True
  end.

(** ** Forward application: [runJsonTranslation] (translate.go) *)

(** [strings.TrimSpace] drops the runes of [unicode.IsSpace] from both ends.
    In ASCII these are the six bytes of [isGoSpace]. *)
Definition isGoSpace (c : Ascii.ascii) : bool :=
  let n := Ascii.N_of_ascii c in
  (n =? 9)%N || (n =? 10)%N || (n =? 11)%N || (n =? 12)%N || (n =? 13)%N ||
  (n =? 32)%N.

(** Beyond ASCII they are, in UTF-8, U+0085 and U+00A0 in two bytes, and
    U+1680, U+2000 to U+200A, U+2028, U+2029, U+202F, U+205F and U+3000 in
    three. Bytes that are no well-formed rune count as no white space. *)
Definition isSpace2 (a b : Ascii.ascii) : bool :=
  let '(a, b) := (Ascii.N_of_ascii a, Ascii.N_of_ascii b) in
  ((a =? 194) && ((b =? 133) || (b =? 160)))%N.

Definition isSpace3 (a b c : Ascii.ascii) : bool :=
  let '(a, b, c) := (Ascii.N_of_ascii a, Ascii.N_of_ascii b, Ascii.N_of_ascii c) in
  (((a =? 225) && (b =? 154) && (c =? 128)) ||
   ((a =? 226) && (b =? 128) &&
    (((128 <=? c) && (c <=? 138)) || (c =? 168) || (c =? 169) || (c =? 175))) ||
   ((a =? 226) && (b =? 129) && (c =? 159)) ||
   ((a =? 227) && (b =? 128) && (c =? 128)))%N.

(** The runes are dropped from the left as they are decoded there. *)
Fixpoint trimLeftSpace (s : string) : string :=
  match s with
  | String a r =>
      if isGoSpace a then trimLeftSpace r
      else
        match r with
        | String b r2 =>
            if isSpace2 a b then trimLeftSpace r2
            else
              match r2 with
              | String c r3 => if isSpace3 a b c then trimLeftSpace r3 else s
              | EmptyString => s
              end
        | EmptyString => s
        end
  | EmptyString => s
  end.

(** From the right a rune is decoded from its last byte back: [s] is the
    text with its bytes in reverse. *)
Fixpoint trimRightSpace (s : string) : string :=
  match s with
  | String c r =>
      if isGoSpace c then trimRightSpace r
      else
        match r with
        | String b r2 =>
            if isSpace2 b c then trimRightSpace r2
            else
              match r2 with
              | String a r3 => if isSpace3 a b c then trimRightSpace r3 else s
              | EmptyString => s
              end
        | EmptyString => s
        end
  | EmptyString => s
  end.

Definition TrimSpace (s : string) : string :=
  String.rev (trimRightSpace (String.rev (trimLeftSpace s))).

Definition getParsedMatch (match_ : string) : string :=
  let match_ := TrimSpace match_ in
  let match_ := if HasPrefix match_ "$" then TrimPrefix match_ "$" else match_ in
  if HasSuffix match_ "." then TrimSuffix match_ "." else match_.

(** The pattern of line 1373: a dollar sign, one or more of [a-zA-Z0-9_@-],
    an optional dot, then any number of groups of one or more of
    [a-zA-Z0-9#_@-] with an optional dot. *)
Definition isRefByte (c : Ascii.ascii) : bool :=
  let n := Ascii.N_of_ascii c in
  ((97 <=? n) && (n <=? 122))%N || ((65 <=? n) && (n <=? 90))%N ||
  ((48 <=? n) && (n <=? 57))%N || (n =? 95)%N || (n =? 64)%N || (n =? 45)%N.

Definition isRefByteOrHash (c : Ascii.ascii) : bool :=
  isRefByte c || (Ascii.N_of_ascii c =? 35)%N.

(** The longest run of [isRefByte] at the head of [s], and the rest. *)
Fixpoint spanRef (s : string) : string * string :=
  match s with
  | String c r =>
      if isRefByte c then let '(w, rest) := spanRef r in (String c w, rest)
      else ("", s)
  | EmptyString => ("", s)
  end.

(** What follows the first group: bytes of the second class, a dot allowed
    after each run of them. *)
Fixpoint spanGroups (afterDot : bool) (s : string) : string * string :=
  match s with
  | String c r =>
      if isRefByteOrHash c then
        let '(w, rest) := spanGroups false r in (String c w, rest)
      else if (Ascii.N_of_ascii c =? 46)%N && negb afterDot then
        let '(w, rest) := spanGroups true r in (String c w, rest)
      else ("", s)
  | EmptyString => ("", s)
  end.

(** The match that starts at a dollar sign followed by [s], without the
    dollar sign. *)
Definition matchReference (s : string) : option string :=
  let '(first, rest) := spanRef s in
  match first with
  | EmptyString => None
  | _ => Some (first +:+ (spanGroups false rest).1)
  end.

(** [re.FindAllString(s, -1)]: the matches from left to right; [skip] counts
    the bytes of the last match still to be passed over. *)
Fixpoint FindAllFrom (skip : nat) (s : string) : list string :=
  match s with
  | EmptyString => []
  | String c r =>
      match skip with
      | S n => FindAllFrom n r
      | O =>
          if (Ascii.N_of_ascii c =? 36)%N then
            match matchReference r with
            | Some body => String c body :: FindAllFrom (String.length body) r
            | None => FindAllFrom 0 r
            end
          else FindAllFrom 0 r
      end
  end.

Definition FindAllString (s : string) : list string := FindAllFrom 0 s.

(** Lines 1236-1242 and 1360-1366. *)
Definition cleanKey (key : string) : string :=
  let key := if Contains key "[]" then ReplaceAll key "[]" ".#" else key in
  if Contains key strDquote then ReplaceAll key strDquote "" else key.

(** The value and the error of [recurseFindKey] as the callers read them. *)
Definition recursedOf (r : Resolved) : string :=
  match r with
  | Found value => value
  | KeyNotFound _ => ""
  end.

(** The string branch (lines 1349-1400). *)
Definition translateString `{GoLib} (parsedInput : GoMap) (val : string) : Json :=
  if Contains val "." then
    let key := cleanKey val in
    if Contains val "$" then
      JStr (foldl
              (λ newOutput match_,
                 let newParsedMatch := getParsedMatch match_ in
                 let recursed :=
                   recursedOf (recurseFindKey (JObj parsedInput) newParsedMatch) in
                 ReplaceAll newOutput match_ recursed)
              val (FindAllString key))
    else JStr (recursedOf (recurseFindKey (JObj parsedInput) key))
  else JStr val.

(** The loop of lines 1204-1215: the entry of the input whose key is the
    template value. *)
Definition foundInInput (parsedInput : GoMap) (translationValue : Json)
  : list Json :=
  omap (λ kv, match translationValue with
              | JStr s => if String.eqb kv.1 s then Some kv.2 else None
              | _ => None
              end) parsedInput.

(** The state of the loop over the template: the decoded input, which
    [modifiedParsedInput] aliases, the output, and whether
    [translatedInput["unmapped"]] still is that same input map. *)
Record Translating := {
  parsedInput : GoMap;
  translatedInput : GoMap;
  unmappedIsInput : bool;
}.

Definition putTranslated (st : Translating) (translationKey : string) (v : Json)
  : Translating :=
  {| parsedInput := parsedInput st;
     translatedInput := setKey translationKey v (translatedInput st);
     unmappedIsInput :=
       unmappedIsInput st && negb (String.eqb translationKey "unmapped") |}.

Definition putFound (st : Translating) (translationKey : string) (inputValue : Json)
  : Translating :=
  putTranslated
    {| parsedInput := setKey translationKey inputValue (parsedInput st);
       translatedInput := translatedInput st;
       unmappedIsInput := unmappedIsInput st |}
    translationKey inputValue.

(** [runJsonTranslation(ctx, inputValue, translation, keepOriginal...)] on
    the decoded [inputValue]: [translatedInput] and [modifiedParsedInput],
    the two documents the function marshals. The nested calls get the bytes
    of the call, that is the input before any change. *)
Fixpoint runJsonTranslation `{GoLib} (fuel : nat) (inputValue : GoMap)
    (translation : Json) (keepOriginal : bool) {struct translation}
  : Run (GoMap * GoMap) :=
  match translation with
  | JObj entries =>
      st ←
        (fix range (entries : GoMap) (st : Translating) : Run Translating :=
           match entries with
           | [] => Ret st
           | (translationKey, translationValue) :: later =>
               let hits := foundInInput (parsedInput st) translationValue in
               let st := foldl (λ st v, putFound st translationKey v) st hits in
               st ←
                 match hits with
                 | _ :: _ => Ret st
                 | [] =>
                     match translationValue with
                     | JNum _ => Ret (putTranslated st translationKey translationValue)
                     | JList val =>
                         '(newOutput, translationValue) ←
                           (fix each (val : list Json) (newOutput : list Json)
                                (translationValue : Json) : Run (list Json * Json) :=
                              match val with
                              | [] => Ret (newOutput, translationValue)
                              | v :: tl =>
                                  match v with
                                  | JObj _ =>
                                      '(outputParsed, _) ←
                                        runJsonTranslation fuel inputValue v false;
                                      let newOutput := newOutput ++ [JObj outputParsed] in
                                      if Contains (MarshalIndent (JObj outputParsed))
                                                  "schemaless_list["
                                      then
                                        newTranslatedInput ←
                                          handleMultiListItems fuel newOutput ""
                                                               outputParsed 0 0;
                                        Ret ([], JList newTranslatedInput)
                                      else each tl newOutput translationValue
                                  | JStr stringVal =>
                                      let stringKey := cleanKey stringVal in
                                      each tl newOutput
                                        match recurseFindKey (JObj (parsedInput st)) stringKey with
                                        | Found recursed => JList [JStr recursed]
                                        | KeyNotFound _ => JList []
                                        end
                                  | _ => each tl (newOutput ++ [v]) translationValue
                                  end
                              end) val [] translationValue;
                         Ret (putTranslated st translationKey
                                match newOutput with
                                | _ :: _ => JList newOutput
                                | [] => translationValue
                                end)
                     | JObj _ =>
                         '(translationValueParsed, _) ←
                           runJsonTranslation fuel inputValue translationValue false;
                         Ret (putTranslated st translationKey
                                match translationValueParsed with
                                | [] => translationValue
                                | _ :: _ => JObj translationValueParsed
                                end)
                     | JStr val =>
                         Ret (putTranslated st translationKey
                                (translateString (parsedInput st) val))
                     | _ => Ret (putTranslated st translationKey translationValue)
                     end
                 end;
               range later st
           end) entries
          {| parsedInput := inputValue;
             translatedInput := if keepOriginal then [("unmapped", JNull)] else [];
             unmappedIsInput := keepOriginal |};
      Ret (if unmappedIsInput st
           then setKey "unmapped" (JObj (parsedInput st)) (translatedInput st)
           else translatedInput st,
           parsedInput st)
  | _ => Ret ([], inputValue)
  end.

(** The pieces of [runJsonTranslation] by name: the loop over a template
    list (lines 1231-1308), one round of the loop over the template (lines
    1201-1407), the loop, and what is marshalled at the end. *)
Fixpoint translateListItems `{GoLib} (fuel : nat) (inputValue parsedInput : GoMap)
    (val : list Json) (newOutput : list Json) (translationValue : Json)
  : Run (list Json * Json) :=
  match val with
  | [] => Ret (newOutput, translationValue)
  | v :: tl =>
      match v with
      | JObj _ =>
          '(outputParsed, _) ← runJsonTranslation fuel inputValue v false;
          let newOutput := newOutput ++ [JObj outputParsed] in
          if Contains (MarshalIndent (JObj outputParsed)) "schemaless_list["
          then
            newTranslatedInput ←
              handleMultiListItems fuel newOutput "" outputParsed 0 0;
            Ret ([], JList newTranslatedInput)
          else translateListItems fuel inputValue parsedInput tl newOutput
                                  translationValue
      | JStr stringVal =>
          let stringKey := cleanKey stringVal in
          translateListItems fuel inputValue parsedInput tl newOutput
            match recurseFindKey (JObj parsedInput) stringKey with
            | Found recursed => JList [JStr recursed]
            | KeyNotFound _ => JList []
            end
      | _ => translateListItems fuel inputValue parsedInput tl (newOutput ++ [v])
                                translationValue
      end
  end.

Definition translateEntry `{GoLib} (fuel : nat) (inputValue : GoMap)
    (st : Translating) (translationKey : string) (translationValue : Json)
  : Run Translating :=
  let hits := foundInInput (parsedInput st) translationValue in
  let st := foldl (λ st v, putFound st translationKey v) st hits in
  match hits with
  | _ :: _ => Ret st
  | [] =>
      match translationValue with
      | JNum _ => Ret (putTranslated st translationKey translationValue)
      | JList val =>
          '(newOutput, translationValue) ←
            translateListItems fuel inputValue (parsedInput st) val []
                               translationValue;
          Ret (putTranslated st translationKey
                 match newOutput with
                 | _ :: _ => JList newOutput
                 | [] => translationValue
                 end)
      | JObj _ =>
          '(translationValueParsed, _) ←
            runJsonTranslation fuel inputValue translationValue false;
          Ret (putTranslated st translationKey
                 match translationValueParsed with
                 | [] => translationValue
                 | _ :: _ => JObj translationValueParsed
                 end)
      | JStr val =>
          Ret (putTranslated st translationKey
                 (translateString (parsedInput st) val))
      | _ => Ret (putTranslated st translationKey translationValue)
      end
  end.

Fixpoint translateEntries `{GoLib} (fuel : nat) (inputValue : GoMap)
    (entries : GoMap) (st : Translating) : Run Translating :=
  match entries with
  | [] => Ret st
  | (translationKey, translationValue) :: later =>
      st ← translateEntry fuel inputValue st translationKey translationValue;
      translateEntries fuel inputValue later st
  end.

Definition startTranslating (inputValue : GoMap) (keepOriginal : bool)
  : Translating :=
  {| parsedInput := inputValue;
     translatedInput := if keepOriginal then [("unmapped", JNull)] else [];
     unmappedIsInput := keepOriginal |}.

Definition marshalled (st : Translating) : GoMap * GoMap :=
  (if unmappedIsInput st
   then setKey "unmapped" (JObj (parsedInput st)) (translatedInput st)
   else translatedInput st,
   parsedInput st).

(** What one round of the loop over the template does to the state, whatever
    the template value is: the entries of the input whose key is the
    template value are put at [translationKey], in the output and in the
    input, or one value is put there in the output alone. *)
Definition writesKey (translationKey : string) (st st' : Translating) : Prop :=
  (∃ hit hits,
     st' = foldl (λ st v, putFound st translationKey v) st (hit :: hits)) ∨
  (∃ v, st' = putTranslated st translationKey v).

(** A template without lists, at any depth. *)
Fixpoint listFree (translation : Json) : bool :=
  match translation with
  | JList _ => false
  | JObj entries => forallb (λ kv, listFree kv.2) entries
  | _ => true
  end.

(** What is shown of [runJsonTranslation] on a part of the template. *)
Definition alwaysReturns `{GoLib} (fuel : nat) (translation : Json) : Prop :=
  listFree translation = true →
  ∀ inputValue keepOriginal,
    ∃ result, runJsonTranslation fuel inputValue translation keepOriginal = Ret result.

(** A key the pattern of line 1373 reads as one group: one byte or more of
    the first class. *)
Fixpoint allRefBytes (s : string) : bool :=
  match s with
  | EmptyString => true
  | String c r => isRefByte c && allRefBytes r
  end.

Definition refKey (k : string) : bool :=
  negb (String.eqb k "") && allRefBytes k.

(** The keys after the first, each behind its dot. *)
Definition dotted (keys : list string) : string :=
  foldr (λ k acc, "." +:+ k +:+ acc) "" keys.

(** ** Reverse inference: [ReverseTranslate] (reverse.go) *)

(** [map[string]string] *)
Abbreviation Mapping := (list (string * string)).

Fixpoint FindMatchingString (stringToFind : string) (mapToSearch : GoMap) : string :=
  match mapToSearch with
  | [] => ""
  | (key, value) :: rest =>
      match value with
      | JStr foundValue =>
          if String.eqb foundValue stringToFind then key
          else FindMatchingString stringToFind rest
      | _ => FindMatchingString stringToFind rest
      end
  end.

(** The test of line 215, on the trimmed string. *)
Definition looksLikeJson (val : string) : bool :=
  HasPrefix val "{" && HasSuffix val "}" && Contains val strDquote.

(** Lines 213-228: a string that looks like a JSON object is replaced by the
    map it decodes to, which stays empty when decoding fails. *)
Definition embedded `{GoLib} (value : Json) : option GoMap :=
  match value with
  | JStr val =>
      let val := TrimSpace val in
      if looksLikeJson val then Some (default [] (UnmarshalMap val)) else None
  | _ => None
  end.

(** Lines 256-262 and 297-303: the paths found below, with their prefix. *)
Definition adoptPaths (prefix : string) (outputMap newMap : Mapping) : Mapping :=
  foldl (λ newMap kv, if String.eqb kv.2 "" then newMap
                      else setKey kv.1 (prefix +:+ "." +:+ kv.2) newMap)
        newMap outputMap.

(** [fmt.Sprintf("%s.#%d", key, i)] *)
Definition indexPath (key : string) (i : nat) : string :=
  key +:+ ".#" +:+ pretty i.

(** The walk over one source map. [decoded] is the recursive call on a map
    decoded from a string, the one call that is not on a part of the tree;
    [sourceMap] is the map as a tree. What is returned is [newMap], which the
    function hands over as indented JSON. A null, as a value of the map or
    as an item of a list, reaches the log lines of 305 and 319, where
    [reflect.TypeOf(nil).String()] panics. *)
Definition ReverseTranslateIn `{GoLib} (decoded : GoMap → GoMap → Run Mapping)
  : Json → GoMap → Run Mapping :=
  fix walk (sourceMap : Json) (searchInMap : GoMap) {struct sourceMap} : Run Mapping :=
    match sourceMap with
    | JObj entries =>
        (fix range (entries : GoMap) (newMap : Mapping) : Run Mapping :=
           match entries with
           | [] => Ret newMap
           | (key, value) :: rest =>
               match embedded value with
               | Some mapped =>
                   outputMap ← decoded mapped searchInMap;
                   range rest (adoptPaths key outputMap newMap)
               | None =>
                   match value with
                   | JStr val =>
                       let matching := FindMatchingString val searchInMap in
                       if (String.length matching =? 0)%nat then range rest newMap
                       else range rest (setKey matching key newMap)
                   | JObj _ =>
                       outputMap ← walk value searchInMap;
                       range rest (adoptPaths key outputMap newMap)
                   | JList val =>
                       newMap ←
                         (fix items (i : nat) (val : list Json) (newMap : Mapping)
                            : Run Mapping :=
                            match val with
                            | [] => Ret newMap
                            | v :: tl =>
                                match v with
                                | JStr stringval =>
                                    let matching :=
                                      FindMatchingString stringval searchInMap in
                                    if String.eqb stringval "" then items (S i) tl newMap
                                    else if (String.length matching =? 0)%nat
                                    then items (S i) tl newMap
                                    else items (S i) tl
                                           (setKey matching (indexPath key i) newMap)
                                | JObj _ =>
                                    outputMap ← walk v searchInMap;
                                    items (S i) tl
                                      (adoptPaths (indexPath key i) outputMap newMap)
                                | JNull => Panic
                                | _ => items (S i) tl newMap
                                end
                            end) 0%nat val newMap;
                       range rest newMap
                   | JNull => Panic
                   | _ => range rest newMap
                   end
               end
           end) entries (List.map (λ kv, (kv.1, "")) searchInMap)
    | _ => Ret (List.map (λ kv, (kv.1, "")) searchInMap)
    end.

(** [ReverseTranslate(sourceMap, searchInMap)]; [fuel] bounds how deep JSON
    documents may sit inside strings of JSON documents. *)
Fixpoint ReverseTranslate `{GoLib} (fuel : nat) (sourceMap : Json)
    (searchInMap : GoMap) {struct fuel} : Run Mapping :=
  ReverseTranslateIn
    (match fuel with
     | O => λ _ _, OutOfFuel
     | S fuel => λ mapped searchInMap, ReverseTranslate fuel (JObj mapped) searchInMap
     end)
    sourceMap searchInMap.

(** The result as the template [runJsonTranslation] takes. *)
Definition templateOf (newMap : Mapping) : Json :=
  JObj (List.map (λ kv, (kv.1, JStr kv.2)) newMap).

(** The pieces of [ReverseTranslate] by name: one item of a list value (lines
    268-307), the loop over the items, one entry of [sourceMap] (lines
    212-336) and the loop over the entries. [walk] is the call on a part of
    the tree. *)
Definition reverseItem (walk : Json → GoMap → Run Mapping) (searchInMap : GoMap)
    (key : string) (i : nat) (v : Json) (newMap : Mapping) : Run Mapping :=
  match v with
  | JStr stringval =>
      let matching := FindMatchingString stringval searchInMap in
      if String.eqb stringval "" then Ret newMap
      else if (String.length matching =? 0)%nat then Ret newMap
      else Ret (setKey matching (indexPath key i) newMap)
  | JObj _ =>
      outputMap ← walk v searchInMap;
      Ret (adoptPaths (indexPath key i) outputMap newMap)
  | JNull => Panic
  | _ => Ret newMap
  end.

Fixpoint reverseItems (walk : Json → GoMap → Run Mapping) (searchInMap : GoMap)
    (key : string) (i : nat) (val : list Json) (newMap : Mapping) : Run Mapping :=
  match val with
  | [] => Ret newMap
  | v :: tl =>
      newMap ← reverseItem walk searchInMap key i v newMap;
      reverseItems walk searchInMap key (S i) tl newMap
  end.

Definition reverseEntry `{GoLib} (decoded : GoMap → GoMap → Run Mapping)
    (walk : Json → GoMap → Run Mapping) (searchInMap : GoMap)
    (key : string) (value : Json) (newMap : Mapping) : Run Mapping :=
  match embedded value with
  | Some mapped =>
      outputMap ← decoded mapped searchInMap;
      Ret (adoptPaths key outputMap newMap)
  | None =>
      match value with
      | JStr val =>
          let matching := FindMatchingString val searchInMap in
          if (String.length matching =? 0)%nat then Ret newMap
          else Ret (setKey matching key newMap)
      | JObj _ =>
          outputMap ← walk value searchInMap;
          Ret (adoptPaths key outputMap newMap)
      | JList val => reverseItems walk searchInMap key 0 val newMap
      | JNull => Panic
      | _ => Ret newMap
      end
  end.

Fixpoint reverseEntries `{GoLib} (decoded : GoMap → GoMap → Run Mapping)
    (walk : Json → GoMap → Run Mapping) (searchInMap : GoMap)
    (entries : GoMap) (newMap : Mapping) : Run Mapping :=
  match entries with
  | [] => Ret newMap
  | (key, value) :: rest =>
      newMap ← reverseEntry decoded walk searchInMap key value newMap;
      reverseEntries decoded walk searchInMap rest newMap
  end.

(** The call on a map decoded from a string, with the fuel that is left. *)
Definition decodedWith `{GoLib} (fuel : nat) : GoMap → GoMap → Run Mapping :=
  match fuel with
  | O => λ _ _, OutOfFuel
  | S fuel => λ mapped searchInMap, ReverseTranslate fuel (JObj mapped) searchInMap
  end.

(** [newMap] as the function starts with it (lines 207-210). *)
Definition emptyPaths (searchInMap : GoMap) : Mapping :=
  List.map (λ kv, (kv.1, "")) searchInMap.

(** *** Where the walk finds a string

    [foundAt sourceMap s path]: the walk over [sourceMap] comes upon the
    string [s] and has [path] for it. *)
Inductive foundAt `{GoLib} : Json → string → string → Prop :=
| foundAt_entry entries key val :
    (key, JStr val) ∈ entries → embedded (JStr val) = None →
    foundAt (JObj entries) val key
| foundAt_embedded entries key val mapped s path :
    (key, JStr val) ∈ entries → embedded (JStr val) = Some mapped →
    foundAt (JObj mapped) s path → path ≠ "" →
    foundAt (JObj entries) s (key +:+ "." +:+ path)
| foundAt_object entries key m s path :
    (key, JObj m) ∈ entries → foundAt (JObj m) s path → path ≠ "" →
    foundAt (JObj entries) s (key +:+ "." +:+ path)
| foundAt_item entries key val i s :
    (key, JList val) ∈ entries → val !! i = Some (JStr s) → s ≠ "" →
    foundAt (JObj entries) s (indexPath key i)
| foundAt_item_object entries key val i m s path :
    (key, JList val) ∈ entries → val !! i = Some (JObj m) →
    foundAt (JObj m) s path → path ≠ "" →
    foundAt (JObj entries) s (indexPath key i +:+ "." +:+ path).

(** [readableWithin fuel sourceMap]: the walk meets no null, as a value of
    a map or as an item of a list, and no string of the walk holds JSON
    documents inside JSON documents more than [fuel] deep. *)
Definition readableIn `{GoLib} (deeper : GoMap → bool) : Json → bool :=
  fix within (sourceMap : Json) : bool :=
    match sourceMap with
    | JObj entries =>
        forallb (λ kv, match embedded kv.2 with
                       | Some mapped => deeper mapped
                       | None =>
                           match kv.2 with
                           | JObj _ => within kv.2
                           | JList val =>
                               forallb (λ v, match v with
                                             | JObj _ => within v
                                             | JNull => false
                                             | _ => true
                                             end) val
                           | JNull => false
                           | _ => true
                           end
                       end) entries
    | _ => true
    end.

Fixpoint readableWithin `{GoLib} (fuel : nat) (sourceMap : Json) : bool :=
  readableIn (match fuel with
             | O => λ _, false
             | S fuel => λ mapped, readableWithin fuel (JObj mapped)
             end) sourceMap.

Definition deeperWith `{GoLib} (fuel : nat) : GoMap → bool :=
  match fuel with
  | O => λ _, false
  | S fuel => λ mapped, readableWithin fuel (JObj mapped)
  end.

(** *** Sources the inferred paths lead back into

    A key the forward pass reads as one step of a path: no dot, no dollar
    sign, no quote, no bracket. *)
Definition plainKey (k : string) : bool :=
  negb (Contains k ".") && negb (Contains k "$") &&
  negb (Contains k strDquote) && negb (Contains k "[").

(** An object whose keys, and those of the objects nested in it, are plain
    and held once, and whose strings do not look like JSON documents. What
    sits in lists is not looked at. *)
Fixpoint plainTree (v : Json) : bool :=
  match v with
  | JObj entries =>
      bool_decide (NoDup (keysOf entries)) &&
      forallb (λ kv, plainKey kv.1 &&
                     match kv.2 with
                     | JStr val => negb (looksLikeJson (TrimSpace val))
                     | JObj _ => plainTree kv.2
                     | _ => true
                     end) entries
  | _ => true
  end.

(** The input as the loop over the template keeps it: the keys of the source
    hold what they held, every key is held once and has no dot. *)
Definition keepsSource (source : GoMap) (st : Translating) : Prop :=
  NoDup (keysOf (parsedInput st)) ∧
  (∀ key, key ∈ keysOf source →
          lookupKey key (parsedInput st) = lookupKey key source) ∧
  Forall (λ key, Contains key "." = false) (keysOf (parsedInput st)) ∧
  unmappedIsInput st = false.

(** The path [keys] leads to the string [s] in [source]. *)
Definition leadsTo (source : GoMap) (path s : string) : Prop :=
  ∃ keys, keys ≠ [] ∧ path = Join keys "." ∧
          Forall (λ k, plainKey k = true) keys ∧
          lookupPath (JObj source) keys = Some (JStr s).

(** Every path of [newMap] that is not empty is the path the walk has for
    a string [F] knows of, and the key it stands at is the key of
    [searchInMap] that string was matched to. *)
Definition pathsFrom (searchInMap : GoMap) (F : string → string → Prop)
    (newMap : Mapping) : Prop :=
  keysOf newMap = keysOf searchInMap ∧
  ∀ k path, (k, path) ∈ newMap →
            path = "" ∨
            ∃ s, F s path ∧ FindMatchingString s searchInMap = k ∧ k ≠ "".

(** What is shown of the call on a part of the tree: its paths are those of
    the walk, and it returns. *)
Definition walkFinds `{GoLib} (fuel : nat) (v : Json) : Prop :=
  ∀ searchInMap newMap,
    ReverseTranslate fuel v searchInMap = Ret newMap →
    pathsFrom searchInMap (foundAt v) newMap.

Definition walkReturns `{GoLib} (fuel : nat) (v : Json) : Prop :=
  readableWithin fuel v = true →
  ∀ searchInMap, ∃ newMap, ReverseTranslate fuel v searchInMap = Ret newMap.

(** ** Write-back: [MapValueToLocation] (reverse.go) *)

(** [fmt.Sscanf(s, "%d", &n)]: blanks, an optional sign, decimal digits; the
    rest of [s] is not looked at. [None] is an error, which leaves [n] as it
    was: no digit, an underscore among the digits, or a value that does not
    fit 64 bits. *)
Fixpoint skipBlanks (s : string) : string :=
  match s with
  | String c r =>
      let n := Ascii.N_of_ascii c in
      if (n =? 32)%N || (n =? 9)%N || (n =? 13)%N then skipBlanks r else s
  | EmptyString => s
  end.

Fixpoint hasUnderscoreInDigits (s : string) : bool :=
  match s with
  | String c r =>
      if (Ascii.N_of_ascii c =? 95)%N then true
      else if isDigit c then hasUnderscoreInDigits r else false
  | EmptyString => false
  end.

Definition Sscanf_d (s : string) : option Z :=
  let s := skipBlanks s in
  let '(neg, body) :=
    match s with
    | String c r =>
        let n := Ascii.N_of_ascii c in
        if (n =? 45)%N then (true, r)
        else if (n =? 43)%N then (false, r) else (false, s)
    | EmptyString => (false, s)
    end in
  match body with
  | String d _ =>
      if negb (isDigit d) then None
      else if hasUnderscoreInDigits body then None
      else
        let n := (readDigits 0 body).1 in
        let n := if neg then - n else n in
        if (- 2 ^ 63 <=? n) && (n <? 2 ^ 63) then Some n else None
  | EmptyString => None
  end.

(** [for i, _ := range val { correctIndexes = append(correctIndexes, i) }] *)
Definition allIndexes (val : list Json) : list Z :=
  seqZ 0 (Z.of_nat (length val)).

(** Lines 61-72 and 74-82: the two bounds of a range; [None] is the
    [continue] after a "Bad loop mapping" log line. *)
Definition startIndexOf (startIndex : string) : option Z :=
  match Sscanf_d startIndex with
  | Some n => Some n
  | None =>
      if (String.length startIndex =? 0)%nat || String.eqb startIndex "min"
      then Some 0 else None
  end.

Definition endIndexOf (endIndex : string) (val : list Json) : option Z :=
  match Sscanf_d endIndex with
  | Some n => Some n
  | None =>
      if (String.length endIndex =? 0)%nat || String.eqb endIndex "max"
      then Some (Z.of_nat (length val) - 1) else None
  end.

(** Lines 44-129: the indexes a list selector picks in [val]; [None] is one
    of the [continue] statements after a "Bad loop mapping" log line, which
    leaves the entry as it is. *)
Definition correctIndexes (locationParts : list string) (val : list Json)
  : option (list Z) :=
  let key := hd "" locationParts in
  match tail locationParts with
  | selector :: _ =>
      if HasPrefix selector "#" then
        if String.eqb selector "#" then Some (allIndexes val)
        else if Contains selector "-" then
          match Split selector "-" with
          | [first; second] =>
              let startIndex := TrimPrefix first "#" in
              let endIndex := TrimPrefix second "#" in
              match startIndexOf startIndex, endIndexOf endIndex val with
              | Some startIndexInt, Some endIndexInt =>
                  if startIndexInt <? 0 then None
                  else Some (seqZ startIndexInt (endIndexInt - startIndexInt + 1))
              | _, _ => None
              end
          | _ => None
          end
        else if Contains key "#" then
          let index := TrimPrefix selector "#" in
          let indexInt :=
            match Sscanf_d index with
            | Some n => Some n
            | None =>
                if String.eqb index "min" then Some 0
                else if String.eqb index "max"
                then Some (Z.of_nat (length val) - 1) else None
            end in
          match indexInt with
          | Some indexInt => if indexInt <? 0 then None else Some [indexInt]
          | None => None
          end
        else Some (allIndexes val)
      else Some (allIndexes val)
  | [] => Some (allIndexes val)
  end.

(** [MapValueToLocation(mapToSearch, location, value)]; the map is given and
    returned as a tree. A null under the first key of a location that goes
    on reaches the log line of 177, where [reflect.TypeOf(nil).String()]
    panics. *)
Fixpoint MapValueToLocation (mapToSearch : Json) (location value : string)
    {struct mapToSearch} : Run Json :=
  match mapToSearch with
  | JObj entries =>
      let locationParts := Split location "." in
      entries ←
        (fix range (entries : GoMap) : Run GoMap :=
           match entries with
           | [] => Ret []
           | (key, mapValue) :: rest =>
               placed ←
                 (if negb (String.eqb key (hd "" locationParts)) then Ret mapValue
                  else if (length locationParts =? 1)%nat then Ret (JStr value)
                  else
                    match mapValue with
                    | JObj _ =>
                        MapValueToLocation mapValue
                          (Join (tail locationParts) ".") value
                    | JList val =>
                        match correctIndexes locationParts val with
                        | None => Ret mapValue
                        | Some indexes =>
                            loopMap ←
                              (fix loop (i : nat) (val : list Json)
                                 : Run (list Json) :=
                                 match val with
                                 | [] => Ret []
                                 | v :: tl =>
                                     if negb (bool_decide (Z.of_nat i ∈ indexes))
                                     then later ← loop (S i) tl; Ret (v :: later)
                                     else
                                       match v with
                                       | JObj _ =>
                                           let splitLocationParts :=
                                             tail locationParts in
                                           if (length splitLocationParts <? 2)%nat
                                           then loop (S i) tl
                                           else
                                             let splitLocationParts :=
                                               if Contains (hd "" splitLocationParts) "#"
                                               then tail splitLocationParts
                                               else splitLocationParts in
                                             placed ←
                                               MapValueToLocation v
                                                 (Join splitLocationParts ".") value;
                                             later ← loop (S i) tl;
                                             Ret (placed :: later)
                                       | _ => later ← loop (S i) tl; Ret (v :: later)
                                       end
                                 end) 0%nat val;
                            Ret (JList loopMap)
                        end
                    | JNull => Panic
                    | _ => Ret mapValue
                    end);
               later ← range rest;
               Ret ((key, placed) :: later)
           end) entries;
      Ret (JObj entries)
  | _ => Ret mapToSearch
  end.

(** The pieces of [MapValueToLocation] by name: the loop over the items of a
    list (lines 133-172) from index [i] on. *)
Fixpoint placeInItems (locationParts : list string) (value : string)
    (indexes : list Z) (i : nat) (val : list Json) : Run (list Json) :=
  match val with
  | [] => Ret []
  | v :: tl =>
      if negb (bool_decide (Z.of_nat i ∈ indexes))
      then later ← placeInItems locationParts value indexes (S i) tl; Ret (v :: later)
      else
        match v with
        | JObj _ =>
            let splitLocationParts := tail locationParts in
            if (length splitLocationParts <? 2)%nat
            then placeInItems locationParts value indexes (S i) tl
            else
              let splitLocationParts :=
                if Contains (hd "" splitLocationParts) "#"
                then tail splitLocationParts
                else splitLocationParts in
              placed ← MapValueToLocation v (Join splitLocationParts ".") value;
              later ← placeInItems locationParts value indexes (S i) tl;
              Ret (placed :: later)
        | _ => later ← placeInItems locationParts value indexes (S i) tl;
               Ret (v :: later)
        end
  end.

(** One entry of the loop over [mapToSearch] (lines 22-183): what the entry
    holds afterwards. *)
Definition placeEntry (locationParts : list string) (value : string)
    (key : string) (mapValue : Json) : Run Json :=
  if negb (String.eqb key (hd "" locationParts)) then Ret mapValue
  else if (length locationParts =? 1)%nat then Ret (JStr value)
  else
    match mapValue with
    | JObj _ => MapValueToLocation mapValue (Join (tail locationParts) ".") value
    | JList val =>
        match correctIndexes locationParts val with
        | None => Ret mapValue
        | Some indexes =>
            loopMap ← placeInItems locationParts value indexes 0 val;
            Ret (JList loopMap)
        end
    | JNull => Panic
    | _ => Ret mapValue
    end.

(** The loop over the entries of [mapToSearch]. *)
Fixpoint placeEntries (locationParts : list string) (value : string)
    (entries : GoMap) : Run GoMap :=
  match entries with
  | [] => Ret []
  | (key, mapValue) :: rest =>
      placed ← placeEntry locationParts value key mapValue;
      later ← placeEntries locationParts value rest;
      Ret ((key, placed) :: later)
  end.

(** What the loop over the items makes of the item at index [i] when a path
    goes on behind the selector: an object at a picked index takes the
    value at that path, every other item stays. *)
Definition placedItem (path value : string) (indexes : list Z) (i : nat) (v : Json)
  : Run Json :=
  if bool_decide (Z.of_nat i ∈ indexes) then
    match v with
    | JObj _ => MapValueToLocation v path value
    | _ => Ret v
    end
  else Ret v.

(** ** The single-flight wrapper: [GptTranslate] (translate.go) *)

(** What [GptTranslate] does to the world: the cache of shuffle.go, the
    clock, the query file and the chat completion of the generator. A
    program is the tree of these calls; each continuation takes what the
    call returns. *)
Inductive Prog (R : Type) : Type :=
| Return (r : R)
| GetCache (name : string) (k : option string → Prog R)
| SetCache (name data : string) (expiration : Z) (k : bool → Prog R)
| Sleep (milliseconds : Z) (k : Prog R)
| RandIntn (n : Z) (k : Z → Prog R)
| SaveQuery (inputStandard gptTranslated : string) (k : Prog R)
| CreateChatCompletion (systemMessage userQuery : string)
    (k : option string → Prog R).
Arguments Return {R} r.
Arguments GetCache {R} name k.
Arguments SetCache {R} name data expiration k.
Arguments Sleep {R} milliseconds k.
Arguments RandIntn {R} n k.
Arguments SaveQuery {R} inputStandard gptTranslated k.
Arguments CreateChatCompletion {R} systemMessage userQuery k.

Inductive GptError : Type :=
| ApiKeyNotSet
| InputTooLong
| NoCompletionAfterFiveTries
| SetCacheFailed.

Definition maxInputSize : nat := 5000.

(** [ShuffleConfig], the fields read here. *)
Record ShuffleConfig := { URL : string; OrgId : string }.

Definition userQueryOf (standardFormat inputDataFormat : string) : string :=
  "Standard:" +:+ newline +:+ "```json" +:+ newline +:+ standardFormat +:+ newline
  +:+ "```" +:+ newline +:+ newline +:+ newline +:+ newline +:+ "User Input:"
  +:+ newline +:+ "```json" +:+ newline +:+ inputDataFormat +:+ newline +:+ "```".

(** The polling loop of lines 135-148 with [maxIter - cnt] rounds of sleep
    remaining; [after] is the code behind the loop. *)
Fixpoint pollCache {R} (remaining : nat) (sleepTime : Z) (cacheKey : string)
    (hit : string → Prog R) (after : Prog R) : Prog R :=
  GetCache cacheKey
    (λ cache,
       match cache with
       | Some contentOutput => hit contentOutput
       | None =>
           match remaining with
           | O => after
           | S remaining =>
               Sleep (sleepTime * 1000) (pollCache remaining sleepTime cacheKey hit after)
           end
       end).

(** The loop of lines 169-204 with [5 - cnt] tries remaining. *)
Fixpoint complete {R} (remaining : nat) (systemMessage userQuery : string)
    (got : string → Prog R) (gaveUp : Prog R) : Prog R :=
  match remaining with
  | O => gaveUp
  | S remaining =>
      CreateChatCompletion systemMessage userQuery
        (λ resp,
           match resp with
           | None =>
               Sleep (3 * 1000) (complete remaining systemMessage userQuery got gaveUp)
           | Some contentOutput => got contentOutput
           end)
  end.

Section GptTranslate.
Context `{GoLib}.
(** The prompt of lines 95-100 and whether [OPENAI_API_KEY] is set. *)
Variable systemMessage : string.
Variable apiKeySet : bool.

Definition GptTranslate (keyTokenFile standardFormat inputDataFormat : string)
    (shuffleConfig : ShuffleConfig) : Prog (string * option GptError) :=
  let userQuery := userQueryOf standardFormat inputDataFormat in
  if negb apiKeySet then Return (standardFormat, Some ApiKeyNotSet)
  else if (maxInputSize <? String.length inputDataFormat)%nat
  then Return (standardFormat, Some InputTooLong)
  else
    let md5Query := md5hex (OrgId shuffleConfig +:+ systemMessage +:+ userQuery) in
    RandIntn 500
      (λ randomSleeptime,
         Sleep randomSleeptime
           (let cacheKey := "translationquery-" +:+ md5Query in
            let cacheKeyStarted := "translationquery-" +:+ md5Query +:+ "-started" in
            let generate : Prog (string * option GptError) :=
              GetCache cacheKey
                (λ cache,
                   match cache with
                   | Some contentOutput => Return (contentOutput, None)
                   | None =>
                       SaveQuery keyTokenFile userQuery
                         (complete 5 systemMessage userQuery
                            (λ contentOutput,
                               SetCache cacheKey contentOutput 30
                                 (λ ok, Return (contentOutput,
                                                if ok : bool then None
                                                else Some SetCacheFailed)))
                            (Return (standardFormat,
                                     Some NoCompletionAfterFiveTries)))
                   end) in
            GetCache cacheKeyStarted
              (λ found,
                 match found with
                 | Some _ =>
                     let maxIter := 6%nat in
                     let sleepTime := 5 in
                     pollCache maxIter sleepTime cacheKey
                       (λ contentOutput, Return (contentOutput, None))
                       generate
                 | None =>
                     SetCache cacheKeyStarted "started" 1 (λ _, generate)
                 end))).
End GptTranslate.

(** *** Running a program *)

Inductive Event : Type :=
| DidGetCache (name : string) (result : option string)
| DidSetCache (name data : string) (expiration : Z)
| DidSleep (milliseconds : Z)
| DidRandIntn (n result : Z)
| DidSaveQuery (inputStandard gptTranslated : string)
| DidCreateChatCompletion (result : option string).

(** The rest of the world: other callers and the generator decide what each
    call returns, given all that happened before. *)
Record World := {
  cacheHolds : list Event → string → option string;
  cacheAccepts : list Event → string → bool;
  randomNumber : list Event → Z → Z;
  completion : list Event → option string;
}.

Fixpoint run {R} (w : World) (past : list Event) (p : Prog R) : list Event * R :=
  match p with
  | Return r => (past, r)
  | GetCache name k =>
      let result := cacheHolds w past name in
      run w (past ++ [DidGetCache name result]) (k result)
  | SetCache name data expiration k =>
      run w (past ++ [DidSetCache name data expiration])
          (k (cacheAccepts w past name))
  | Sleep milliseconds k => run w (past ++ [DidSleep milliseconds]) k
  | RandIntn n k =>
      let result := randomNumber w past n in
      run w (past ++ [DidRandIntn n result]) (k result)
  | SaveQuery inputStandard gptTranslated k =>
      run w (past ++ [DidSaveQuery inputStandard gptTranslated]) k
  | CreateChatCompletion _ _ k =>
      let result := completion w past in
      run w (past ++ [DidCreateChatCompletion result]) (k result)
  end.

(** The two cache keys of [GptTranslate]. *)
Definition cacheKeyOf `{GoLib} (systemMessage standardFormat inputDataFormat : string)
    (shuffleConfig : ShuffleConfig) : string :=
  "translationquery-" +:+
  md5hex (OrgId shuffleConfig +:+ systemMessage
          +:+ userQueryOf standardFormat inputDataFormat).

Definition cacheKeyStartedOf `{GoLib} (systemMessage standardFormat inputDataFormat : string)
    (shuffleConfig : ShuffleConfig) : string :=
  "translationquery-" +:+
  md5hex (OrgId shuffleConfig +:+ systemMessage
          +:+ userQueryOf standardFormat inputDataFormat) +:+ "-started".

(** The events of a caller that finds the lock and never the result: seven
    reads of the result key five seconds apart. *)
Definition pollsInVain (cacheKey : string) : list Event :=
  concat (replicate 6 [DidGetCache cacheKey None; DidSleep 5000])
  ++ [DidGetCache cacheKey None].

(** ** Sub-standard expansion: [handleSubStandard] (translate.go) *)

Definition skipAfterCount : nat := 50.

(** The loop of lines 1491-1536 from index [cnt] on: the items a goroutine is
    started for, with their index. *)
Fixpoint startedFrom (cnt : nat) (listJson : list Json) : list (nat * Json) :=
  match listJson with
  | [] => []
  | listItem :: rest =>
      if (cnt =? 0)%nat then startedFrom (S cnt) rest
      else (cnt, listItem) ::
           (if (skipAfterCount <? cnt)%nat then [] else startedFrom (S cnt) rest)
  end.

(** Lines 1452-1474: the list to expand. [json.Unmarshal] takes a null for
    a list without an error and leaves the list empty; a string, a number
    or a boolean is an error for the list and for the map. *)
Definition listToExpand (returnJson : Json) : option (list Json) :=
  match returnJson with
  | JList listJson => Some listJson
  | JNull => Some []
  | JObj mapJson =>
      Some (default [] (head (omap (λ kv, match kv.2 with
                                          | JList l => Some l
                                          | _ => None
                                          end) mapJson)))
  | _ => None
  end.

Section handleSubStandard.
(** [Translate(ctx, subStandard, item, authConfig, "skip_substandard")] for
    the item at an index, [None] when it returns an error; and the order in
    which the goroutines that succeed reach their append. *)
Variable TranslateItem : nat → Json → option string.
Variable appendOrder : list (nat * string) → list (nat * string).

(** Every call of [Translate], in program order. *)
Definition translateCalls (listJson : list Json) : list (nat * Json) :=
  match listJson with
  | [] => []
  | first :: _ => (0%nat, first) :: startedFrom 0 listJson
  end.

Definition succeeded (calls : list (nat * Json)) : list (nat * string) :=
  omap (λ c, match TranslateItem c.1 c.2 with
             | Some schemalessOutput => Some (c.1, schemalessOutput)
             | None => None
             end) calls.

Definition handleSubStandard (returnJson : Json) : option string :=
  match listToExpand returnJson with
  | None => None
  | Some listJson =>
      match listJson with
      | [] => Some "[]"
      | first :: _ =>
          let parsedOutput :=
            succeeded [(0%nat, first)]
            ++ appendOrder (succeeded (startedFrom 0 listJson)) in
          Some ("[" +:+ String.concat "," parsedOutput.*2 +:+ "]")
      end
  end.
End handleSubStandard.

(** The items with their indices, counted from [cnt]. *)
Definition indexedFrom (cnt : nat) (listJson : list Json) : list (nat * Json) :=
  imap (λ i item, (cnt + i, item)%nat) listJson.

(** The calls of the generator among the events, and the events of [n]
    calls that fail, each with its three seconds of sleep. *)
Definition isCompletion (e : Event) : bool :=
  match e with
  | DidCreateChatCompletion _ => true
  | _ => false
  end.

Definition completionsIn (past : list Event) : nat :=
  length (List.filter isCompletion past).

Definition failedTries (n : nat) : list Event :=
  concat (replicate n [DidCreateChatCompletion None; DidSleep 3000]).

(** [p] calls the generator at most [n] times, whatever the world does. *)
Definition completesAtMost {R} (w : World) (n : nat) (p : Prog R) : Prop :=
  ∀ past, (completionsIn (run w past p).1 ≤ completionsIn past + n)%nat.

(** ** A reference instance of [GoLib]

    Used by the examples: [encoding/json] on documents whose numbers are
    integers below 10^21 and whose strings are valid UTF-8. The digest is a
    stand-in; nothing below looks inside a digest. *)

Definition dquote : Ascii.ascii := Ascii.ascii_of_nat 34.
Definition bslash : Ascii.ascii := Ascii.ascii_of_nat 92.
Definition quoted (s : string) : string :=
  String dquote (s +:+ String dquote "").

Definition hexChar (n : N) : Ascii.ascii :=
  Ascii.ascii_of_N (if (n <? 10)%N then 48 + n else 87 + n)%N.

(** [\u00XX] *)
Definition unicodeEscape (c : Ascii.ascii) : string :=
  let n := Ascii.N_of_ascii c in
  String bslash ("u00" +:+ String (hexChar (n / 16)) (String (hexChar (n mod 16)) "")).

(** The encoder's string escapes, HTML escaping included. *)
Definition escapeByte (c : Ascii.ascii) : string :=
  let n := Ascii.N_of_ascii c in
  if (n =? 34)%N then String bslash (String dquote "")
  else if (n =? 92)%N then String bslash (String bslash "")
  else if (n =? 10)%N then String bslash "n"
  else if (n =? 13)%N then String bslash "r"
  else if (n =? 9)%N then String bslash "t"
  else if (n <? 32)%N then unicodeEscape c
  else if (n =? 60)%N || (n =? 62)%N || (n =? 38)%N then unicodeEscape c
  else String c "".

Fixpoint escapeString (s : string) : string :=
  match s with
  | EmptyString => ""
  | String c r => escapeByte c +:+ escapeString r
  end.

Definition encodeString (s : string) : string := quoted (escapeString s).

(** Maps are written with their keys sorted. *)
Definition entryLe (e1 e2 : string * string) : Prop := String.le e1.1 e2.1.

Definition sortEntries (es : list (string * string)) : list (string * string) :=
  merge_sort entryLe es.

Fixpoint tabs (n : nat) : string :=
  match n with
  | O => ""
  | S n' => String (Ascii.ascii_of_nat 9) (tabs n')
  end.

(** [indent = None]: [json.Marshal]; [indent = Some n]: [json.MarshalIndent]
    with a tab per level, at level [n]. *)
Fixpoint encodeJson (indent : option nat) (v : Json) {struct v} : string :=
  let inner := S <$> indent in
  let open (b : string) :=
    match inner with
    | None => b
    | Some n => b +:+ newline +:+ tabs n
    end in
  let sep :=
    match inner with
    | None => ","
    | Some n => "," +:+ newline +:+ tabs n
    end in
  let close (b : string) :=
    match indent with
    | None => b
    | Some n => newline +:+ tabs n +:+ b
    end in
  let colon := match indent with None => ":" | Some _ => ": " end in
  match v with
  | JNull => "null"
  | JBool true => "true"
  | JBool false => "false"
  | JNum n => pretty n
  | JStr s => encodeString s
  | JList [] => "[]"
  | JList l =>
      open "[" +:+
      String.concat sep
        ((fix each (l : list Json) : list string :=
            match l with
            | [] => []
            | x :: r => encodeJson inner x :: each r
            end) l) +:+
      close "]"
  | JObj [] => "{}"
  | JObj m =>
      open "{" +:+
      String.concat sep
        (List.map (λ e, encodeString e.1 +:+ colon +:+ e.2)
           (sortEntries
              ((fix each (m : GoMap) : list (string * string) :=
                  match m with
                  | [] => []
                  | (k, x) :: r => (k, encodeJson inner x) :: each r
                  end) m))) +:+
      close "}"
  end.

(** The decoder, for documents whose numbers are integers; [fuel] bounds the
    number of values and separators read. *)
Definition isJsonSpace (c : Ascii.ascii) : bool :=
  let n := Ascii.N_of_ascii c in
  (n =? 32)%N || (n =? 9)%N || (n =? 10)%N || (n =? 13)%N.

Fixpoint skipSpace (s : string) : string :=
  match s with
  | String c r => if isJsonSpace c then skipSpace r else s
  | EmptyString => s
  end.

Definition hexValue (c : Ascii.ascii) : option N :=
  let n := Ascii.N_of_ascii c in
  if (48 <=? n)%N && (n <=? 57)%N then Some (n - 48)%N
  else if (97 <=? n)%N && (n <=? 102)%N then Some (n - 87)%N
  else if (65 <=? n)%N && (n <=? 70)%N then Some (n - 55)%N
  else None.

(** UTF-8 of a code point of the basic plane that is not a surrogate. *)
Definition utf8 (cp : N) : option string :=
  let byte (n : N) := Ascii.ascii_of_N n in
  if (cp <? 128)%N then Some (String (byte cp) "")
  else if (cp <? 2048)%N then
    Some (String (byte (192 + cp / 64)%N) (String (byte (128 + cp mod 64)%N) ""))
  else if (55296 <=? cp)%N && (cp <=? 57343)%N then None
  else
    Some (String (byte (224 + cp / 4096)%N)
            (String (byte (128 + (cp / 64) mod 64)%N)
               (String (byte (128 + cp mod 64)%N) ""))).

(** The text after an opening quote: the string and what follows its closing
    quote. [acc] is the string so far, reversed. *)
Fixpoint decodeString (acc : string) (s : string) : option (string * string) :=
  match s with
  | EmptyString => None
  | String c r =>
      let n := Ascii.N_of_ascii c in
      if (n =? 34)%N then Some (String.rev acc, r)
      else if (n <? 32)%N then None
      else if (n =? 92)%N then
        match r with
        | String e r' =>
            let plain (b : N) := decodeString (String (Ascii.ascii_of_N b) acc) r' in
            let m := Ascii.N_of_ascii e in
            if (m =? 34)%N then plain 34%N
            else if (m =? 92)%N then plain 92%N
            else if (m =? 47)%N then plain 47%N
            else if (m =? 98)%N then plain 8%N
            else if (m =? 102)%N then plain 12%N
            else if (m =? 110)%N then plain 10%N
            else if (m =? 114)%N then plain 13%N
            else if (m =? 116)%N then plain 9%N
            else if (m =? 117)%N then
              match r' with
              | String h1 (String h2 (String h3 (String h4 r''))) =>
                  match hexValue h1, hexValue h2, hexValue h3, hexValue h4 with
                  | Some a, Some b, Some c', Some d =>
                      match utf8 (((a * 16 + b) * 16 + c') * 16 + d)%N with
                      | Some bytes => decodeString (String.rev bytes +:+ acc) r''
                      | None => None
                      end
                  | _, _, _, _ => None
                  end
              | _ => None
              end
            else None
        | EmptyString => None
        end
      else decodeString (String c acc) r
  end.

Definition startsNumberTail (s : string) : bool :=
  match s with
  | String c _ =>
      let n := Ascii.N_of_ascii c in (n =? 46)%N || (n =? 101)%N || (n =? 69)%N
  | EmptyString => false
  end.

Definition decodeInteger (s : string) : option (Json * string) :=
  let '(neg, body) :=
    match s with
    | String c r => if (Ascii.N_of_ascii c =? 45)%N then (true, r) else (false, s)
    | EmptyString => (false, s)
    end in
  match body with
  | String d r =>
      if negb (isDigit d) then None
      else if (Ascii.N_of_ascii d =? 48)%N
              && match r with String d' _ => isDigit d' | EmptyString => false end
      then None
      else
        let '(n, rest) := readDigits 0 body in
        if startsNumberTail rest then None
        else Some (JNum (if neg then - n else n), rest)
  | EmptyString => None
  end.

Fixpoint decodeValue (fuel : nat) (s : string) {struct fuel}
  : option (Json * string) :=
  match fuel with
  | O => None
  | S fuel =>
      match skipSpace s with
      | EmptyString => None
      | String c r as s' =>
          let n := Ascii.N_of_ascii c in
          if (n =? 34)%N then
            match decodeString "" r with
            | Some (str, rest) => Some (JStr str, rest)
            | None => None
            end
          else if (n =? 91)%N then
            match skipSpace r with
            | String c' r' =>
                if (Ascii.N_of_ascii c' =? 93)%N then Some (JList [], r')
                else decodeElements fuel [] r
            | EmptyString => None
            end
          else if (n =? 123)%N then
            match skipSpace r with
            | String c' r' =>
                if (Ascii.N_of_ascii c' =? 125)%N then Some (JObj [], r')
                else decodeMembers fuel [] r
            | EmptyString => None
            end
          else if String.prefix "null" s' then Some (JNull, dropBytes 4 s')
          else if String.prefix "true" s' then Some (JBool true, dropBytes 4 s')
          else if String.prefix "false" s' then Some (JBool false, dropBytes 5 s')
          else decodeInteger s'
      end
  end
with decodeElements (fuel : nat) (acc : list Json) (s : string) {struct fuel}
  : option (Json * string) :=
  match fuel with
  | O => None
  | S fuel =>
      match decodeValue fuel s with
      | Some (v, rest) =>
          match skipSpace rest with
          | String c r =>
              if (Ascii.N_of_ascii c =? 44)%N then decodeElements fuel (acc ++ [v]) r
              else if (Ascii.N_of_ascii c =? 93)%N then Some (JList (acc ++ [v]), r)
              else None
          | EmptyString => None
          end
      | None => None
      end
  end
with decodeMembers (fuel : nat) (acc : GoMap) (s : string) {struct fuel}
  : option (Json * string) :=
  match fuel with
  | O => None
  | S fuel =>
      match skipSpace s with
      | String q r =>
          if (Ascii.N_of_ascii q =? 34)%N then
            match decodeString "" r with
            | Some (key, rest) =>
                match skipSpace rest with
                | String c r' =>
                    if (Ascii.N_of_ascii c =? 58)%N then
                      match decodeValue fuel r' with
                      | Some (v, rest') =>
                          match skipSpace rest' with
                          | String c' r'' =>
                              if (Ascii.N_of_ascii c' =? 44)%N
                              then decodeMembers fuel (setKey key v acc) r''
                              else if (Ascii.N_of_ascii c' =? 125)%N
                              then Some (JObj (setKey key v acc), r'')
                              else None
                          | EmptyString => None
                          end
                      | None => None
                      end
                    else None
                | EmptyString => None
                end
            | None => None
            end
          else None
      | EmptyString => None
      end
  end.

(** A whole text: one value, blanks around it. *)
Definition decodeJson (text : string) : option Json :=
  match decodeValue (2 * String.length text + 2) text with
  | Some (v, rest) =>
      match skipSpace rest with
      | EmptyString => Some v
      | _ => None
      end
  | None => None
  end.

Fixpoint dropTrailingZeros (rev_digits : string) : string :=
  match rev_digits with
  | String c r =>
      if (Ascii.N_of_ascii c =? 48)%N then dropTrailingZeros r else rev_digits
  | EmptyString => rev_digits
  end.

(** [%v] of a float that is an integer: [%g] with the shortest digits, the
    exponent form from 10^6 on. *)
Definition formatInteger (n : Z) : string :=
  let digits := pretty (Z.abs n) in
  let sign := if (n <? 0) then "-" else "" in
  let exp := (String.length digits - 1)%nat in
  if (exp <? 6)%nat then sign +:+ digits
  else
    match digits with
    | String d r =>
        let frac := String.rev (dropTrailingZeros (String.rev r)) in
        sign +:+ String d (match frac with EmptyString => "" | _ => "." +:+ frac end)
        +:+ "e+" +:+ (if (exp <? 10)%nat then "0" else "") +:+ pretty exp
    | EmptyString => digits
    end.

Definition refLib : GoLib := {|
  MarshalIndent := encodeJson (Some 0%nat);
  Marshal := encodeJson None;
  UnmarshalMap text :=
    match decodeJson text with
    | Some (JObj m) => Some m
    | Some JNull => Some []
    | _ => None
    end;
  UnmarshalStrings text :=
    match decodeJson text with
    | Some (JList l) =>
        List.map (λ v, match v with JStr s => s | _ => "" end) l
    | _ => []
    end;
  FormatFloat := formatInteger;
  md5hex text := "md5:" +:+ text;
|}.

(** ** Data of the examples *)

Definition shapeDocA : GoMap :=
  [("title", JStr "Disk full"); ("customfield_10011", JStr "x");
   ("meta", JObj [("owner", JStr "ann"); ("seen", JBool true)]);
   ("tags", JList [JStr "a"])].

Definition shapeDocB : GoMap :=
  [("meta", JObj [("seen", JNull); ("owner", JStr "bob"); ("v2", JNum 4)]);
   ("tags", JList [JStr "zz"]); ("title", JStr "CPU hot")].

Definition hiddenDocA : GoMap :=
  [("items", JList [JObj [("sku", JStr "a")]; JObj [("sku", JStr "b")]]);
   ("a", JObj [("b", JObj [("c", JObj [("d", JObj [("e", JStr "x")])])])])].

Definition hiddenDocB : GoMap :=
  [("items", JList [JObj [("price", JNum 3); ("name", JStr "n")]]);
   ("a", JObj [("b", JObj [("c", JList [JObj [("other", JNull)]])])])].

Definition lockHeldWorld : World := {|
  cacheHolds _ name := if HasSuffix name "-started" then Some "started" else None;
  cacheAccepts _ _ := true;
  randomNumber _ _ := 42;
  completion _ := Some "{}";
|}.

Definition idleWorld : World := {|
  cacheHolds _ _ := None;
  cacheAccepts _ _ := true;
  randomNumber _ _ := 7;
  completion _ := None;
|}.

Definition someConfig : ShuffleConfig := {| URL := ""; OrgId := "org" |}.

Definition kmsSource : GoMap :=
  [("secret",
    JObj [("name", JStr "username");
          ("live", JBool true);
          ("version", JObj [("value", JStr "frikky"); ("type", JStr "kv")])]);
   ("id", JNum 7)].

Definition emptyState (inputValue : GoMap) : Translating :=
  startTranslating inputValue false.

Definition twoItems : list Json :=
  [JObj [("a", JStr "x")]; JObj [("a", JStr "y")]].

Definition listDoc : Json := JObj [("l", JList twoItems)].

Definition unevenSource : GoMap :=
  [("l", JList [JObj [("a", JStr "a1"); ("b", JStr "p")];
                JObj [("a", JStr "a2"); ("b", JStr "q")];
                JObj [("a", JStr "a3")]])].

Definition longerFirst : Json :=
  JObj [("items", JList [JObj [("x", JStr "l.#.a"); ("y", JStr "l.#.b")]])].

Definition shorterFirst : Json :=
  JObj [("items", JList [JObj [("y", JStr "l.#.b"); ("x", JStr "l.#.a")]])].

(** The marker of a field that resolved to the two values p and q. *)
Definition markerPQ : string :=
  "schemaless_list[" +:+ strDquote +:+ "p" +:+ strDquote +:+ "," +:+
  strDquote +:+ "q" +:+ strDquote +:+ "]".

Definition markedItem : GoMap := [("x", JStr "a1"); ("y", JStr markerPQ)].

(** A source with a JSON document inside a string, and the keys asked for. *)
Definition embeddedEntries : GoMap :=
  [("user", JStr "ann");
   ("raw", JStr (encodeJson None (JObj [("id", JStr "77")])));
   ("tags", JList [JStr "red"; JObj [("owner", JStr "bob")]])].

Definition embeddedSource : Json := JObj embeddedEntries.

Definition sampleKeys : GoMap :=
  [("name", JStr "ann"); ("ident", JStr "77"); ("colour", JStr "red");
   ("holder", JStr "bob"); ("other", JStr "zzz")].

(** A sample whose values sit in nested objects of [kmsSource], and one
    whose value sits in a list. *)
Definition roundSample : GoMap :=
  [("user", JStr "username"); ("pw", JStr "frikky"); ("none", JStr "zz")].

Definition listSource : GoMap := [("l", JList [JStr "a"; JStr "b"])].

Definition listSample : GoMap := [("k", JStr "b")].

Definition markerAB : string :=
  "schemaless_list[" +:+ strDquote +:+ "a" +:+ strDquote +:+ "," +:+
  strDquote +:+ "b" +:+ strDquote +:+ "]".

(** A world whose cache holds every key, and one whose generator fails twice
    and then answers. *)
Definition warmWorld : World := {|
  cacheHolds _ _ := Some "{}";
  cacheAccepts _ _ := true;
  randomNumber _ _ := 3;
  completion _ := None;
|}.

Definition flakyWorld : World := {|
  cacheHolds _ _ := None;
  cacheAccepts _ _ := true;
  randomNumber _ _ := 3;
  completion past := if (completionsIn past <? 2)%nat then None else Some "{}";
|}.

(** An input whose list holds, in its second item, a string that starts
    like the marker of a resolved list, and a template that copies the
    list into an item of a list. *)
Definition markedSource : GoMap :=
  [("items",
    JList [JObj [("a", JNum 1)];
           JObj [("y", JStr ("schemaless_list[" +:+ strDquote +:+ "a" +:+ strDquote
                             +:+ "]"))]])].

Definition copiedList : Json := JObj [("out", JList [JObj [("k", JStr "items")]])].

(** A source with a JSON document inside a string and no list, and a
    sample with a value of that document. *)
Definition documentSource : GoMap :=
  [("user", JStr "ann");
   ("raw", JStr (encodeJson None (JObj [("id", JStr "77")])))].

Definition documentSample : GoMap := [("name", JStr "ann"); ("ident", JStr "77")].

(** A source whose string holds a JSON document behind a no-break space
    (U+00A0), which [strings.TrimSpace] takes away. *)
Definition noBreakSpace : string :=
  String (Ascii.ascii_of_nat 194) (String (Ascii.ascii_of_nat 160) "").

Definition paddedSource : GoMap :=
  [("raw", JStr (noBreakSpace +:+ encodeJson None (JObj [("id", JStr "77")])))].

(** ** The cache: [SetCache], [GetCache], [DeleteCache] (shuffle.go) *)

Module Cache.

(** [[]byte] *)
Abbreviation Bytes := (list Ascii.ascii).

(** An item as a backend keeps it: [gomemcache.Item] with its expiration in
    seconds, an [int32]; an entry of [requestCache] with its duration in
    nanoseconds, an [int64]. *)
Record Item := { Value : Bytes; Expiration : Z }.

Definition wrapInt (bits : Z) (n : Z) : Z :=
  (n + 2 ^ (bits - 1)) mod 2 ^ bits - 2 ^ (bits - 1).

(** The server behind [mc] and the table of [requestCache]. *)
Definition Store := string → option Item.

Definition storeSet (s : Store) (key : string) (item : Item) : Store :=
  λ k, if String.eqb k key then Some item else s k.

Definition storeDelete (s : Store) (key : string) : Store :=
  λ k, if String.eqb k key then None else s k.

Record Caches := { mc : Store; requestCache : Store }.

Inductive CacheError : Type :=
| TooLargeForCache
| NoCacheInMemcached
| NoOnpremCache
| MemcachedMiss.

(** What [GetCache] returns as [interface{}]: the empty string or bytes. *)
Inductive Cached : Type :=
| CachedString (s : string)
| CachedBytes (data : Bytes).

(** [fmt.Sprintf("%s_%d", name, keyCount)] *)
Definition chunkName (name : string) (keyCount : nat) : string :=
  name +:+ "_" +:+ pretty keyCount.

(** [data[low:high]], which panics out of range. *)
Definition slice (data : Bytes) (low high : nat) : Run Bytes :=
  if (low <=? high)%nat && (high <=? length data)%nat
  then Ret (take (high - low) (drop low data))
  else Panic.

Section cache.
(** [SHUFFLE_MEMCACHED], the package variable [maxCacheSize] (1020000 unless
    it is assigned to) and the keys for which [mc.Set] returns an error. *)
Variable memcached : string.
Variable maxCacheSize : nat.
Variable mcSetFails : string → bool.

(** The loop of lines 647-690; [fuel] bounds its rounds. *)
Fixpoint setChunks (fuel : nat) (name : string) (data : Bytes) (expiration : Z)
    (currentChunk nextStep totalAdded keyAmount : nat) (keyname : string)
    (store : Store) {struct fuel} : Run Store :=
  match fuel with
  | O => OutOfFuel
  | S fuel =>
      let nextStep := if (length data <? nextStep)%nat then length data else nextStep in
      parsedData ← slice data currentChunk nextStep;
      if mcSetFails keyname then Ret store
      else
        let store :=
          storeSet store keyname
                   {| Value := parsedData;
                      Expiration := wrapInt 32 (expiration * 60) |} in
        let totalAdded := (totalAdded + maxCacheSize)%nat in
        let currentChunk := nextStep in
        let nextStep := (nextStep + maxCacheSize)%nat in
        let keyAmount := (keyAmount + 1)%nat in
        let keyname := chunkName name keyAmount in
        if (length data <? totalAdded)%nat then Ret store
        else setChunks fuel name data expiration currentChunk nextStep totalAdded
                       keyAmount keyname store
  end.

(** [SetCache(ctx, name, data, expiration)]: the caches after it and the
    error it returns. *)
Definition SetCache (fuel : nat) (caches : Caches) (name : string) (data : Bytes)
    (expiration : Z) : Run (Caches * option CacheError) :=
  if (String.length name =? 0)%nat then Ret (caches, None)
  else
    let name := ReplaceAll name " " "_" in
    if (0 <? String.length memcached)%nat then
      let comparisonNumber := 50%nat in
      if (maxCacheSize * comparisonNumber <? length data)%nat
      then Ret (caches, Some TooLargeForCache)
      else if (maxCacheSize <? length data)%nat then
        store ← setChunks fuel name data expiration 0 maxCacheSize 0 0 name (mc caches);
        Ret ({| mc := store; requestCache := requestCache caches |}, None)
      else
        Ret ({| mc := if mcSetFails name then mc caches
                      else storeSet (mc caches) name
                             {| Value := data;
                                Expiration := wrapInt 32 (expiration * 60) |};
                requestCache := requestCache caches |}, None)
    else
      Ret ({| mc := mc caches;
              requestCache :=
                storeSet (requestCache caches) name
                  {| Value := data;
                     Expiration := wrapInt 64 (60000000000 * expiration) |} |},
           None).

(** The loop of lines 527-541 from [keyCount] on. *)
Fixpoint getChunks (fuel : nat) (store : Store) (name : string)
    (totalData : Bytes) (keyCount : nat) {struct fuel} : Run Bytes :=
  match fuel with
  | O => OutOfFuel
  | S fuel =>
      match store (chunkName name keyCount) with
      | None => Ret totalData
      | Some item =>
          let totalData := totalData ++ Value item in
          if negb (length (Value item) =? maxCacheSize)%nat then Ret totalData
          else getChunks fuel store name totalData (S keyCount)
      end
  end.

(** [GetCache(ctx, name)] *)
Definition GetCache (fuel : nat) (caches : Caches) (name : string)
  : Run (Cached * option CacheError) :=
  if (String.length name =? 0)%nat then Ret (CachedString "", None)
  else
    let name := ReplaceAll name " " "_" in
    if (0 <? String.length memcached)%nat then
      match mc caches name with
      | None => Ret (CachedString "", Some NoCacheInMemcached)
      | Some item =>
          if (length (Value item) =? maxCacheSize)%nat then
            totalData ← getChunks fuel (mc caches) name (Value item) 1;
            Ret (CachedBytes totalData, None)
          else Ret (CachedBytes (Value item), None)
      end
    else
      match requestCache caches name with
      | Some item => Ret (CachedBytes (Value item), None)
      | None => Ret (CachedString "", Some NoOnpremCache)
      end.

(** [DeleteCache(ctx, name)]; [mc.Delete] reports a missing key. *)
Definition DeleteCache (caches : Caches) (name : string)
  : Caches * option CacheError :=
  if (0 <? String.length memcached)%nat then
    match mc caches name with
    | Some _ => ({| mc := storeDelete (mc caches) name;
                    requestCache := requestCache caches |}, None)
    | None => (caches, Some MemcachedMiss)
    end
  else
    ({| mc := mc caches; requestCache := storeDelete (requestCache caches) name |},
     None).

End cache.

(** The value [maxCacheSize] starts with. *)
Definition initialMaxCacheSize : N := 1020000.

(** The chunk of [data] with index [i], for chunks of [size] bytes. *)
Definition chunkOf (size : nat) (data : Bytes) (i : nat) : Bytes :=
  take size (drop (i * size) data).

(** The key of the chunk with index [i]. *)
Definition chunkKey (name : string) (i : nat) : string :=
  match i with
  | O => name
  | S _ => chunkName name i
  end.

(** The store holds the first [k] chunks of [data] under their keys. *)
Definition holdsChunks (maxCacheSize : nat) (name : string) (data : Bytes)
    (expiration : Z) (store : Store) (k : nat) : Prop :=
  ∀ i, (i < k)%nat →
       store (chunkKey name i)
       = Some {| Value := chunkOf maxCacheSize data i;
                 Expiration := wrapInt 32 (expiration * 60) |}.

Definition emptyCaches : Caches := {| mc := λ _, None; requestCache := λ _, None |}.

End Cache.

(** Data of the examples: three chunks of four bytes. *)
Definition helloBytes : Cache.Bytes := String.list_ascii_of_string "hello world!".

Definition staleCaches : Cache.Caches :=
  {| Cache.mc := Cache.storeSet (λ _, None) "k_1"
                   {| Cache.Value := String.list_ascii_of_string "old";
                      Cache.Expiration := 60 |};
     Cache.requestCache := λ _, None |}.

(** ** Fenced model output: [FixTranslationStructure] (translate.go) *)

(** Lines 457-475. *)
Definition FixTranslationStructure (gptTranslated : string) : string :=
  let gptTranslated := TrimSpace gptTranslated in
  if HasPrefix gptTranslated "```" then
    let gptTranslated :=
      if Contains gptTranslated "```json"
      then TrimPrefix gptTranslated "```json"
      else TrimPrefix gptTranslated "```" in
    let gptTranslated :=
      if HasSuffix gptTranslated "```"
      then TrimSuffix gptTranslated "```" else gptTranslated in
    TrimSpace gptTranslated
  else gptTranslated.

(** Text made of ASCII white space alone. *)
Fixpoint allSpace (s : string) : bool :=
  match s with
  | EmptyString => true
  | String c r => isGoSpace c && allSpace r
  end.

(** A byte of ASCII that is no white space: [strings.TrimSpace] stops at it
    without looking at runes. *)
Definition isInkByte (c : Ascii.ascii) : bool :=
  (Ascii.N_of_ascii c <? 128)%N && negb (isGoSpace c).

(** Text that is empty, or starts and ends with such a byte. *)
Definition isBare (s : string) : bool :=
  match s, String.rev s with
  | String first _, String last _ => isInkByte first && isInkByte last
  | _, _ => true
  end.

(** ** The folder of the files: [getRootFolder] (translate.go) *)

(** Lines 37-60; [Getenv] is [os.Getenv], the empty string for a variable
    that is not set. *)
Definition getRootFolder (Getenv : string → string) : string :=
  let rootFolder := "files" in
  let filepath := Getenv "FILE_LOCATION" in
  let rootFolder := if (0 <? String.length filepath)%nat then filepath else rootFolder in
  let rootFolder :=
    if (String.length rootFolder =? 0)%nat then
      let filepath := Getenv "SHUFFLE_FILE_LOCATION" in
      if (0 <? String.length filepath)%nat then filepath else rootFolder
    else rootFolder in
  if (0 <? String.length rootFolder)%nat then
    let rootFolder :=
      if negb (HasSuffix rootFolder "/") then rootFolder +:+ "/" else rootFolder in
    rootFolder +:+ "schemaless/"
  else rootFolder.

(** ** The flags of [Translate] (translate.go) *)

(** The loop of lines 1592-1606 over [inputConfig]: [skipSubstandard] and
    [filenamePrefix]. [ToLower] is [strings.ToLower]. *)
Fixpoint readFlags (ToLower : string → string) (inputConfig : list string)
    (filenamePrefix : string) : bool * string :=
  match inputConfig with
  | [] => (false, filenamePrefix)
  | input :: rest =>
      if String.eqb input "skip_substandard" then (true, filenamePrefix)
      else if HasPrefix (ToLower input) "filename_prefix:" then
        let input := TrimPrefix input "filename_prefix:" in
        readFlags ToLower rest
          (if (0 <? String.length input)%nat then input else filenamePrefix)
      else readFlags ToLower rest filenamePrefix
  end.

(** [strings.ToLower] on ASCII text. *)
Definition lowerByte (c : Ascii.ascii) : Ascii.ascii :=
  let n := Ascii.N_of_ascii c in
  if ((65 <=? n) && (n <=? 90))%N then Ascii.ascii_of_N (n + 32) else c.

Fixpoint asciiToLower (s : string) : string :=
  match s with
  | EmptyString => ""
  | String c r => String (lowerByte c) (asciiToLower r)
  end.

(** * Properties *)

Local Arguments String.append !_ _ / : simpl nomatch.

(** ** Association lists *)

Lemma lookupKey_Some_elem {A} k (m : list (string * A)) v :
  lookupKey k m = Some v → (k, v) ∈ m.
Proof.
  induction m as [|[k' v'] r IH]; simpl; [done|].
  case_decide; intros Hv; [injection Hv as ->; subst k'; left | right; auto].
Qed.

Lemma lookupKey_None {A} k (m : list (string * A)) :
  lookupKey k m = None ↔ k ∉ keysOf m.
Proof.
  unfold keysOf. induction m as [|[k' v'] r IH]; simpl.
  - split; [intros _ H; inversion H | done].
  - case_decide; subst.
    + split; [done | intros []; apply list_elem_of_here].
    + rewrite IH, not_elem_of_cons. naive_solver.
Qed.

Lemma lookupKey_is_Some {A} k (m : list (string * A)) :
  is_Some (lookupKey k m) ↔ k ∈ keysOf m.
Proof.
  destruct (lookupKey k m) eqn:E.
  - split; [|eauto]. intros _. apply lookupKey_Some_elem in E.
    unfold keysOf. apply list_elem_of_fmap. by exists (k, a).
  - apply lookupKey_None in E. split; [intros [? ?]; done | done].
Qed.

Lemma lookupKey_map {A B} (f : A → B) k (m : list (string * A)) :
  lookupKey k (List.map (λ kv, (kv.1, f kv.2)) m) = f <$> lookupKey k m.
Proof.
  induction m as [|[k' v'] r IH]; simpl; [done|]. case_decide; done.
Qed.

Lemma keysOf_map {A B} (f : A → B) (m : list (string * A)) :
  keysOf (List.map (λ kv, (kv.1, f kv.2)) m) = keysOf m.
Proof.
  unfold keysOf. induction m as [|[k v] r IH]; [done|].
  cbn. f_equal. exact IH.
Qed.

Lemma json_wf_obj m :
  json_wf (JObj m) ↔ NoDup (keysOf m) ∧ Forall (λ kv, json_wf kv.2) m.
Proof.
  simpl. apply and_iff_compat_l.
  induction m as [|kv r IH]; [by split|].
  rewrite Forall_cons. by rewrite IH.
Qed.

Lemma json_wf_list l : json_wf (JList l) ↔ Forall json_wf l.
Proof.
  simpl. induction l as [|x r IH]; [by split|].
  rewrite Forall_cons. by rewrite IH.
Qed.

(** ** [RemoveJsonValues] by its pieces *)

Lemma RemoveJsonValues_obj m depth :
  RemoveJsonValues (JObj m) depth
  = Some (JObj (skeletonOf (perKeyOf depth m)), keyTokenOf (perKeyOf depth m)).
Proof.
  cbn [RemoveJsonValues].
  match goal with
  | |- Some (JObj (skeletonOf ?t), _) = _ =>
      assert (t = perKeyOf depth m) as ->; [|done]
  end.
  unfold perKeyOf. induction m as [|[k v] r IH]; [done|].
  cbn [List.map fst snd]. f_equal; [|exact IH].
  f_equal. destruct v; try done. cbn [stripEntry]. do 2 f_equal.
  induction l as [|item tl IHl]; [done|].
  cbn [List.map concat]. rewrite <- IHl.
  destruct item; done.
Qed.

Lemma keyTokenAt_obj m depth :
  keyTokenAt depth (JObj m) = keyTokenOf (perKeyOf depth m).
Proof. unfold keyTokenAt. by rewrite RemoveJsonValues_obj. Qed.

Example RemoveJsonValues_example :
  RemoveJsonValues
    (JObj [("title", JStr "hello"); ("id", JNum 7); ("field1", JStr "x");
           ("meta", JObj [("owner", JStr "me"); ("tags", JList [JStr "a"])])]) 1
  = Some (JObj [("title", JStr ""); ("id", JNum 0);
                ("meta", JObj [("owner", JStr ""); ("tags", JList [JStr ""])])],
          "idmeta.ownertagstitle").
Proof. vm_compute. reflexivity. Qed.

(** ** The key token as a walk over the sorted keys that count *)

Lemma foldl_skip {A B} (f : A → B → A) (skip : B → bool) (l : list B) (a : A) :
  foldl (λ acc x, if skip x then acc else f acc x) a l
  = foldl f a (filter (λ x, skip x = false) l).
Proof.
  revert a. induction l as [|x l IH]; intros a; [done|].
  cbn [foldl]. rewrite IH, filter_cons.
  destruct (skip x); by case_decide.
Qed.

Lemma keyTokenOf_counted perKey :
  keyTokenOf perKey
  = foldl (λ keyToken k, keyToken +:+ k +:+ entrySuffix perKey k)
          "" (countedKeys (keysOf perKey)).
Proof.
  unfold keyTokenOf, countedKeys.
  exact (foldl_skip (λ keyToken k, keyToken +:+ k +:+ entrySuffix perKey k)
                    endsInDigit _ _).
Qed.

Lemma foldl_ext_in {A B} (f g : A → B → A) (l : list B) (a : A) :
  (∀ x acc, x ∈ l → f acc x = g acc x) → foldl f a l = foldl g a l.
Proof.
  revert a. induction l as [|x l IH]; intros a Hfg; [done|].
  cbn [foldl]. rewrite Hfg by left. apply IH. intros; apply Hfg. by right.
Qed.

Lemma countedKeys_sorted keys : StronglySorted String.le (countedKeys keys).
Proof.
  unfold countedKeys, SortStrings.
  assert (StronglySorted String.le (merge_sort String.le keys)) as Hs
    by apply (StronglySorted_merge_sort _).
  induction Hs as [|k ks Hs IH Hall]; [constructor|].
  rewrite filter_cons. case_decide; [|done].
  constructor; [done|]. apply Forall_forall. intros x Hx.
  apply list_elem_of_filter in Hx as [_ Hx].
  by eapply Forall_forall in Hall.
Qed.

Lemma elem_of_countedKeys keys k :
  k ∈ countedKeys keys ↔ endsInDigit k = false ∧ k ∈ keys.
Proof.
  unfold countedKeys, SortStrings.
  by rewrite list_elem_of_filter, merge_sort_Permutation.
Qed.

Lemma countedKeys_NoDup keys : NoDup keys → NoDup (countedKeys keys).
Proof.
  intros Hnd. apply NoDup_filter. unfold SortStrings.
  by rewrite merge_sort_Permutation.
Qed.

(** Two maps with the same counted keys are walked in the same order. *)
Lemma countedKeys_unique keys1 keys2 :
  NoDup keys1 → NoDup keys2 →
  (∀ k, endsInDigit k = false → k ∈ keys1 ↔ k ∈ keys2) →
  countedKeys keys1 = countedKeys keys2.
Proof.
  intros Hnd1 Hnd2 Hsame.
  apply (StronglySorted_unique String.le); try apply countedKeys_sorted.
  apply NoDup_Permutation; try by apply countedKeys_NoDup.
  intros k. rewrite !elem_of_countedKeys. naive_solver.
Qed.

(** ** Documents of one shape have one key token *)

Lemma sameShape_keys m1 m2 k :
  sameShape (JObj m1) (JObj m2) → endsInDigit k = false →
  k ∈ keysOf m1 ↔ k ∈ keysOf m2.
Proof.
  intros Hs Hk. inversion Hs as [?? Ha | |?? Hlk]; subst; [destruct Ha|].
  specialize (Hlk k Hk). rewrite <- !lookupKey_is_Some.
  destruct Hlk; split; intros [? ?]; by eauto.
Qed.

Lemma stripEntry_suffix depth v :
  (stripEntry depth v).2
  = if (depth <? 3) && (0 <? String.length (keyTokenAt (depth + 1) v))%nat
    then "." +:+ keyTokenAt (depth + 1) v else "".
Proof.
  unfold keyTokenAt. destruct v.
  6: { cbn [stripEntry]. by rewrite RemoveJsonValues_obj. }
  all: cbn; by rewrite andb_false_r.
Qed.

Lemma entrySuffix_perKeyOf depth m k :
  entrySuffix (perKeyOf depth m) k
  = match lookupKey k m with
    | Some v => (stripEntry depth v).2
    | None => ""
    end.
Proof.
  unfold entrySuffix, perKeyOf. rewrite lookupKey_map.
  destruct (lookupKey k m) as [v|]; [|done]. cbn. by destruct (stripEntry depth v).
Qed.

Lemma keyTokenAt_sameShape a :
  ∀ b depth, json_wf a → json_wf b → sameShape a b →
             keyTokenAt depth a = keyTokenAt depth b.
Proof.
  induction a as [|?|?|?|l _|m1 IH] using Json_ind';
    intros x depth Hwa Hwb Hs.
  1-4: inversion Hs as [?? _ Hb | |]; subst; by destruct x.
  - inversion Hs as [?? Ha | |]; subst; [destruct Ha | done].
  - inversion Hs as [?? Ha | | ?m m2 Hlk]; subst; [destruct Ha|].
    rewrite !keyTokenAt_obj, !keyTokenOf_counted. unfold perKeyOf at 2 4.
    rewrite !keysOf_map.
    apply json_wf_obj in Hwa as [Hnd1 Hw1]. apply json_wf_obj in Hwb as [Hnd2 Hw2].
    rewrite (countedKeys_unique (keysOf m1) (keysOf m2)); [|done..|].
    2: { intros k Hk. by apply sameShape_keys. }
    apply foldl_ext_in. intros k acc Hin.
    apply elem_of_countedKeys in Hin as [Hk _].
    do 2 f_equal. rewrite !entrySuffix_perKeyOf.
    specialize (Hlk k Hk).
    destruct (lookupKey k m1) as [v1|] eqn:E1, (lookupKey k m2) as [v2|] eqn:E2;
      inversion Hlk as [?? Hv|]; subst; [|done].
    apply lookupKey_Some_elem in E1, E2.
    rewrite Forall_forall in IH, Hw1, Hw2.
    rewrite !stripEntry_suffix.
    specialize (IH _ E1 v2 (depth + 1) (Hw1 _ E1) (Hw2 _ E2) Hv).
    cbn in IH. by rewrite IH.
Qed.

(** C2. Two source documents that differ only in the values of their scalar
    leaves and in the presence of keys ending in a digit get the same key
    token from [RemoveJsonValues], at every depth, and therefore the same
    template file name and the same cache key in [Translate]. *)
Theorem fingerprint_stability `{GoLib} (filenamePrefix inputStandard : string)
    (m1 m2 : GoMap) :
  json_wf (JObj m1) → json_wf (JObj m2) → sameShape (JObj m1) (JObj m2) →
  (∀ depth, keyTokenAt depth (JObj m1) = keyTokenAt depth (JObj m2)) ∧
  ∃ f1 f2,
    fingerprint filenamePrefix inputStandard (JObj m1) = Some f1 ∧
    fingerprint filenamePrefix inputStandard (JObj m2) = Some f2 ∧
    fp_keyToken f1 = fp_keyToken f2 ∧
    fp_keyTokenFile f1 = fp_keyTokenFile f2 ∧
    fp_cacheKey f1 = fp_cacheKey f2.
Proof.
  intros Hw1 Hw2 Hs.
  assert (∀ depth, keyTokenAt depth (JObj m1) = keyTokenAt depth (JObj m2)) as Htok
    by (intros; by apply keyTokenAt_sameShape).
  split; [done|].
  specialize (Htok 1). rewrite !keyTokenAt_obj in Htok.
  unfold fingerprint. rewrite !RemoveJsonValues_obj.
  eexists _, _. split; [done|]. split; [done|]. cbn. by rewrite Htok.
Qed.

Ltac solve_json_wf :=
  cbn; repeat split; try (apply (bool_decide_unpack _); vm_compute; exact I).

Lemma fingerprint_stability_witness :
  fp_keyTokenFile <$> fingerprint (H := refLib) "" "ticket.json" (JObj shapeDocA)
  = Some "ticket-md5:meta.ownerseentagstitle" ∧
  ∃ f1 f2,
    fingerprint (H := refLib) "" "ticket.json" (JObj shapeDocA) = Some f1 ∧
    fingerprint (H := refLib) "" "ticket.json" (JObj shapeDocB) = Some f2 ∧
    fp_keyToken f1 = fp_keyToken f2 ∧
    fp_keyTokenFile f1 = fp_keyTokenFile f2 ∧
    fp_cacheKey f1 = fp_cacheKey f2.
Proof.
  split; [vm_compute; reflexivity|].
  apply (fingerprint_stability (H := refLib) "" "ticket.json" shapeDocA shapeDocB).
  - solve_json_wf.
  - solve_json_wf.
  - apply sameShape_obj. intros k Hk. cbn.
    repeat (case_decide; subst; try (vm_compute in Hk; discriminate Hk));
      try constructor; try (constructor; done).
    + apply sameShape_obj. intros k Hk'. cbn.
      repeat (case_decide; subst; try (vm_compute in Hk'; discriminate Hk'));
        try constructor; try (constructor; done); congruence.
    + apply sameShape_list. repeat constructor.
Defined.

(** ** What the key token does not see *)

Lemma hidden_entries_keys (R : Json → Json → Prop) (m1 m2 : GoMap) :
  Forall2 (λ e1 e2, e1.1 = e2.1 ∧ R e1.2 e2.2) m1 m2 → keysOf m1 = keysOf m2.
Proof.
  unfold keysOf. induction 1 as [|[??] [??] ?? [??]]; cbn in *; congruence.
Qed.

Lemma hidden_entries_lookup (R : Json → Json → Prop) (m1 m2 : GoMap) k :
  Forall2 (λ e1 e2, e1.1 = e2.1 ∧ R e1.2 e2.2) m1 m2 →
  match lookupKey k m1, lookupKey k m2 with
  | Some v1, Some v2 => (k, v1) ∈ m1 ∧ R v1 v2
  | None, None => True
  | _, _ => False
  end.
Proof.
  induction 1 as [|[k1 v1] [k2 v2] r1 r2 [Hk HR] _ IH]; [done|].
  cbn in Hk, HR. subst k2. cbn [lookupKey].
  case_decide; [subst; split; [left | done]|].
  destruct (lookupKey k r1), (lookupKey k r2); try done.
  destruct IH. split; [by right | done].
Qed.

Lemma keyTokenOf_hidden depth (m1 m2 : GoMap) :
  Forall (λ kv, ∀ v2 d, hiddenFrom d kv.2 v2 →
                        (stripEntry d kv.2).2 = (stripEntry d v2).2) m1 →
  Forall2 (λ e1 e2, e1.1 = e2.1 ∧ hiddenFrom depth e1.2 e2.2) m1 m2 →
  keyTokenOf (perKeyOf depth m1) = keyTokenOf (perKeyOf depth m2).
Proof.
  intros IH Hall. rewrite !keyTokenOf_counted. unfold perKeyOf at 2 4.
  rewrite !keysOf_map, (hidden_entries_keys _ _ _ Hall).
  apply foldl_ext_in. intros k acc _. do 2 f_equal.
  rewrite !entrySuffix_perKeyOf.
  pose proof (hidden_entries_lookup _ _ _ k Hall) as Hk.
  destruct (lookupKey k m1) as [v1|], (lookupKey k m2) as [v2|]; try done.
  destruct Hk as [Hin Hh]. rewrite Forall_forall in IH.
  exact (IH _ Hin v2 depth Hh).
Qed.

Lemma stripEntry_hidden v1 :
  ∀ v2 depth, hiddenFrom depth v1 v2 →
              (stripEntry depth v1).2 = (stripEntry depth v2).2.
Proof.
  assert (∀ depth a b, 3 ≤ depth →
            (stripEntry depth a).2 = (stripEntry depth b).2) as Hdeep.
  { intros depth a b Hd. rewrite !stripEntry_suffix.
    by replace (depth <? 3) with false by lia. }
  induction v1 as [|?|?|?|l _|m1 IH] using Json_ind';
    intros v2 depth Hh; inversion Hh; subst; try done; try by apply Hdeep.
  rewrite !stripEntry_suffix, !keyTokenAt_obj.
  by rewrite (keyTokenOf_hidden (depth + 1) m1 m2).
Qed.

(** C10. The key token is made of object key names only. Two documents whose
    top-level entries carry the same keys and differ only inside list values
    (whatever the lists hold, keys of objects in them included) or below the
    third level of nested objects get the same key token from
    [RemoveJsonValues], hence the same template file name and cache key in
    [Translate]. *)
Theorem keyToken_ignores_lists_and_depth `{GoLib}
    (filenamePrefix inputStandard : string) (m1 m2 : GoMap) :
  Forall2 (λ e1 e2, e1.1 = e2.1 ∧ hiddenFrom 1 e1.2 e2.2) m1 m2 →
  ∃ f1 f2,
    fingerprint filenamePrefix inputStandard (JObj m1) = Some f1 ∧
    fingerprint filenamePrefix inputStandard (JObj m2) = Some f2 ∧
    fp_keyToken f1 = fp_keyToken f2 ∧
    fp_keyTokenFile f1 = fp_keyTokenFile f2 ∧
    fp_cacheKey f1 = fp_cacheKey f2.
Proof.
  intros Hall.
  assert (keyTokenOf (perKeyOf 1 m1) = keyTokenOf (perKeyOf 1 m2)) as Htok.
  { apply keyTokenOf_hidden; [|done].
    apply Forall_forall. intros kv _ v2 d. apply stripEntry_hidden. }
  unfold fingerprint. rewrite !RemoveJsonValues_obj.
  eexists _, _. split; [done|]. split; [done|]. cbn. by rewrite Htok.
Qed.

Lemma keyToken_ignores_lists_and_depth_witness :
  fp_keyToken <$> fingerprint (H := refLib) "" "std" (JObj hiddenDocA)
  = Some "a.b.citems" ∧
  ∃ f1 f2,
    fingerprint (H := refLib) "" "std" (JObj hiddenDocA) = Some f1 ∧
    fingerprint (H := refLib) "" "std" (JObj hiddenDocB) = Some f2 ∧
    fp_keyToken f1 = fp_keyToken f2 ∧
    fp_keyTokenFile f1 = fp_keyTokenFile f2 ∧
    fp_cacheKey f1 = fp_cacheKey f2.
Proof.
  split; [vm_compute; reflexivity|].
  apply (keyToken_ignores_lists_and_depth (H := refLib) "" "std").
  constructor; [split; [done | apply hidden_list]|].
  constructor; [|constructor]. split; [done|]. cbn.
  apply hidden_obj. constructor; [|constructor]. split; [done|]. cbn.
  apply hidden_obj. constructor; [|constructor]. split; [done|]. cbn.
  apply hidden_deep. lia.
Defined.

(** ** Sub-standard expansion stops after 52 items *)

Lemma indexedFrom_cons cnt item rest :
  indexedFrom cnt (item :: rest) = (cnt, item) :: indexedFrom (S cnt) rest.
Proof.
  unfold indexedFrom. cbn [imap]. f_equal; [f_equal; lia|].
  apply imap_ext. intros i x _. cbn. f_equal. lia.
Qed.

Lemma startedFrom_take cnt listJson :
  (1 ≤ cnt ≤ 51)%nat →
  startedFrom cnt listJson = take (52 - cnt) (indexedFrom cnt listJson).
Proof.
  revert cnt. induction listJson as [|item rest IH]; intros cnt Hcnt.
  - cbn. by rewrite take_nil.
  - rewrite indexedFrom_cons. cbn [startedFrom].
    destruct (Nat.eqb_spec cnt 0) as [->|_]; [lia|].
    replace (52 - cnt)%nat with (S (51 - cnt)) by lia. cbn [take]. f_equal.
    unfold skipAfterCount. destruct (Nat.ltb_spec 50 cnt).
    + replace (51 - cnt)%nat with 0%nat by lia. by rewrite take_0.
    + rewrite IH by lia. f_equal; lia.
Qed.

Lemma translateCalls_take listJson :
  translateCalls listJson = take 52 (indexedFrom 0 listJson).
Proof.
  destruct listJson as [|first rest]; [done|].
  unfold translateCalls. rewrite indexedFrom_cons. cbn [startedFrom Nat.eqb take].
  f_equal. destruct rest as [|second rest]; [done|].
  by rewrite (startedFrom_take 1) by lia.
Qed.

Lemma indexedFrom_take n cnt listJson :
  take n (indexedFrom cnt listJson) = indexedFrom cnt (take n listJson).
Proof.
  revert n cnt. induction listJson as [|item rest IH]; intros n cnt.
  - cbn. by rewrite !take_nil.
  - destruct n; [done|]. cbn [take]. rewrite !indexedFrom_cons. cbn [take].
    by rewrite IH.
Qed.

Lemma startedFrom_0_take listJson :
  startedFrom 0 listJson = startedFrom 0 (take 52 listJson).
Proof.
  destruct listJson as [|first rest]; [done|].
  cbn [take startedFrom Nat.eqb].
  destruct rest as [|second rest]; [done|].
  rewrite !(startedFrom_take 1) by lia.
  rewrite !indexedFrom_take. by rewrite take_take.
Qed.

(** C9. [handleSubStandard] hands the items at the indices 0 to 51 to
    [Translate] and no other: the calls are those of the first 52 items, in
    order, and the text returned is the one returned for the list cut after
    its 52nd item, whatever the later items are. *)
Theorem handleSubStandard_first_52
    (TranslateItem : nat → Json → option string)
    (appendOrder : list (nat * string) → list (nat * string))
    (listJson : list Json) :
  translateCalls listJson = take 52 (imap (λ i item, (i, item)) listJson) ∧
  (∀ i item, (i, item) ∈ translateCalls listJson →
             (i ≤ 51)%nat ∧ listJson !! i = Some item) ∧
  handleSubStandard TranslateItem appendOrder (JList listJson)
  = handleSubStandard TranslateItem appendOrder (JList (take 52 listJson)).
Proof.
  split; [exact (translateCalls_take listJson)|]. split.
  - intros i item Hin. rewrite translateCalls_take in Hin.
    apply list_elem_of_lookup in Hin as [j Hj].
    apply lookup_take_Some in Hj as [Hj Hlt].
    unfold indexedFrom in Hj. rewrite list_lookup_imap in Hj.
    destruct (listJson !! j) as [x|] eqn:E; [|done].
    cbn in Hj. injection Hj as <- <-. split; [lia | done].
  - unfold handleSubStandard. cbn [listToExpand].
    destruct listJson as [|first rest]; [done|].
    cbn [take].
    by rewrite (startedFrom_0_take (first :: rest)).
Qed.

Example handleSubStandard_sixty :
  length (translateCalls (replicate 60 JNull)) = 52%nat.
Proof. vm_compute. reflexivity. Qed.

(** ** The single-flight wrapper *)

Lemma run_extends {R} (w : World) (p : Prog R) :
  ∀ past, ∃ rest, (run w past p).1 = past ++ rest.
Proof.
  induction p as [r|name k IH|name data e k IH|ms k IH|n k IH|a b k IH|s u k IH];
    intros past; cbn [run].
  - exists []. by rewrite app_nil_r.
  - destruct (IH (cacheHolds w past name) (past ++ [DidGetCache name (cacheHolds w past name)]))
      as [rest ->]. rewrite <- app_assoc. by eexists.
  - destruct (IH (cacheAccepts w past name) (past ++ [DidSetCache name data e]))
      as [rest ->]. rewrite <- app_assoc. by eexists.
  - destruct (IH (past ++ [DidSleep ms])) as [rest ->].
    rewrite <- app_assoc. by eexists.
  - destruct (IH (randomNumber w past n) (past ++ [DidRandIntn n (randomNumber w past n)]))
      as [rest ->]. rewrite <- app_assoc. by eexists.
  - destruct (IH (past ++ [DidSaveQuery a b])) as [rest ->].
    rewrite <- app_assoc. by eexists.
  - destruct (IH (completion w past) (past ++ [DidCreateChatCompletion (completion w past)]))
      as [rest ->]. rewrite <- app_assoc. by eexists.
Qed.

Lemma run_SetCache {R} (w : World) past name data expiration (k : bool → Prog R) :
  run w past (SetCache name data expiration k)
  = run w (past ++ [DidSetCache name data expiration]) (k (cacheAccepts w past name)).
Proof. reflexivity. Qed.

Lemma run_pollCache_miss {R} (w : World) (cacheKey : string) (sleepTime : Z)
    (hit : string → Prog R) (after : Prog R) (remaining : nat) :
  (∀ past, cacheHolds w past cacheKey = None) →
  ∀ past,
    run w past (pollCache remaining sleepTime cacheKey hit after)
    = run w (past
             ++ concat (replicate remaining
                          [DidGetCache cacheKey None; DidSleep (sleepTime * 1000)])
             ++ [DidGetCache cacheKey None]) after.
Proof.
  intros Hnever. induction remaining as [|n IH]; intros past.
  - cbn [pollCache run replicate concat app]. by rewrite Hnever.
  - cbn [pollCache run replicate concat]. rewrite Hnever.
    cbn [run]. rewrite IH. f_equal. by rewrite <- !app_assoc.
Qed.

Lemma run_generate_miss {R} (w : World) (cacheKey a b s u : string)
    (hit : string → Prog R) (got : string → Prog R) (gaveUp : Prog R) (n : nat) :
  (∀ past, cacheHolds w past cacheKey = None) →
  ∀ past, ∃ answer rest,
    (run w past
       (GetCache cacheKey
          (λ cache, match cache with
                    | Some contentOutput => hit contentOutput
                    | None => SaveQuery a b (complete (S n) s u got gaveUp)
                    end))).1
    = past ++ [DidGetCache cacheKey None; DidSaveQuery a b;
               DidCreateChatCompletion answer] ++ rest.
Proof.
  intros Hnever past. cbn [run]. rewrite Hnever. cbn [run complete].
  match goal with
  | |- context [run w ?past' ?p] => destruct (run_extends w p past') as [rest ->]
  end.
  eexists _, rest. by rewrite <- !app_assoc.
Qed.

(** C6. A caller of [GptTranslate] that finds the lock key
    [<token>-started] reads the result key seven times, five seconds apart,
    and when the result never shows up it reads it once more and then
    generates itself: it saves the query and calls the generator; no error is
    returned on the way. A caller that finds no lock writes it (value
    "started", one minute) and goes on to the same generation, which starts
    with a read of the result key. *)
Theorem single_flight `{GoLib} (systemMessage : string) (w : World)
    (keyTokenFile standardFormat inputDataFormat : string)
    (shuffleConfig : ShuffleConfig) :
  (String.length inputDataFormat ≤ maxInputSize)%nat →
  let cacheKey :=
    cacheKeyOf systemMessage standardFormat inputDataFormat shuffleConfig in
  let cacheKeyStarted :=
    cacheKeyStartedOf systemMessage standardFormat inputDataFormat shuffleConfig in
  let userQuery := userQueryOf standardFormat inputDataFormat in
  let r := randomNumber w [] 500 in
  let woke := [DidRandIntn 500 r; DidSleep r] in
  let trace :=
    (run w [] (GptTranslate systemMessage true keyTokenFile standardFormat
                            inputDataFormat shuffleConfig)).1 in
  (∀ lock, cacheHolds w woke cacheKeyStarted = Some lock →
           (∀ past, cacheHolds w past cacheKey = None) →
     ∃ answer rest,
       trace = woke ++ [DidGetCache cacheKeyStarted (Some lock)]
               ++ pollsInVain cacheKey
               ++ [DidGetCache cacheKey None;
                   DidSaveQuery keyTokenFile userQuery;
                   DidCreateChatCompletion answer] ++ rest) ∧
  (cacheHolds w woke cacheKeyStarted = None →
     ∃ rest,
       trace = woke ++ [DidGetCache cacheKeyStarted None;
                        DidSetCache cacheKeyStarted "started" 1] ++ rest ∧
       ((∀ past, cacheHolds w past cacheKey = None) →
        ∃ answer rest',
          rest = [DidGetCache cacheKey None;
                  DidSaveQuery keyTokenFile userQuery;
                  DidCreateChatCompletion answer] ++ rest')).
Proof.
  intros Hlen cacheKey cacheKeyStarted userQuery r woke trace.
  subst trace. unfold GptTranslate. cbn [negb].
  destruct (Nat.ltb_spec maxInputSize (String.length inputDataFormat)) as [?|_]; [lia|].
  fold userQuery.
  change ("translationquery-" +:+ md5hex (OrgId shuffleConfig +:+ systemMessage +:+ userQuery))
    with cacheKey.
  change ("translationquery-" +:+ md5hex (OrgId shuffleConfig +:+ systemMessage +:+ userQuery)
          +:+ "-started") with cacheKeyStarted.
  cbn [run app]. fold r. fold woke. split.
  - intros lock Hlock Hnever. rewrite Hlock.
    rewrite run_pollCache_miss by done.
    match goal with
    | |- context [run w ?past ?p] =>
        destruct (run_generate_miss w cacheKey keyTokenFile userQuery
                    systemMessage userQuery
                    (λ contentOutput, Return (contentOutput, None))
                    (λ contentOutput,
                       SetCache cacheKey contentOutput 30
                         (λ ok : bool, Return (contentOutput,
                                        if ok then None else Some SetCacheFailed)))
                    (Return (standardFormat, Some NoCompletionAfterFiveTries))
                    4 Hnever past) as (answer & rest & Hrun)
    end.
    exists answer, rest. rewrite Hrun. unfold pollsInVain.
    by rewrite <- !app_assoc.
  - intros Hfree. rewrite Hfree. rewrite run_SetCache.
    match goal with
    | |- context [run w ?past ?p] =>
        destruct (run_extends w p past) as [rest Hrest]
    end.
    exists rest. split; [rewrite Hrest; by rewrite <- !app_assoc|].
    intros Hnever.
    match type of Hrest with
    | context [run w ?past ?p] =>
        destruct (run_generate_miss w cacheKey keyTokenFile userQuery
                    systemMessage userQuery
                    (λ contentOutput, Return (contentOutput, None))
                    (λ contentOutput,
                       SetCache cacheKey contentOutput 30
                         (λ ok : bool, Return (contentOutput,
                                        if ok then None else Some SetCacheFailed)))
                    (Return (standardFormat, Some NoCompletionAfterFiveTries))
                    4 Hnever past) as (answer & rest' & Hrun)
    end.
    exists answer, rest'. rewrite Hrun in Hrest. by simplify_list_eq.
Qed.

Lemma single_flight_witness :
  (∃ answer rest,
     (run lockHeldWorld []
          (GptTranslate (H := refLib) "prompt" true "ticket-1" "{}" "{}" someConfig)).1
     = [DidRandIntn 500 42; DidSleep 42;
        DidGetCache (cacheKeyStartedOf (H := refLib) "prompt" "{}" "{}" someConfig)
                    (Some "started")]
       ++ pollsInVain (cacheKeyOf (H := refLib) "prompt" "{}" "{}" someConfig)
       ++ [DidGetCache (cacheKeyOf (H := refLib) "prompt" "{}" "{}" someConfig) None;
           DidSaveQuery "ticket-1" (userQueryOf "{}" "{}");
           DidCreateChatCompletion answer] ++ rest) ∧
  (∃ rest,
     (run idleWorld []
          (GptTranslate (H := refLib) "prompt" true "ticket-1" "{}" "{}" someConfig)).1
     = [DidRandIntn 500 7; DidSleep 7]
       ++ [DidGetCache (cacheKeyStartedOf (H := refLib) "prompt" "{}" "{}" someConfig) None;
           DidSetCache (cacheKeyStartedOf (H := refLib) "prompt" "{}" "{}" someConfig)
                       "started" 1] ++ rest).
Proof.
  split.
  - destruct (single_flight (H := refLib) "prompt" lockHeldWorld "ticket-1" "{}" "{}"
                someConfig) as [Hheld _]; [vm_compute; lia|].
    apply (Hheld "started"); [vm_compute; reflexivity|].
    intros past. vm_compute. reflexivity.
  - destruct (single_flight (H := refLib) "prompt" idleWorld "ticket-1" "{}" "{}"
                someConfig) as [_ Hidle]; [vm_compute; lia|].
    destruct Hidle as (rest & Hrest & _); [reflexivity|].
    exists rest. exact Hrest.
Defined.

(** ** Byte strings: splitting at a byte *)

Lemma rev_app_append (a b c : string) :
  String.rev_app a b +:+ c = String.rev_app a (b +:+ c).
Proof. revert b. induction a as [|x a IH]; intros b; cbn; [done|]. by rewrite IH. Qed.

Lemma rev_app_rev_app (a b c : string) :
  String.rev_app (String.rev_app a b) c = String.rev_app b (a +:+ c).
Proof.
  revert b c. induction a as [|x a IH]; intros b c; cbn; [done|].
  by rewrite IH.
Qed.

Lemma append_empty_r (s : string) : s +:+ "" = s.
Proof. induction s as [|x s IH]; simpl; [done|]. by rewrite IH. Qed.

Lemma append_assoc (a b c : string) : (a +:+ b) +:+ c = a +:+ b +:+ c.
Proof. induction a as [|x a IH]; simpl; [done|]. by rewrite IH. Qed.

Lemma rev_rev_app (a acc : string) :
  String.rev (String.rev_app a acc) = String.rev acc +:+ a.
Proof.
  unfold String.rev. rewrite rev_app_rev_app, rev_app_append.
  by rewrite append_empty_r.
Qed.

Lemma rev_involutive (s : string) : String.rev (String.rev s) = s.
Proof. unfold String.rev at 2. by rewrite rev_rev_app. Qed.

Lemma prefix_byte (c x : Ascii.ascii) (r : string) :
  String.prefix (String c "") (String x r) = bool_decide (c = x).
Proof.
  simpl. destruct (Ascii.ascii_dec c x); case_bool_decide; try done.
  by destruct r.
Qed.

Lemma Contains_byte_cons (c x : Ascii.ascii) (r : string) :
  Contains (String x r) (String c "")
  = bool_decide (c = x) || Contains r (String c "").
Proof. cbn [Contains]. by rewrite prefix_byte. Qed.

Lemma Contains_byte_append (c : Ascii.ascii) (a b : string) :
  Contains (a +:+ b) (String c "")
  = Contains a (String c "") || Contains b (String c "").
Proof.
  induction a as [|x a IH].
  - cbn. by destruct (Contains b _).
  - simpl String.append. rewrite !Contains_byte_cons, IH. by rewrite orb_assoc.
Qed.

Lemma SplitFrom_byte_piece (c : Ascii.ascii) (a rest acc : string) :
  Contains a (String c "") = false →
  SplitFrom (String c "") 0 acc (a +:+ rest)
  = SplitFrom (String c "") 0 (String.rev_app a acc) rest.
Proof.
  revert acc. induction a as [|x a IH]; intros acc Hno; [done|].
  rewrite Contains_byte_cons in Hno. apply orb_false_iff in Hno as [Hx Ha].
  simpl String.append. cbn [SplitFrom]. rewrite prefix_byte, Hx. by apply IH.
Qed.

Lemma Split_byte_single (c : Ascii.ascii) (a : string) :
  Contains a (String c "") = false → Split a (String c "") = [a].
Proof.
  intros Hno. unfold Split.
  rewrite <- (append_empty_r a) at 1.
  rewrite SplitFrom_byte_piece by done. cbn. by rewrite rev_rev_app.
Qed.

Lemma Split_byte_cons (c : Ascii.ascii) (a b : string) :
  Contains a (String c "") = false →
  Split (a +:+ String c b) (String c "") = a :: Split b (String c "").
Proof.
  intros Hno. unfold Split. rewrite SplitFrom_byte_piece by done.
  destruct b as [|y b]; cbn [SplitFrom]; rewrite ?prefix_byte,
    ?bool_decide_eq_true_2 by done; cbn; by rewrite rev_rev_app.
Qed.

Lemma Join_cons (k k' : string) (rest : list string) (sep : string) :
  Join (k :: k' :: rest) sep = k +:+ sep +:+ Join (k' :: rest) sep.
Proof. reflexivity. Qed.

(** Joining keys that hold no dot and splitting again gives the keys. *)
Lemma Split_Join_dots (keys : list string) :
  keys ≠ [] → Forall (λ k, Contains k "." = false) keys →
  Split (Join keys ".") "." = keys.
Proof.
  intros Hne Hall. induction Hall as [|k rest Hk Hrest IH]; [done|].
  destruct rest as [|k' rest].
  - cbn. by apply Split_byte_single.
  - rewrite Join_cons.
    etrans; [exact (Split_byte_cons dotByte k (Join (k' :: rest) ".") Hk)|].
    f_equal. by apply IH.
Qed.

(** ** [recurseFindKey] and [runJsonTranslation] by their pieces *)

Lemma recurseFindKey_obj `{GoLib} (entries : GoMap) (key : string) :
  recurseFindKey (JObj entries) key
  = findInEntries (Split key ".")
      (if (1 <? length (Split key "."))%nat then hd "" (Split key ".") else key)
      entries.
Proof.
  cbn [recurseFindKey].
  generalize (if (1 <? length (Split key "."))%nat then hd "" (Split key ".") else key).
  generalize (Split key "."). intros keys k0.
  induction entries as [|[k v] rest IH]; [done|].
  cbn [findInEntries]. rewrite <- IH. clear IH.
  destruct (negb (String.eqb k k0)); [done|].
  destruct (length keys <=? 1)%nat; [done|].
  destruct v; try done.
  destruct (HasPrefix (Join (tail keys) ".") "#"); [|done].
  unfold findInItems.
  match goal with
  | |- context [Marshal (JList ?a)] =>
      assert (a = concat (List.map
                (λ item, match item with
                         | JObj _ =>
                             match recurseFindKey item (itemKey (Join (tail keys) ".")) with
                             | Found foundValue => [JStr foundValue]
                             | KeyNotFound _ => []
                             end
                         | _ => [item]
                         end) l)) as ->; [|done]
  end.
  induction l as [|item tl IHl]; [done|].
  cbn [List.map concat]. rewrite <- IHl.
  destruct item; try done.
  by destruct (recurseFindKey _ _).
Qed.

Lemma bindRun_ext {A B} (f g : A → Run B) (r : Run A) :
  (∀ a, f a = g a) → r ≫= f = r ≫= g.
Proof. intros Hfg. destruct r; cbn; auto. Qed.

Lemma runJsonTranslation_obj `{GoLib} fuel inputValue entries keepOriginal :
  runJsonTranslation fuel inputValue (JObj entries) keepOriginal
  = st ← translateEntries fuel inputValue entries
           (startTranslating inputValue keepOriginal);
    Ret (marshalled st).
Proof.
  cbn [runJsonTranslation]. unfold startTranslating.
  generalize ({| parsedInput := inputValue;
                 translatedInput := if keepOriginal then [("unmapped", JNull)] else [];
                 unmappedIsInput := keepOriginal |}).
  intros st. f_equal. revert st.
  induction entries as [|[k v] later IH]; intros st; [done|].
  cbn [translateEntries].
  etrans; [apply bindRun_ext; intros st'; apply IH|]. clear IH.
  f_equal. unfold translateEntry.
  destruct (foundInInput (parsedInput st) v) as [|hit hits]; [|done].
  cbn [foldl]. destruct v; try done.
  f_equal.
  match goal with
  | |- ?each l [] (JList l) = _ =>
      assert (∀ val out tv,
                each val out tv
                = translateListItems fuel inputValue (parsedInput st) val out tv)
        as Hloop; [|by apply Hloop]
  end.
  induction val as [|item tl IHl]; intros out tv; [done|].
  cbn [translateListItems]. destruct item; try done.
  apply bindRun_ext. intros [outputParsed ?].
  by destruct (Contains _ _).
Qed.

(** ** Paths through nested objects resolve *)

Lemma findInEntries_leaf `{GoLib} (k : string) (entries : GoMap) :
  findInEntries [k] k entries
  = match lookupKey k entries with
    | Some v => Found (stringifyLeaf v)
    | None => KeyNotFound k
    end.
Proof.
  induction entries as [|[k' v] rest IH]; [done|].
  cbn [findInEntries lookupKey]. case_decide as Hk.
  - subst. by rewrite String.eqb_refl.
  - apply String.eqb_neq in Hk. by rewrite Hk.
Qed.

Lemma findInEntries_step `{GoLib} (k k2 : string) (more : list string)
    (entries m : GoMap) (found : string) :
  lookupKey k entries = Some (JObj m) →
  recurseFindKey (JObj m) (Join (k2 :: more) ".") = Found found →
  findInEntries (k :: k2 :: more) k entries = Found found.
Proof.
  intros Hlk Hrec. induction entries as [|[k' v] rest IH]; [done|].
  cbn [findInEntries lookupKey] in *. case_decide as Hk.
  - subst. injection Hlk as ->. rewrite String.eqb_refl. cbn [negb length tail].
    cbn [Nat.leb]. by rewrite Hrec.
  - apply String.eqb_neq in Hk. rewrite Hk. cbn [negb]. by apply IH.
Qed.

Lemma recurseFindKey_path `{GoLib} (keys : list string) :
  ∀ (m : GoMap) (leaf : Json),
    keys ≠ [] → Forall (λ k, Contains k "." = false) keys →
    lookupPath (JObj m) keys = Some leaf →
    recurseFindKey (JObj m) (Join keys ".") = Found (stringifyLeaf leaf).
Proof.
  induction keys as [|k [|k2 more] IH]; intros m leaf Hne Hdots Hpath; [done| |].
  - rewrite recurseFindKey_obj, Split_Join_dots by done.
    cbn [length Nat.ltb Nat.leb Join String.concat].
    rewrite findInEntries_leaf. cbn [lookupPath] in Hpath.
    destruct (lookupKey k m); by simplify_eq.
  - rewrite recurseFindKey_obj, Split_Join_dots by done.
    cbn [length Nat.ltb Nat.leb hd].
    cbn [lookupPath] in Hpath.
    destruct (lookupKey k m) as [[| | | | |m']|] eqn:Hlk; try done.
    apply (findInEntries_step k k2 more m m'); [done|].
    apply IH; [done| by inversion Hdots |done].
Qed.

Lemma foundInInput_None (parsedInput : GoMap) (p : string) :
  lookupKey p parsedInput = None → foundInInput parsedInput (JStr p) = [].
Proof.
  unfold foundInInput. induction parsedInput as [|[k v] rest IH]; [done|].
  cbn [lookupKey omap list_omap fst snd]. case_decide as Hk; [done|].
  intros Hlk. apply String.eqb_neq in Hk. rewrite Hk. by apply IH.
Qed.

Lemma foundInInput_Some (parsedInput : GoMap) (p : string) (v : Json) :
  NoDup (keysOf parsedInput) → lookupKey p parsedInput = Some v →
  foundInInput parsedInput (JStr p) = [v].
Proof.
  unfold foundInInput, keysOf.
  induction parsedInput as [|[k x] rest IH]; [done|].
  cbn [lookupKey omap list_omap fst snd fmap list_fmap].
  intros [Hk Hnd]%NoDup_cons. case_decide as Hkp.
  - subst. intros [= ->]. rewrite String.eqb_refl. f_equal.
    apply foundInInput_None. by apply lookupKey_None.
  - apply String.eqb_neq in Hkp. rewrite Hkp. by apply IH.
Qed.

(** ** Forward application, one template entry at a time *)

Lemma lookupKey_setKey_eq {A} k (v : A) (m : list (string * A)) :
  lookupKey k (setKey k v m) = Some v.
Proof.
  induction m as [|[k' v'] r IH]; cbn; [by case_decide|].
  case_decide; cbn; by case_decide.
Qed.

Lemma lookupKey_setKey_ne {A} k k' (v : A) (m : list (string * A)) :
  k ≠ k' → lookupKey k' (setKey k v m) = lookupKey k' m.
Proof.
  intros Hne. induction m as [|[k0 v0] r IH]; cbn; [by case_decide|].
  case_decide; cbn; repeat case_decide; subst; done.
Qed.

Lemma keysOf_setKey_in {A} k (v : A) (m : list (string * A)) :
  k ∈ keysOf m → keysOf (setKey k v m) = keysOf m.
Proof.
  unfold keysOf. induction m as [|[k' v'] r IH]; cbn; [by intros ?%elem_of_nil|].
  intros Hin. case_decide; cbn; [by subst|]. f_equal. apply IH.
  by apply elem_of_cons in Hin as [->|].
Qed.

Lemma translateEntry_other_keys `{GoLib} fuel inputValue st st' k v k' :
  translateEntry fuel inputValue st k v = Ret st' → k ≠ k' →
  lookupKey k' (translatedInput st') = lookupKey k' (translatedInput st).
Proof.
  intros Hrun Hne. unfold translateEntry in Hrun.
  assert (∀ hits st0,
            lookupKey k' (translatedInput (foldl (λ st x, putFound st k x) st0 hits))
            = lookupKey k' (translatedInput st0)) as Hhits.
  { induction hits as [|x hits IH]; intros st0; [done|].
    cbn [foldl]. rewrite IH. cbn. by apply lookupKey_setKey_ne. }
  destruct (foundInInput (parsedInput st) v) as [|hit hits].
  - cbn [foldl] in Hrun.
    assert (∀ x, lookupKey k' (translatedInput (putTranslated st k x))
                 = lookupKey k' (translatedInput st)) as Hput
      by (intros; cbn; by apply lookupKey_setKey_ne).
    destruct v; try (injection Hrun as <-; by apply Hput).
    + destruct (translateListItems _ _ _ _ _ _) as [[newOutput tv]| |]; try done.
      cbn in Hrun. injection Hrun as <-. by apply lookupKey_setKey_ne.
    + destruct (runJsonTranslation _ _ _ _) as [[parsed ?]| |]; try done.
      cbn in Hrun. injection Hrun as <-. by apply lookupKey_setKey_ne.
  - injection Hrun as <-. exact (Hhits (hit :: hits) st).
Qed.

Lemma translateEntries_other_keys `{GoLib} fuel inputValue later :
  ∀ st st' k,
    translateEntries fuel inputValue later st = Ret st' → k ∉ keysOf later →
    lookupKey k (translatedInput st') = lookupKey k (translatedInput st).
Proof.
  induction later as [|[k0 v0] later IH]; intros st st' k Hrun Hk.
  - by injection Hrun as <-.
  - cbn [translateEntries] in Hrun.
    destruct (translateEntry fuel inputValue st k0 v0) as [st1| |] eqn:E; try done.
    cbn in Hrun. unfold keysOf in Hk. cbn in Hk.
    apply not_elem_of_cons in Hk as [Hne Hk].
    rewrite (IH _ _ _ Hrun Hk).
    by apply (translateEntry_other_keys _ _ _ _ _ _ _ E).
Qed.




Lemma Contains_Join_dot (k k' : string) (rest : list string) :
  Contains (Join (k :: k' :: rest) ".") "." = true.
Proof.
  rewrite Join_cons.
  change (k +:+ "." +:+ Join (k' :: rest) ".")
    with (k +:+ String dotByte (Join (k' :: rest) ".")).
  change "." with (String dotByte "").
  rewrite Contains_byte_append, Contains_byte_cons.
  rewrite bool_decide_eq_true_2 by done. by rewrite orb_true_r.
Qed.

(** C7, amended. A template string that is the name of a top-level key of
    the input puts that key's value at the target key in its native type.
    A template string that is a path of two or more keys through nested
    objects puts a string there whatever the type of the value found: the
    string itself, the indented JSON text of an object or an array, the
    formatted boolean or number, the empty string for null. *)
Theorem single_reference_output `{GoLib} (fuel : nat) (inputValue : GoMap)
    (st : Translating) (k : string) :
  (∀ p v, NoDup (keysOf (parsedInput st)) →
          lookupKey p (parsedInput st) = Some v →
          translateEntry fuel inputValue st k (JStr p) = Ret (putFound st k v) ∧
          lookupKey k (translatedInput (putFound st k v)) = Some v) ∧
  (∀ k1 k2 more leaf,
     let keys := k1 :: k2 :: more in
     let p := Join keys "." in
     Forall (λ key, Contains key "." = false) keys →
     lookupKey p (parsedInput st) = None →
     Contains p "$" = false → cleanKey p = p →
     lookupPath (JObj (parsedInput st)) keys = Some leaf →
     translateEntry fuel inputValue st k (JStr p)
     = Ret (putTranslated st k (JStr (stringifyLeaf leaf))) ∧
     lookupKey k (translatedInput (putTranslated st k (JStr (stringifyLeaf leaf))))
     = Some (JStr (stringifyLeaf leaf))).
Proof.
  split.
  - intros p v Hnd Hlk. split; [|cbn; apply lookupKey_setKey_eq].
    unfold translateEntry. by rewrite (foundInInput_Some _ _ v).
  - intros k1 k2 more leaf keys p Hdots Hlk Hdollar Hclean Hpath.
    split; [|cbn; apply lookupKey_setKey_eq].
    unfold translateEntry. rewrite foundInInput_None by done. cbn [foldl].
    unfold translateString. subst p keys.
    rewrite Contains_Join_dot, Hdollar, Hclean.
    by rewrite (recurseFindKey_path _ _ leaf).
Qed.

Lemma single_reference_output_witness :
  (translateEntry (H := refLib) 0 kmsSource (emptyState kmsSource) "n" (JStr "id")
   = Ret (putFound (emptyState kmsSource) "n" (JNum 7))) ∧
  (translateEntry (H := refLib) 0 kmsSource (emptyState kmsSource) "on"
     (JStr "secret.live")
   = Ret (putTranslated (emptyState kmsSource) "on" (JStr "true"))).
Proof.
  destruct (single_reference_output (H := refLib) 0 kmsSource (emptyState kmsSource) "n")
    as [Htop _].
  destruct (single_reference_output (H := refLib) 0 kmsSource (emptyState kmsSource) "on")
    as [_ Hpath].
  split.
  - apply (Htop "id" (JNum 7)); [|reflexivity].
    apply (bool_decide_unpack _). vm_compute. exact I.
  - apply (Hpath "secret" "live" [] (JBool true)); try (vm_compute; reflexivity).
    repeat constructor.
Defined.

(** The claim C7 as stated fails: a string that is one path reference, with
    or without the dollar sign, gives a string at the target key when the
    value found is a boolean or an object. *)
Lemma single_reference_is_stringified :
  runJsonTranslation (H := refLib) 0 kmsSource
    (JObj [("on", JStr "secret.live"); ("ver", JStr "secret.version");
           ("ref", JStr "$secret.live")]) false
  = Ret ([("on", JStr "true");
          ("ver", JStr (encodeJson (Some 0%nat)
                          (JObj [("value", JStr "frikky"); ("type", JStr "kv")])));
          ("ref", JStr "true")], kmsSource)
  ∧ lookupPath (JObj kmsSource) ["secret"; "live"] = Some (JBool true)
  ∧ lookupPath (JObj kmsSource) ["secret"; "version"]
    = Some (JObj [("value", JStr "frikky"); ("type", JStr "kv")])
  ∧ JStr "true" ≠ JBool true.
Proof. repeat split; try (vm_compute; reflexivity). done. Qed.
(** ** List selectors *)

Lemma MapValueToLocation_obj (entries : GoMap) (location value : string) :
  MapValueToLocation (JObj entries) location value
  = placed ← placeEntries (Split location ".") value entries; Ret (JObj placed).
Proof.
  cbn [MapValueToLocation].
  match goal with
  | |- (?range entries ≫= _) = _ =>
      assert (∀ entries, range entries
                         = placeEntries (Split location ".") value entries) as Hrange
  end.
  { clear entries. induction entries as [|[key mapValue] rest IH]; [done|].
    cbn [placeEntries]. rewrite IH. f_equal. unfold placeEntry.
    destruct (negb _); [done|]. destruct (_ =? _)%nat; [done|].
    destruct mapValue as [| | | |val|]; try done.
    destruct (correctIndexes _ val) as [indexes|]; [|done]. f_equal.
    match goal with
    | |- ?loop 0%nat val = _ =>
        assert (∀ items i, loop i items
                           = placeInItems (Split location ".") value indexes i items)
          as Hloop; [|by apply Hloop]
    end.
    induction items as [|v tl IHl]; intros i; [done|].
    cbn [placeInItems]. by rewrite <- !IHl. }
  by rewrite Hrange.
Qed.

Lemma MapValueToLocation_list (key : string) (val : list Json)
    (location value : string) (indexes : list Z) :
  hd "" (Split location ".") = key →
  (length (Split location ".") =? 1)%nat = false →
  correctIndexes (Split location ".") val = Some indexes →
  MapValueToLocation (JObj [(key, JList val)]) location value
  = loopMap ← placeInItems (Split location ".") value indexes 0 val;
    Ret (JObj [(key, JList loopMap)]).
Proof.
  intros Hkey Hlen Hidx. rewrite MapValueToLocation_obj.
  cbn [placeEntries]. unfold placeEntry.
  rewrite Hkey, String.eqb_refl, Hlen, Hidx. cbn [negb].
  by destruct (placeInItems _ _ _ _ _).
Qed.

Lemma length_seqZ_range (N M : Z) :
  N ≤ M + 1 → Z.of_nat (length (seqZ N (M - N + 1))) = M - N + 1.
Proof. intros. rewrite length_seqZ. lia. Qed.

Lemma Split_dash (sN sM : string) :
  Contains sN "-" = false → Contains sM "-" = false →
  Split ("#" +:+ sN +:+ "-" +:+ sM) "-" = ["#" +:+ sN; sM].
Proof.
  intros HN HM.
  change ("#" +:+ sN +:+ "-" +:+ sM)
    with (String (Ascii.ascii_of_nat 35) sN +:+ String (Ascii.ascii_of_nat 45) sM).
  change "-" with (String (Ascii.ascii_of_nat 45) "") in *.
  rewrite Split_byte_cons.
  - f_equal. by apply Split_byte_single.
  - rewrite Contains_byte_cons, HN. done.
Qed.

Section behind_selector.
Variables (key sel sub1 : string) (subs : list string) (value : string).
Variable indexes : list Z.
Hypothesis selector : Contains sel "#" = true.

Local Abbreviation locationParts := (key :: sel :: sub1 :: subs).
Local Abbreviation path := (Join (sub1 :: subs) ".").

Lemma placeInItems_step (i : nat) (v : Json) (tl : list Json) :
  placeInItems locationParts value indexes i (v :: tl)
  = placed ← placedItem path value indexes i v;
    later ← placeInItems locationParts value indexes (S i) tl;
    Ret (placed :: later).
Proof using selector.
  cbn [placeInItems tail hd length Nat.ltb Nat.leb]. rewrite selector.
  unfold placedItem. destruct (bool_decide _); cbn [negb]; [|done]. by destruct v.
Qed.

Lemma placeInItems_items (val : list Json) :
  ∀ i merged,
    placeInItems locationParts value indexes i val = Ret merged →
    length merged = length val ∧
    ∀ j v, val !! j = Some v →
           ∃ v', merged !! j = Some v' ∧
                 placedItem path value indexes (i + j) v = Ret v'.
Proof using selector.
  induction val as [|v tl IH]; intros i merged.
  - intros [= <-]. by split.
  - rewrite placeInItems_step.
    destruct (placedItem _ _ _ i v) as [placed| |] eqn:Hplaced; [|done..].
    cbn [mbind Run_bind].
    destruct (placeInItems _ _ _ (S i) tl) as [later| |] eqn:Hlater; [|done..].
    cbn [mbind Run_bind]. intros [= <-].
    destruct (IH (S i) later Hlater) as [Hlength Hitems]. split; [cbn; by f_equal|].
    intros [|j] x Hx; cbn in Hx |- *.
    + injection Hx as <-. exists placed. by rewrite Nat.add_0_r.
    + replace (i + S j)%nat with (S i + j)%nat by lia. by apply Hitems.
Qed.

Lemma placeInItems_returns (val : list Json) :
  ∀ i,
    (∀ j v, val !! j = Some v →
            ∃ v', placedItem path value indexes (i + j) v = Ret v') →
    ∃ merged, placeInItems locationParts value indexes i val = Ret merged.
Proof using selector.
  induction val as [|v tl IH]; intros i Hitems; [by eexists|].
  rewrite placeInItems_step.
  destruct (Hitems 0%nat v eq_refl) as [placed Hplaced].
  rewrite Nat.add_0_r in Hplaced. rewrite Hplaced. cbn [mbind Run_bind].
  destruct (IH (S i)) as [later ->]; [|by eexists].
  intros j x Hx. replace (S i + j)%nat with (i + S j)%nat by lia. by apply Hitems.
Qed.

End behind_selector.

Lemma length_findInItems `{GoLib} (parsedKey : string) (listValue : list Json) :
  Forall (λ item, match item with
                  | JObj _ => ∃ found, recurseFindKey item parsedKey = Found found
                  | _ => True
                  end) listValue →
  length (findInItems parsedKey listValue) = length listValue.
Proof.
  unfold findInItems. induction 1 as [|item tl Hitem _ IH]; [done|].
  cbn [List.map concat]. rewrite length_app, IH. cbn [length]. f_equal.
  destruct item as [| | | | |m]; try done. by destruct Hitem as [found ->].
Qed.

Lemma HasPrefix_append (s p rest : string) :
  HasPrefix s p = true → HasPrefix (s +:+ rest) p = true.
Proof.
  unfold HasPrefix. revert s. induction p as [|c p IH]; intros s Hs.
  - by destruct (s +:+ rest).
  - destruct s as [|x s]; [done|]. simpl in *.
    destruct (Ascii.ascii_dec c x); [|done]. by apply IH.
Qed.

(** In [recurseFindKey] the text of a list selector is not read: whatever
    follows the [#] in it, every item of the list is looked into. *)
Lemma recurseFindKey_any_selector `{GoLib} (key sel sub1 : string)
    (subs : list string) (val : list Json) :
  Forall (λ k, Contains k "." = false) (key :: sel :: sub1 :: subs) →
  HasPrefix sel "#" = true →
  recurseFindKey (JObj [(key, JList val)]) (Join (key :: sel :: sub1 :: subs) ".")
  = let marshalled :=
      Marshal (JList (findInItems (Join (sub1 :: subs) ".") val)) in
    if (2 <? String.length marshalled)%nat
    then Found ("schemaless_list" +:+ marshalled) else Found "".
Proof.
  intros Hdots Hsel.
  rewrite recurseFindKey_obj, Split_Join_dots by done.
  cbn [length Nat.ltb Nat.leb hd findInEntries tail].
  rewrite String.eqb_refl. cbn [negb].
  rewrite Join_cons, (HasPrefix_append sel "#") by done.
  rewrite <- Join_cons. unfold itemKey.
  rewrite Contains_Join_dot, Split_Join_dots; [done|done|by inversion Hdots].
Qed.

(** C5, amended. In [MapValueToLocation] the selector [#] picks every index
    of the list, [len(list)] of them. A range [#N-M] whose bounds are read
    as N and M (an empty lower bound or [min] is 0, an empty upper bound or
    [max] is the last index), with N not negative, picks exactly the indexes
    from N to M: M-N+1 of them when N is at most M, none when N is above M;
    no error is raised in either case, nor when M is beyond the list. With a
    path behind the selector, the loop over the items returns whenever the
    write into each picked object returns; the list it gives has the
    length of the list, an object at a picked index holds the value at that
    path and every other item is as it was. In [recurseFindKey] the selector
    [#] looks into every item of the list: the marker holds one value for
    each item when the path resolves in every object of the list. *)
Theorem list_selectors (key : string) (rest : list string) (val : list Json) :
  (correctIndexes (key :: "#" :: rest) val = Some (allIndexes val) ∧
   length (allIndexes val) = length val) ∧
  (startIndexOf "" = Some 0 ∧ startIndexOf "min" = Some 0 ∧
   endIndexOf "" val = Some (Z.of_nat (length val) - 1) ∧
   endIndexOf "max" val = Some (Z.of_nat (length val) - 1)) ∧
  (∀ sN sM N M,
     Contains sN "-" = false → Contains sM "-" = false →
     HasPrefix sM "#" = false →
     startIndexOf sN = Some N → endIndexOf sM val = Some M → 0 ≤ N →
     correctIndexes (key :: ("#" +:+ sN +:+ "-" +:+ sM) :: rest) val
     = Some (seqZ N (M - N + 1)) ∧
     (∀ i, i ∈ seqZ N (M - N + 1) ↔ N ≤ i ≤ M) ∧
     (N ≤ M → Z.of_nat (length (seqZ N (M - N + 1))) = M - N + 1) ∧
     (M < N → seqZ N (M - N + 1) = [])) ∧
  (∀ sel sub1 subs value indexes,
     Contains sel "#" = true →
     correctIndexes (key :: sel :: sub1 :: subs) val = Some indexes →
     (∀ merged,
        placeInItems (key :: sel :: sub1 :: subs) value indexes 0 val = Ret merged →
        length merged = length val ∧
        ∀ i v, val !! i = Some v →
               ∃ v', merged !! i = Some v' ∧
                     placedItem (Join (sub1 :: subs) ".") value indexes i v = Ret v') ∧
     ((∀ i v, val !! i = Some v →
              ∃ v', placedItem (Join (sub1 :: subs) ".") value indexes i v = Ret v') →
      ∃ merged,
        placeInItems (key :: sel :: sub1 :: subs) value indexes 0 val = Ret merged)) ∧
  (∀ `{GoLib} sub1 subs,
     Forall (λ k, Contains k "." = false) (key :: sub1 :: subs) →
     recurseFindKey (JObj [(key, JList val)]) (Join (key :: "#" :: sub1 :: subs) ".")
     = (let marshalled :=
          Marshal (JList (findInItems (Join (sub1 :: subs) ".") val)) in
        if (2 <? String.length marshalled)%nat
        then Found ("schemaless_list" +:+ marshalled) else Found "") ∧
     (Forall (λ item,
                match item with
                | JObj _ => ∃ found,
                    recurseFindKey item (Join (sub1 :: subs) ".") = Found found
                | _ => True
                end) val →
      length (findInItems (Join (sub1 :: subs) ".") val) = length val)).
Proof.
  split; [|split; [|split; [|split]]].
  5: { intros lib sub1 subs Hdots.
       assert (Forall (λ k, Contains k "." = false) (key :: "#" :: sub1 :: subs)) as Hdots'.
       { inversion Hdots as [|?? Hk Hrest]; subst. constructor; [done|]. by constructor. }
       split; [by apply recurseFindKey_any_selector|apply length_findInItems]. }
  - split; [done|]. unfold allIndexes. rewrite length_seqZ. lia.
  - by vm_compute.
  - intros sN sM N M HN HM Hhash Hstart Hend Hpos.
    split; [|split; [|split]].
    + unfold correctIndexes. cbn [tail hd].
      assert (HasPrefix ("#" +:+ sN +:+ "-" +:+ sM) "#" = true) as ->
        by apply (prefix_byte (Ascii.ascii_of_nat 35)).
      assert (String.eqb ("#" +:+ sN +:+ "-" +:+ sM) "#" = false) as ->.
      { destruct sN; by vm_compute. }
      assert (Contains ("#" +:+ sN +:+ "-" +:+ sM) "-" = true) as ->.
      { change ("#" +:+ sN +:+ "-" +:+ sM)
          with (String (Ascii.ascii_of_nat 35) sN +:+ String (Ascii.ascii_of_nat 45) sM).
        change "-" with (String (Ascii.ascii_of_nat 45) "").
        rewrite Contains_byte_append, (Contains_byte_cons _ _ sM).
        rewrite bool_decide_eq_true_2 by done. by rewrite orb_true_r. }
      rewrite Split_dash by done.
      assert (TrimPrefix ("#" +:+ sN) "#" = sN) as ->.
      { unfold TrimPrefix.
        by rewrite (prefix_byte (Ascii.ascii_of_nat 35) _ sN : HasPrefix ("#" +:+ sN) "#" = _). }
      assert (TrimPrefix sM "#" = sM) as -> by (unfold TrimPrefix; by rewrite Hhash).
      rewrite Hstart, Hend.
      destruct (Z.ltb_spec N 0); [lia | done].
    + intros i. rewrite elem_of_seqZ. lia.
    + intros. rewrite length_seqZ. lia.
    + intros. unfold seqZ. by replace (Z.to_nat (M - N + 1)) with 0%nat by lia.
  - intros sel sub1 subs value indexes Hsel _. split.
    + intros merged Hrun.
      by apply (placeInItems_items key sel sub1 subs value indexes Hsel val 0).
    + intros Hitems.
      by apply (placeInItems_returns key sel sub1 subs value indexes Hsel val 0).
Qed.

Lemma list_selectors_witness :
  correctIndexes ["l"; "#1-3"; "a"] (replicate 5 JNull) = Some [1; 2; 3] ∧
  (∀ i, i ∈ seqZ 1 (3 - 1 + 1) ↔ 1 ≤ i ≤ 3) ∧
  correctIndexes ["l"; "#min-max"; "a"] (replicate 5 JNull) = Some [0; 1; 2; 3; 4] ∧
  (∃ merged, placeInItems ["l"; "#1-1"; "a"] "V" [1] 0 twoItems = Ret merged) ∧
  MapValueToLocation listDoc "l.#1-1.a" "V"
  = Ret (JObj [("l", JList [JObj [("a", JStr "x")]; JObj [("a", JStr "V")]])]).
Proof.
  destruct (list_selectors "l" ["a"] (replicate 5 JNull)) as (_ & _ & Hrange & _ & _).
  destruct (Hrange "1" "3" 1 3) as (Hidx & Hin & _);
    try (vm_compute; reflexivity); [lia|].
  destruct (Hrange "min" "max" 0 4) as (Hall & _);
    try (vm_compute; reflexivity); [lia|].
  destruct (list_selectors "l" ["a"] twoItems) as (_ & _ & _ & Hplace & _).
  destruct (Hplace "#1-1" "a" [] "V" [1]) as [_ Hreturns];
    try (vm_compute; reflexivity).
  split; [exact Hidx|]. split; [exact Hin|]. split; [exact Hall|].
  split; [|vm_compute; reflexivity].
  apply Hreturns. intros [|[|i]] v; cbn; intros [= <-]; by eexists.
Defined.

(** The claim C5 as stated fails where it promises an error:
    [MapValueToLocation] returns the map alone and has no error to give. A
    range with N above M, or beyond the list, picks no item and the tree
    comes back as it was. *)
Lemma selector_never_fails :
  correctIndexes ["l"; "#1-0"; "a"] twoItems = Some [] ∧
  MapValueToLocation listDoc "l.#1-0.a" "V" = Ret listDoc ∧
  MapValueToLocation listDoc "l.#5-9.a" "V" = Ret listDoc.
Proof. repeat split; vm_compute; reflexivity. Qed.

(** ** List alignment: the loop over the values of a field *)

Lemma copyMapValue_id (v : Json) : copyMapValue v = v.
Proof.
  induction v as [| | | |l IH|m IH] using Json_ind'; try done.
  cbn [copyMapValue]. f_equal.
  induction IH as [|[k x] m Hx Hm IHm]; [done|].
  rewrite IHm. f_equal. f_equal. by destruct x.
Qed.

Lemma copyMap_id (m : GoMap) : copyMap m = m.
Proof. unfold copyMap. by rewrite copyMapValue_id. Qed.

Lemma setNestedMap_key (m : GoMap) (key listValue : string) :
  Contains key "." = false → key ≠ "#" → takesValueAt key (JObj m) →
  ∃ found,
    setNestedMap m key (JStr listValue) = Ret (setKey key (JStr listValue) m, found).
Proof.
  intros Hdot Hloop Hm. unfold setNestedMap.
  rewrite (Split_byte_single dotByte) by done. cbn [reverse rev_append foldl wrapKey].
  apply String.eqb_neq in Hloop. rewrite Hloop.
  cbn [takesValueAt] in Hm.
  destruct (lookupKey key m) as [[]|]; rewrite ?Hm; cbn; rewrite copyMap_id;
    by eexists.
Qed.

Lemma rev_cons_append (c : Ascii.ascii) (acc r : string) :
  String.rev (String c acc) +:+ r = String.rev acc +:+ String c r.
Proof. unfold String.rev. cbn. by rewrite !rev_app_append. Qed.

Lemma SplitNFrom_last (sep acc s : string) :
  SplitNFrom sep 1 0 acc s = [String.rev acc +:+ s].
Proof.
  revert acc. induction s as [|c r IH]; intros acc; cbn.
  - by rewrite append_empty_r.
  - by rewrite IH, rev_cons_append.
Qed.

Lemma SplitN_dot_second (p c : string) :
  Contains p "." = false → SplitN (p +:+ "." +:+ c) "." 2 !! 1%nat = Some c.
Proof.
  intros Hno. unfold SplitN.
  enough (∀ acc, SplitNFrom "." 2 0 acc (p +:+ "." +:+ c) !! 1%nat = Some c) by done.
  induction p as [|x p IH]; intros acc.
  - change ("" +:+ "." +:+ c) with (String dotByte c). cbn [SplitNFrom].
    rewrite (prefix_byte dotByte), bool_decide_eq_true_2 by done.
    cbn. by rewrite SplitNFrom_last.
  - rewrite (Contains_byte_cons dotByte) in Hno.
    apply orb_false_iff in Hno as [Hx Hp].
    simpl String.append. cbn [SplitNFrom]. rewrite (prefix_byte dotByte), Hx.
    cbn. by apply IH.
Qed.

Lemma placeListValue_step `{GoLib} (firstItem : Json) (newParentKey childKey : string)
    (done todo : list Json) (updated : bool) (listValue : string) :
  Contains newParentKey "." = false → Contains childKey "." = false →
  childKey ≠ "#" → takesValueAt childKey (hd firstItem todo) →
  ∃ updated',
    placeListValue firstItem newParentKey childKey (done ++ todo, updated)
                   (length done) listValue
    = Ret (done ++ alignedItem childKey (hd firstItem todo) listValue :: tail todo,
           updated').
Proof.
  intros Hparent Hchild Hloop Htakes. unfold placeListValue.
  rewrite SplitN_dot_second by done.
  assert ((if (length (done ++ todo) <=? length done)%nat
           then (done ++ todo) ++ [firstItem] else done ++ todo)
          = done ++ hd firstItem todo :: tail todo) as ->.
  { destruct todo as [|item items].
    - rewrite app_nil_r, Nat.leb_refl. done.
    - rewrite length_app. cbn. by rewrite (proj2 (Nat.leb_gt _ _)) by lia. }
  unfold mapAt. rewrite list_lookup_middle by done.
  destruct (hd firstItem todo) as [| | | | |m] eqn:Hitem; try done.
  cbn [mbind Run_bind alignedItem].
  destruct (Contains (Marshal (JObj m)) (comparisonString childKey)); cbn [negb].
  - destruct (setNestedMap_key m childKey listValue) as [found ->]; [done..|].
    cbn. rewrite insert_app_r_alt, Nat.sub_diag by done. by eexists.
  - by eexists.
Qed.

Lemma placeListValue_loop `{GoLib} (firstItem : Json) (newParentKey childKey : string)
    (unmarshalledList : list string) :
  Contains newParentKey "." = false → Contains childKey "." = false →
  childKey ≠ "#" → takesValueAt childKey firstItem →
  ∀ done todo updated, Forall (takesValueAt childKey) todo →
  ∃ updated',
    rangeRun (placeListValue firstItem newParentKey childKey) (length done)
             unmarshalledList (done ++ todo, updated)
    = Ret (done ++ alignFrom childKey firstItem todo unmarshalledList, updated').
Proof.
  intros Hparent Hchild Hloop Hfirst.
  induction unmarshalledList as [|listValue values IH]; intros done todo updated Htodo.
  - cbn. by eexists.
  - cbn [rangeRun].
    destruct (placeListValue_step firstItem newParentKey childKey done todo
                updated listValue) as [updated' ->]; [done..| |].
    { by destruct Htodo. }
    cbn [mbind Run_bind].
    destruct (IH (done ++ [alignedItem childKey (hd firstItem todo) listValue])
                 (tail todo) updated') as [updated'' Hrest].
    { destruct Htodo; [constructor|done]. }
    rewrite length_app, Nat.add_1_r, <- app_assoc in Hrest. cbn in Hrest.
    rewrite Hrest. exists updated''. rewrite <- app_assoc. by destruct todo.
Qed.

Lemma length_alignFrom `{GoLib} (newKey : string) (firstItem : Json)
    (values : list string) (items : list Json) :
  length (alignFrom newKey firstItem items values)
  = Nat.max (length items) (length values).
Proof.
  revert items. induction values as [|v values IH]; intros items; cbn.
  - by rewrite Nat.max_0_r.
  - destruct items; cbn; by rewrite IH.
Qed.

Lemma alignFrom_lookup `{GoLib} (newKey : string) (firstItem : Json)
    (values : list string) (items : list Json) (cnt : nat) (listValue : string) :
  values !! cnt = Some listValue →
  alignFrom newKey firstItem items values !! cnt
  = Some (alignedItem newKey (default firstItem (items !! cnt)) listValue).
Proof.
  revert items cnt. induction values as [|v values IH]; intros items cnt Hv; [done|].
  destruct cnt as [|cnt]; cbn in Hv.
  - injection Hv as ->. by destruct items.
  - destruct items as [|item items]; cbn; rewrite (IH _ cnt) by done; done.
Qed.

Lemma alignFrom_lookup_beyond `{GoLib} (newKey : string) (firstItem : Json)
    (values : list string) (items : list Json) (cnt : nat) :
  (length values ≤ cnt)%nat →
  alignFrom newKey firstItem items values !! cnt = items !! cnt.
Proof.
  revert items cnt. induction values as [|v values IH]; intros items cnt Hcnt; [done|].
  cbn in Hcnt. destruct cnt as [|cnt]; [lia|].
  destruct items as [|item items]; cbn; rewrite IH by lia; done.
Qed.

(** X26. The loop of [handleMultiListItems] over the values a field
    resolved to does not fail on a merged list of another length. Where
    the merged list is shorter than the values, it is extended with its
    first item as that item stood before the loop, and each position takes
    the value of the field with its index. Where the values are fewer than
    the merged list, the positions behind them are not touched. *)
Theorem alignment_extends_with_first_item `{GoLib} (newParentKey childKey : string)
    (firstItem : Json) (others : list Json) (unmarshalledList : list string) :
  Contains newParentKey "." = false →
  Contains childKey "." = false →
  childKey ≠ "#" →
  Forall (takesValueAt childKey) (firstItem :: others) →
  ∃ merged updated,
    placeListValues newParentKey childKey (firstItem :: others) unmarshalledList
    = Ret (merged, updated) ∧
    length merged
    = Nat.max (length (firstItem :: others)) (length unmarshalledList) ∧
    (∀ cnt item listValue,
       (firstItem :: others) !! cnt = Some item →
       unmarshalledList !! cnt = Some listValue →
       merged !! cnt = Some (alignedItem childKey item listValue)) ∧
    (∀ cnt listValue,
       (length (firstItem :: others) ≤ cnt)%nat →
       unmarshalledList !! cnt = Some listValue →
       merged !! cnt = Some (alignedItem childKey firstItem listValue)) ∧
    (∀ cnt, (length unmarshalledList ≤ cnt)%nat →
            merged !! cnt = (firstItem :: others) !! cnt).
Proof.
  intros Hparent Hchild Hloop Hitems.
  destruct (placeListValue_loop firstItem newParentKey childKey unmarshalledList
              Hparent Hchild Hloop (Forall_inv Hitems) [] (firstItem :: others)
              false Hitems) as [updated Hrun].
  exists (alignFrom childKey firstItem (firstItem :: others) unmarshalledList), updated.
  split; [exact Hrun|]. split; [apply length_alignFrom|].
  split; [|split].
  - intros cnt item listValue Hitem Hvalue.
    by rewrite (alignFrom_lookup _ _ _ _ _ listValue), Hitem.
  - intros cnt listValue Hcnt Hvalue.
    rewrite (alignFrom_lookup _ _ _ _ _ listValue) by done.
    by rewrite (lookup_ge_None_2 _ cnt).
  - intros cnt Hcnt. by apply alignFrom_lookup_beyond.
Qed.

Lemma alignment_extends_with_first_item_witness :
  ∃ merged updated,
    placeListValues (H := refLib) "" "y" [JObj markedItem] ["p"; "q"]
    = Ret (merged, updated) ∧
    length merged = 2%nat ∧
    merged !! 1%nat = Some (JObj [("x", JStr "a1"); ("y", JStr "q")]).
Proof.
  destruct (alignment_extends_with_first_item (H := refLib) "" "y"
              (JObj markedItem) [] ["p"; "q"])
    as (merged & updated & Hrun & Hlength & _ & Hpad & _).
  - reflexivity.
  - reflexivity.
  - discriminate.
  - constructor; [vm_compute; reflexivity|constructor].
  - exists merged, updated. split; [exact Hrun|]. split; [exact Hlength|].
    rewrite (Hpad 1%nat "q"); [vm_compute; reflexivity|simpl; lia|reflexivity].
Defined.

(** C8. Where two fields resolve to lists of different lengths over the
    same source list, what the item added for the third value holds for the
    shorter field depends on the field aligned first, which the iteration
    over the map decides: with the shorter field first it is the first
    value of that field, as the claim says; with the longer field first it
    is the marker of the shorter field, which is never resolved there. *)
Lemma alignment_leaves_marker :
  runJsonTranslation (H := refLib) 5 unevenSource longerFirst false
  = Ret ([("items",
           JList [JObj [("x", JStr "a1"); ("y", JStr "p")];
                  JObj [("x", JStr "a2"); ("y", JStr "q")];
                  JObj [("x", JStr "a3"); ("y", JStr markerPQ)]])],
         unevenSource) ∧
  runJsonTranslation (H := refLib) 5 unevenSource shorterFirst false
  = Ret ([("items",
           JList [JObj [("y", JStr "p"); ("x", JStr "a1")];
                  JObj [("y", JStr "q"); ("x", JStr "a2")];
                  JObj [("y", JStr "p"); ("x", JStr "a3")]])],
         unevenSource).
Proof. split; vm_compute; reflexivity. Qed.

(** ** [ReverseTranslate] by its pieces *)

Lemma ReverseTranslateIn_obj `{GoLib} (decoded : GoMap → GoMap → Run Mapping)
    (entries searchInMap : GoMap) :
  ReverseTranslateIn decoded (JObj entries) searchInMap
  = reverseEntries decoded (ReverseTranslateIn decoded) searchInMap entries
      (emptyPaths searchInMap).
Proof.
  cbn [ReverseTranslateIn]. unfold emptyPaths.
  generalize (List.map (λ kv : string * Json, (kv.1, "")) searchInMap).
  induction entries as [|[key value] rest IH]; intros newMap; [done|].
  cbn [reverseEntries]. unfold reverseEntry.
  destruct (embedded value) as [mapped|].
  { destruct (decoded mapped searchInMap); cbn; [apply IH|done..]. }
  destruct value as [| | |val|val|m]; try apply IH; try done.
  - destruct (_ =? _)%nat; cbn; apply IH.
  - match goal with
    | |- (?items 0%nat val newMap ≫= _) = _ =>
        assert (∀ val i newMap,
                  items i val newMap
                  = reverseItems (ReverseTranslateIn decoded) searchInMap key i val newMap)
          as Hitems
    end.
    { clear. induction val as [|v tl IHl]; intros i newMap; [done|].
      cbn [reverseItems]. unfold reverseItem. destruct v; try apply IHl; try done.
      - destruct (String.eqb _ _); [apply IHl|].
        destruct (_ =? _)%nat; apply IHl.
      - destruct (ReverseTranslateIn decoded _ searchInMap); cbn; [apply IHl|done..]. }
    rewrite Hitems. apply bindRun_ext. intros newMap'. apply IH.
  - destruct (ReverseTranslateIn decoded (JObj m) searchInMap); cbn; [apply IH|done..].
Qed.

Lemma ReverseTranslate_obj `{GoLib} (fuel : nat) (entries searchInMap : GoMap) :
  ReverseTranslate fuel (JObj entries) searchInMap
  = reverseEntries (decodedWith fuel) (ReverseTranslate fuel) searchInMap entries
      (emptyPaths searchInMap).
Proof. destruct fuel; apply ReverseTranslateIn_obj. Qed.

Lemma ReverseTranslate_other `{GoLib} (fuel : nat) (sourceMap : Json)
    (searchInMap : GoMap) :
  (∀ entries, sourceMap ≠ JObj entries) →
  ReverseTranslate fuel sourceMap searchInMap = Ret (emptyPaths searchInMap).
Proof. intros Hno. destruct fuel, sourceMap; try done; by destruct (Hno m). Qed.

(** ** What [ReverseTranslate] returns *)

Lemma length_eqb_0 (s : string) : (String.length s =? 0)%nat = bool_decide (s = "").
Proof. by destruct s. Qed.

Lemma FindMatchingString_elem (stringToFind : string) (mapToSearch : GoMap) :
  FindMatchingString stringToFind mapToSearch ≠ "" →
  (FindMatchingString stringToFind mapToSearch, JStr stringToFind) ∈ mapToSearch.
Proof.
  induction mapToSearch as [|[key value] rest IH]; [done|].
  cbn [FindMatchingString].
  destruct value as [| | |foundValue| |];
    try (intros Hfound; apply list_elem_of_further, IH, Hfound).
  destruct (String.eqb_spec foundValue stringToFind) as [->|Hne]; intros Hfound.
  - apply list_elem_of_here.
  - apply list_elem_of_further, IH, Hfound.
Qed.

Lemma elem_of_keysOf {A} (k : string) (v : A) (m : list (string * A)) :
  (k, v) ∈ m → k ∈ keysOf m.
Proof. intros Hkv. unfold keysOf. apply (list_elem_of_fmap_2 fst _ _ Hkv). Qed.

Lemma elem_of_setKey {A} (k k' : string) (v v' : A) (m : list (string * A)) :
  (k, v) ∈ setKey k' v' m → (k, v) = (k', v') ∨ (k, v) ∈ m.
Proof.
  induction m as [|[k0 v0] r IH]; cbn [setKey].
  - intros ->%list_elem_of_singleton. by left.
  - case_decide; intros [->|Hin]%elem_of_cons; auto using list_elem_of_here,
      list_elem_of_further.
    destruct (IH Hin); auto using list_elem_of_further.
Qed.

Section paths.
Context `{GoLib}.
Variable searchInMap : GoMap.

Lemma pathsFrom_empty F : pathsFrom searchInMap F (emptyPaths searchInMap).
Proof.
  split.
  - unfold keysOf, emptyPaths. rewrite <- list_fmap_compose. done.
  - intros k path (kv & [= _ ->] & _)%list_elem_of_fmap. by left.
Qed.

Lemma pathsFrom_weaken (F G : string → string → Prop) newMap :
  (∀ s path, F s path → G s path) → pathsFrom searchInMap F newMap → pathsFrom searchInMap G newMap.
Proof.
  intros HFG [Hkeys Hpaths]. split; [done|]. intros k path Hin.
  destruct (Hpaths k path Hin) as [->|(s & Hs & Hk)]; [by left|].
  right. exists s. auto.
Qed.

Lemma pathsFrom_match F newMap s path :
  pathsFrom searchInMap F newMap → F s path →
  FindMatchingString s searchInMap ≠ "" →
  pathsFrom searchInMap F (setKey (FindMatchingString s searchInMap) path newMap).
Proof.
  intros [Hkeys Hpaths] Hs Hfound. split.
  - rewrite keysOf_setKey_in; [done|]. rewrite Hkeys.
    by apply (elem_of_keysOf _ (JStr s)), FindMatchingString_elem.
  - intros k p [[= -> ->]|Hin]%elem_of_setKey; [|by apply Hpaths].
    right. by exists s.
Qed.

Lemma pathsFrom_adopt F G prefix outputMap newMap :
  pathsFrom searchInMap G outputMap → pathsFrom searchInMap F newMap →
  (∀ s path, G s path → path ≠ "" → F s (prefix +:+ "." +:+ path)) →
  pathsFrom searchInMap F (adoptPaths prefix outputMap newMap).
Proof.
  intros [HkeysG HpathsG] HF HGF. unfold adoptPaths.
  assert (∀ kv, kv ∈ outputMap → kv ∈ outputMap) as Hsub by done.
  revert Hsub newMap HF. generalize outputMap at 1 3.
  intros done. induction done as [|[k v] rest IH]; intros Hsub newMap HF; [done|].
  cbn [foldl]. apply IH; [intros kv Hkv; by apply Hsub, list_elem_of_further|].
  cbn [fst snd]. destruct (String.eqb_spec v "") as [->|Hv]; [done|].
  destruct (HpathsG k v) as [->|(s & Hs & Hk & Hne)];
    [apply Hsub, list_elem_of_here|done|].
  subst k. apply pathsFrom_match; auto.
Qed.

End paths.

Section walk.
Context `{GoLib}.
Variable fuel : nat.

Hypothesis decoded_finds : ∀ mapped searchInMap newMap,
  decodedWith fuel mapped searchInMap = Ret newMap →
  pathsFrom searchInMap (foundAt (JObj mapped)) newMap.

Lemma reverseItems_paths (entries searchInMap : GoMap) (key : string)
    (val : list Json) :
  (key, JList val) ∈ entries →
  ∀ tl i newMap result,
    (∀ j v, tl !! j = Some v → val !! (i + j)%nat = Some v) →
    Forall (walkFinds fuel) tl →
    pathsFrom searchInMap (foundAt (JObj entries)) newMap →
    reverseItems (ReverseTranslate fuel) searchInMap key i tl newMap = Ret result →
    pathsFrom searchInMap (foundAt (JObj entries)) result.
Proof.
  intros Hentry tl. induction tl as [|v tl IH]; intros i newMap result Hat Hwalk Hpaths.
  - by intros [= <-].
  - cbn [reverseItems].
    destruct (reverseItem _ _ _ _ _ _) as [newMap'| |] eqn:Hitem; [|done..].
    cbn [mbind Run_bind]. apply IH.
    + intros j x Hx. replace (S i + j)%nat with (i + S j)%nat by lia. by apply Hat.
    + by inversion Hwalk.
    + specialize (Hat 0%nat v eq_refl). rewrite Nat.add_0_r in Hat.
      unfold reverseItem in Hitem. destruct v as [| | |stringval| |m];
        try (by injection Hitem as <-); try done.
      * destruct (String.eqb_spec stringval "") as [|Hval];
          [by injection Hitem as <-|].
        rewrite length_eqb_0 in Hitem. case_bool_decide as Hmatch;
          injection Hitem as <-; [done|].
        apply pathsFrom_match; [done| |done]. by apply (foundAt_item _ _ val).
      * destruct (ReverseTranslate fuel (JObj m) searchInMap)
          as [outputMap| |] eqn:Hrec; [|done..].
        injection Hitem as <-.
        apply (pathsFrom_adopt _ _ (foundAt (JObj m))); [|done|].
        -- inversion Hwalk as [|?? Hm]; subst. by apply Hm.
        -- intros s path Hs Hpath. by apply (foundAt_item_object _ _ val _ m).
Qed.

Lemma reverseEntry_paths (entries searchInMap : GoMap) (key : string)
    (value : Json) (newMap result : Mapping) :
  (key, value) ∈ entries →
  walkFinds fuel value → (∀ val, value = JList val → Forall (walkFinds fuel) val) →
  pathsFrom searchInMap (foundAt (JObj entries)) newMap →
  reverseEntry (decodedWith fuel) (ReverseTranslate fuel) searchInMap key value newMap
  = Ret result →
  pathsFrom searchInMap (foundAt (JObj entries)) result.
Proof using Type*.
  intros Hentry Hvalue Hitems Hpaths. unfold reverseEntry.
  destruct (embedded value) as [mapped|] eqn:Hembedded.
  { destruct (decodedWith fuel mapped searchInMap) as [outputMap| |] eqn:Hrec;
      [|done..].
    intros [= <-]. destruct value as [| | |val| |]; try done.
    apply (pathsFrom_adopt _ _ (foundAt (JObj mapped))); [by apply decoded_finds|done|].
    intros s path Hs Hpath. by apply (foundAt_embedded _ _ val mapped). }
  destruct value as [| | |val|val|m]; try (by intros [= <-]); try done.
  - rewrite length_eqb_0. case_bool_decide as Hmatch; intros [= <-]; [done|].
    apply pathsFrom_match; [done| |done]. by apply foundAt_entry.
  - apply (reverseItems_paths entries searchInMap key val); auto.
  - destruct (ReverseTranslate fuel (JObj m) searchInMap) as [outputMap| |] eqn:Hrec;
      [|done..].
    intros [= <-].
    apply (pathsFrom_adopt _ _ (foundAt (JObj m))); [by apply Hvalue|done|].
    intros s path Hs Hpath. by apply (foundAt_object _ _ m).
Qed.

Lemma reverseEntries_paths (entries searchInMap : GoMap) :
  ∀ rest newMap result,
    (∀ kv, kv ∈ rest → kv ∈ entries) →
    Forall (λ kv, walkFinds fuel kv.2 ∧
                  ∀ val, kv.2 = JList val → Forall (walkFinds fuel) val) rest →
    pathsFrom searchInMap (foundAt (JObj entries)) newMap →
    reverseEntries (decodedWith fuel) (ReverseTranslate fuel) searchInMap rest newMap
    = Ret result →
    pathsFrom searchInMap (foundAt (JObj entries)) result.
Proof using Type*.
  intros rest. induction rest as [|[key value] rest IH];
    intros newMap result Hsub Hwalk Hpaths.
  - by intros [= <-].
  - cbn [reverseEntries].
    destruct (reverseEntry _ _ _ _ _ _) as [newMap'| |] eqn:Hentry; [|done..].
    cbn [mbind Run_bind]. inversion Hwalk as [|?? [Hvalue Hitems] Hrest]; subst.
    apply IH; [intros kv Hkv; by apply Hsub, list_elem_of_further|done|].
    apply (reverseEntry_paths entries searchInMap key value newMap); auto.
    apply Hsub, list_elem_of_here.
Qed.

Lemma walk_finds_all (v : Json) :
  walkFinds fuel v ∧ ∀ val, v = JList val → Forall (walkFinds fuel) val.
Proof using Type*.
  induction v as [| | | |l IH|m IH] using Json_ind';
    try (split; [|done]; intros searchInMap newMap;
         rewrite ReverseTranslate_other by done;
         intros [= <-]; apply pathsFrom_empty).
  - split.
    + intros searchInMap newMap. rewrite ReverseTranslate_other by done.
      intros [= <-]. apply pathsFrom_empty.
    + intros val [= <-]. eapply Forall_impl; [exact IH|]. by intros v [Hv _].
  - split; [|done]. intros searchInMap newMap. rewrite ReverseTranslate_obj.
    apply reverseEntries_paths; [done|done|apply pathsFrom_empty].
Qed.

End walk.

Lemma ReverseTranslate_paths `{GoLib} (fuel : nat) (sourceMap : Json)
    (searchInMap : GoMap) (newMap : Mapping) :
  ReverseTranslate fuel sourceMap searchInMap = Ret newMap →
  pathsFrom searchInMap (foundAt sourceMap) newMap.
Proof.
  revert sourceMap searchInMap newMap.
  induction fuel as [|fuel IH]; intros sourceMap searchInMap newMap.
  - apply walk_finds_all. done.
  - apply walk_finds_all. intros mapped search result. apply IH.
Qed.

(** ** [ReverseTranslate] returns *)

Lemma readableWithin_obj `{GoLib} (fuel : nat) (entries : GoMap) :
  readableWithin fuel (JObj entries)
  = forallb (λ kv, match embedded kv.2 with
                   | Some mapped => deeperWith fuel mapped
                   | None =>
                       match kv.2 with
                       | JObj _ => readableWithin fuel kv.2
                       | JList val =>
                           forallb (λ v, match v with
                                         | JObj _ => readableWithin fuel v
                                         | JNull => false
                                         | _ => true
                                         end) val
                       | JNull => false
                       | _ => true
                       end
                   end) entries.
Proof. by destruct fuel. Qed.

Section returns.
Context `{GoLib}.
Variable fuel : nat.

Hypothesis decoded_returns : ∀ mapped searchInMap,
  deeperWith fuel mapped = true →
  ∃ newMap, decodedWith fuel mapped searchInMap = Ret newMap.

Lemma reverseItems_returns (searchInMap : GoMap) (key : string) (val : list Json) :
  Forall (walkReturns fuel) val →
  forallb (λ v, match v with
                | JObj _ => readableWithin fuel v
                | JNull => false
                | _ => true
                end) val = true →
  ∀ i newMap, ∃ result,
    reverseItems (ReverseTranslate fuel) searchInMap key i val newMap = Ret result.
Proof.
  induction val as [|v tl IH]; intros Hwalk Hwithin i newMap; [by eexists|].
  cbn [forallb] in Hwithin. apply andb_true_iff in Hwithin as [Hv Htl].
  inversion Hwalk as [|?? Hreturns Hrest]; subst.
  cbn [reverseItems].
  assert (∃ newMap', reverseItem (ReverseTranslate fuel) searchInMap key i v newMap
                     = Ret newMap') as [newMap' ->].
  { unfold reverseItem.
    destruct v as [| | |stringval| |m]; try discriminate Hv; try by eexists.
    - destruct (String.eqb _ _); [by eexists|]. destruct (_ =? _)%nat; by eexists.
    - destruct (Hreturns Hv searchInMap) as [outputMap ->]. by eexists. }
  cbn [mbind Run_bind]. by apply IH.
Qed.

Lemma reverseEntries_returns (searchInMap : GoMap) (entries : GoMap) :
  Forall (λ kv, walkReturns fuel kv.2 ∧
                ∀ val, kv.2 = JList val → Forall (walkReturns fuel) val) entries →
  readableWithin fuel (JObj entries) = true →
  ∀ newMap, ∃ result,
    reverseEntries (decodedWith fuel) (ReverseTranslate fuel) searchInMap entries newMap
    = Ret result.
Proof using Type*.
  rewrite readableWithin_obj.
  induction entries as [|[key value] rest IH]; intros Hwalk Hwithin newMap;
    [by eexists|].
  cbn [forallb snd] in Hwithin. apply andb_true_iff in Hwithin as [Hvalue Hrest].
  inversion Hwalk as [|?? [Hreturns Hitems] Hwalk']; subst. cbn [snd] in *.
  cbn [reverseEntries].
  assert (∃ newMap', reverseEntry (decodedWith fuel) (ReverseTranslate fuel)
                       searchInMap key value newMap = Ret newMap') as [newMap' ->].
  { unfold reverseEntry. destruct (embedded value) as [mapped|].
    { destruct (decoded_returns mapped searchInMap Hvalue) as [outputMap ->].
      by eexists. }
    destruct value as [| | |val|val|m]; try discriminate Hvalue; try by eexists.
    - destruct (_ =? _)%nat; by eexists.
    - apply reverseItems_returns; auto.
    - destruct (Hreturns Hvalue searchInMap) as [outputMap ->]. by eexists. }
  cbn [mbind Run_bind]. by apply IH.
Qed.

Lemma walk_returns_all (v : Json) :
  walkReturns fuel v ∧ ∀ val, v = JList val → Forall (walkReturns fuel) val.
Proof using Type*.
  induction v as [| | | |l IH|m IH] using Json_ind';
    try (split; [|done]; intros _ searchInMap;
         rewrite ReverseTranslate_other by done; by eexists).
  - split.
    + intros _ searchInMap. rewrite ReverseTranslate_other by done. by eexists.
    + intros val [= <-]. eapply Forall_impl; [exact IH|]. by intros v [Hv _].
  - split; [|done]. intros Hwithin searchInMap. rewrite ReverseTranslate_obj.
    by apply reverseEntries_returns.
Qed.

End returns.

Lemma ReverseTranslate_returns `{GoLib} (fuel : nat) (sourceMap : Json)
    (searchInMap : GoMap) :
  readableWithin fuel sourceMap = true →
  ∃ newMap, ReverseTranslate fuel sourceMap searchInMap = Ret newMap.
Proof.
  revert sourceMap searchInMap.
  induction fuel as [|fuel IH]; intros sourceMap searchInMap Hwithin.
  - by apply walk_returns_all.
  - apply walk_returns_all; [|done]. intros mapped search Hdeeper. by apply IH.
Qed.



(** At a null the walk has no mapping to return: the log line that names
    the type of the value panics on it. *)
Example ReverseTranslate_null `{GoLib} (fuel : nat) (key : string)
    (rest searchInMap : GoMap) :
  ReverseTranslate fuel (JObj ((key, JNull) :: rest)) searchInMap = Panic ∧
  ReverseTranslate fuel (JObj ((key, JList [JNull]) :: rest)) searchInMap = Panic.
Proof. by destruct fuel. Qed.

Example ReverseTranslate_embedded :
  ReverseTranslate (H := refLib) 1 embeddedSource sampleKeys
  = Ret [("name", "user"); ("ident", "raw.id"); ("colour", "tags.#0");
         ("holder", "tags.#1.owner"); ("other", "")].
Proof. vm_compute. reflexivity. Qed.

(** ** Round trip: the paths of [ReverseTranslate] read by [runJsonTranslation] *)

Lemma Contains_longer (c : Ascii.ascii) (rest s : string) :
  Contains s (String c "") = false → Contains s (String c rest) = false.
Proof.
  induction s as [|x s IH]; [done|].
  rewrite Contains_byte_cons. intros [Hx Hs]%orb_false_iff.
  cbn [Contains]. rewrite IH by done. rewrite orb_false_r.
  cbn [String.prefix]. destruct (Ascii.ascii_dec c x) as [->|]; [|done].
  by rewrite bool_decide_eq_true_2 in Hx.
Qed.

Lemma plainKey_spec (k : string) :
  plainKey k = true →
  Contains k "." = false ∧ Contains k "$" = false ∧
  Contains k strDquote = false ∧ Contains k "[" = false.
Proof.
  unfold plainKey. rewrite !andb_true_iff, !negb_true_iff. tauto.
Qed.

Lemma Contains_Join_byte (c : Ascii.ascii) (keys : list string) :
  c ≠ dotByte → Forall (λ k, Contains k (String c "") = false) keys →
  Contains (Join keys ".") (String c "") = false.
Proof.
  intros Hc Hall. induction Hall as [|k rest Hk Hrest IH]; [done|].
  destruct rest as [|k' rest]; [done|].
  rewrite Join_cons.
  change (k +:+ "." +:+ Join (k' :: rest) ".")
    with (k +:+ String dotByte (Join (k' :: rest) ".")).
  rewrite Contains_byte_append, Contains_byte_cons, Hk, IH.
  by rewrite bool_decide_eq_false_2.
Qed.

Lemma plain_path (keys : list string) :
  Forall (λ k, plainKey k = true) keys →
  Forall (λ k, Contains k "." = false) keys ∧
  Contains (Join keys ".") "$" = false ∧
  cleanKey (Join keys ".") = Join keys ".".
Proof.
  intros Hplain.
  assert (∀ P : string → Prop,
            (∀ k, plainKey k = true → P k) → Forall P keys) as Hall.
  { intros P HP. eapply Forall_impl; [exact Hplain|]. exact HP. }
  split; [apply Hall; intros k Hk; by apply plainKey_spec|].
  split.
  - apply (Contains_Join_byte (Ascii.ascii_of_nat 36)); [done|].
    apply Hall. intros k Hk. by apply plainKey_spec.
  - unfold cleanKey.
    rewrite (Contains_longer (Ascii.ascii_of_nat 91) "]").
    2:{ apply (Contains_Join_byte (Ascii.ascii_of_nat 91)); [done|].
        apply Hall. intros k Hk. by apply plainKey_spec. }
    rewrite (Contains_Join_byte (Ascii.ascii_of_nat 34)); [done|done|].
    apply Hall. intros k Hk. by apply plainKey_spec.
Qed.

Lemma lookupKey_NoDup_elem {A} (k : string) (v : A) (m : list (string * A)) :
  NoDup (keysOf m) → (k, v) ∈ m → lookupKey k m = Some v.
Proof.
  unfold keysOf. induction m as [|[k0 v0] r IH]; [by intros _ ?%elem_of_nil|].
  cbn [fmap list_fmap fst lookupKey].
  intros [Hk0 Hr]%NoDup_cons [[= -> ->]|Hin]%elem_of_cons.
  - by rewrite decide_True.
  - case_decide as Hk; [|by apply IH]. subst k0.
    destruct Hk0. apply (list_elem_of_fmap_2 fst _ _ Hin).
Qed.

Lemma plainTree_obj (entries : GoMap) :
  plainTree (JObj entries) = true →
  NoDup (keysOf entries) ∧
  ∀ key value, (key, value) ∈ entries →
    plainKey key = true ∧
    match value with
    | JStr val => looksLikeJson (TrimSpace val) = false
    | JObj _ => plainTree value = true
    | _ => True
    end.
Proof.
  cbn [plainTree]. intros [Hnd Hall]%andb_true_iff.
  apply bool_decide_eq_true in Hnd. split; [done|].
  intros key value Hin. rewrite forallb_forall in Hall.
  apply list_elem_of_In, Hall in Hin. cbn [fst snd] in Hin.
  apply andb_true_iff in Hin as [Hkey Hvalue]. split; [done|].
  destruct value; try done. by apply negb_true_iff.
Qed.

Lemma indexPath_hash (key : string) (i : nat) (rest : string) :
  Contains (indexPath key i +:+ rest) "#" = true.
Proof.
  unfold indexPath. rewrite !append_assoc.
  rewrite (Contains_byte_append (Ascii.ascii_of_nat 35)).
  change (".#" +:+ pretty i +:+ rest)
    with (String dotByte (String (Ascii.ascii_of_nat 35) (pretty i +:+ rest))).
  rewrite !Contains_byte_cons.
  rewrite (bool_decide_eq_true_2 (Ascii.ascii_of_nat 35 = Ascii.ascii_of_nat 35))
    by done.
  by rewrite !orb_true_r.
Qed.

Lemma foundAt_leadsTo `{GoLib} (sourceMap : Json) (s path : string) :
  foundAt sourceMap s path →
  ∀ source, sourceMap = JObj source → plainTree sourceMap = true →
            Contains path "#" = false → leadsTo source path s.
Proof.
  induction 1 as [entries key val Hin Hembedded
                 |entries key val mapped s path Hin Hembedded _ _ _
                 |entries key m s path Hin Hfound IH Hpath
                 |entries key val i s Hin Hat Hs
                 |entries key val i m s path Hin Hat Hfound _ _];
    intros source [= <-] Hplain Hhash.
  - apply plainTree_obj in Hplain as [Hnd Hall].
    destruct (Hall _ _ Hin) as [Hkey _].
    exists [key]. repeat split; [done|by constructor|].
    cbn [lookupPath]. by rewrite (lookupKey_NoDup_elem _ _ _ Hnd Hin).
  - apply plainTree_obj in Hplain as [_ Hall].
    destruct (Hall _ _ Hin) as [_ Hval]. cbn in Hembedded.
    by rewrite Hval in Hembedded.
  - apply plainTree_obj in Hplain as [Hnd Hall].
    destruct (Hall _ _ Hin) as [Hkey Hsub].
    change (key +:+ "." +:+ path) with (key +:+ String dotByte path) in Hhash.
    rewrite (Contains_byte_append (Ascii.ascii_of_nat 35)) in Hhash.
    apply orb_false_iff in Hhash as [_ Hhash].
    rewrite Contains_byte_cons in Hhash. apply orb_false_iff in Hhash as [_ Hhash].
    destruct (IH m eq_refl Hsub Hhash) as (keys & Hne & -> & Hkeys & Hleads).
    exists (key :: keys). repeat split; [done| |by constructor|].
    + destruct keys; [done|]. by rewrite Join_cons.
    + cbn [lookupPath]. by rewrite (lookupKey_NoDup_elem _ _ _ Hnd Hin).
  - rewrite <- (append_empty_r (indexPath key i)) in Hhash.
    by rewrite indexPath_hash in Hhash.
  - by rewrite indexPath_hash in Hhash.
Qed.

Lemma keysOf_setKey_elem {A} (x k : string) (v : A) (m : list (string * A)) :
  x ∈ keysOf (setKey k v m) → x = k ∨ x ∈ keysOf m.
Proof.
  unfold keysOf. intros ([x' v'] & -> & Hin)%list_elem_of_fmap.
  apply elem_of_setKey in Hin as [[= -> ->]|Hin]; [by left|].
  right. apply (list_elem_of_fmap_2 fst _ _ Hin).
Qed.

Lemma NoDup_keysOf_setKey {A} (k : string) (v : A) (m : list (string * A)) :
  NoDup (keysOf m) → NoDup (keysOf (setKey k v m)).
Proof.
  induction m as [|[k0 v0] r IH]; cbn [setKey].
  - intros _. apply NoDup_singleton.
  - unfold keysOf in *. cbn [fmap list_fmap fst].
    intros [Hk0 Hr]%NoDup_cons. case_decide as Hk.
    + subst k0. cbn [fmap list_fmap fst]. by apply NoDup_cons.
    + cbn [fmap list_fmap fst]. apply NoDup_cons. split; [|by apply IH].
      intros [->|Hin]%(keysOf_setKey_elem k0 k v r); [done|]. by apply Hk0.
Qed.

Lemma keysOf_templateOf (newMap : Mapping) :
  keysOf (List.map (λ kv, (kv.1, JStr kv.2)) newMap) = keysOf newMap.
Proof. unfold keysOf. induction newMap as [|[k p] r IH]; cbn; by f_equal. Qed.

Section forward.
Context `{GoLib}.
Variables (fuel : nat) (inputValue source : GoMap).

Lemma keepsSource_putTranslated (st : Translating) (k : string) (v : Json) :
  keepsSource source st → keepsSource source (putTranslated st k v).
Proof.
  intros (Hnd & Hkept & Hdots & Hunmapped). repeat split; try done.
  cbn. by rewrite Hunmapped.
Qed.

Lemma keepsSource_putFound (st : Translating) (k : string) (v : Json) :
  k ∉ keysOf source → Contains k "." = false →
  keepsSource source st → keepsSource source (putFound st k v).
Proof.
  intros Hk Hdot (Hnd & Hkept & Hdots & Hunmapped). repeat split; cbn.
  - by apply NoDup_keysOf_setKey.
  - intros key Hkey. rewrite lookupKey_setKey_ne; [by apply Hkept|].
    by intros ->.
  - apply Forall_forall. intros x [->|Hx]%keysOf_setKey_elem; [done|].
    rewrite Forall_forall in Hdots. by apply Hdots.
  - by rewrite Hunmapped.
Qed.

Lemma lookupPath_kept (st : Translating) (keys : list string) (leaf : Json) :
  keepsSource source st → keys ≠ [] →
  lookupPath (JObj source) keys = Some leaf →
  lookupPath (JObj (parsedInput st)) keys = Some leaf.
Proof.
  intros (_ & Hkept & _) Hne. destruct keys as [|k rest]; [done|].
  cbn [lookupPath]. destruct (lookupKey k source) as [x|] eqn:Hk; [|done].
  rewrite Hkept, Hk; [done|]. apply lookupKey_is_Some. by rewrite Hk.
Qed.

Lemma translateEntry_path (st : Translating) (k path : string) :
  keepsSource source st → k ∉ keysOf source → Contains k "." = false →
  ∃ st', translateEntry fuel inputValue st k (JStr path) = Ret st' ∧
         keepsSource source st' ∧
         ∀ s, leadsTo source path s →
              lookupKey k (translatedInput st') = Some (JStr s).
Proof.
  intros Hst Hk Hdot. unfold translateEntry.
  destruct (lookupKey path (parsedInput st)) as [v|] eqn:Hpath.
  - rewrite (foundInInput_Some _ _ v) by (done || apply Hst). cbn [foldl].
    eexists. split; [done|]. split; [by apply keepsSource_putFound|].
    intros s (keys & Hne & -> & Hplain & Hleads).
    apply (lookupPath_kept st) in Hleads; [|done..].
    destruct (plain_path keys Hplain) as (Hdots & _).
    destruct keys as [|k1 [|k2 more]]; [done| |].
    + cbn in Hpath, Hleads. rewrite Hpath in Hleads. injection Hleads as ->.
      cbn. apply lookupKey_setKey_eq.
    + destruct Hst as (_ & _ & Hnodots & _). rewrite Forall_forall in Hnodots.
      apply lookupKey_Some_elem, elem_of_keysOf, Hnodots in Hpath.
      by rewrite Contains_Join_dot in Hpath.
  - rewrite foundInInput_None by done. cbn [foldl].
    eexists. split; [done|]. split; [by apply keepsSource_putTranslated|].
    intros s (keys & Hne & -> & Hplain & Hleads).
    apply (lookupPath_kept st) in Hleads; [|done..].
    destruct (plain_path keys Hplain) as (Hdots & Hdollar & Hclean).
    cbn. rewrite lookupKey_setKey_eq. f_equal.
    destruct keys as [|k1 [|k2 more]]; [done| |].
    + cbn in Hpath, Hleads. by rewrite Hpath in Hleads.
    + unfold translateString. rewrite Contains_Join_dot, Hdollar, Hclean.
      by rewrite (recurseFindKey_path _ _ (JStr s)).
Qed.

Lemma translateEntries_paths (newMap : Mapping) :
  ∀ st, keepsSource source st →
        NoDup (keysOf newMap) →
        (∀ k, k ∈ keysOf newMap → (k ∉ keysOf source) ∧ Contains k "." = false) →
        ∃ st', translateEntries fuel inputValue
                 (List.map (λ kv, (kv.1, JStr kv.2)) newMap) st = Ret st' ∧
               keepsSource source st' ∧
               ∀ k path s, (k, path) ∈ newMap → leadsTo source path s →
                           lookupKey k (translatedInput st') = Some (JStr s).
Proof.
  induction newMap as [|[k path] later IH]; intros st Hst Hnd Hkeys.
  - exists st. split; [done|]. split; [done|]. by intros k path s ?%elem_of_nil.
  - unfold keysOf in Hnd, Hkeys. cbn [fmap list_fmap fst] in Hnd, Hkeys.
    apply NoDup_cons in Hnd as [Hk Hnd].
    destruct (Hkeys k) as [Hsource Hdot]; [apply list_elem_of_here|].
    destruct (translateEntry_path st k path Hst Hsource Hdot)
      as (st1 & Hrun1 & Hst1 & Hvalue).
    destruct (IH st1 Hst1 Hnd) as (st' & Hrun & Hst' & Hvalues).
    { intros k' Hk'. by apply Hkeys, list_elem_of_further. }
    exists st'. cbn [List.map translateEntries fst snd]. rewrite Hrun1.
    cbn [mbind Run_bind]. split; [done|]. split; [done|].
    intros k' path' s [[= -> ->]|Hin]%elem_of_cons Hleads.
    + rewrite (translateEntries_other_keys _ _ _ _ _ _ Hrun); [by apply Hvalue|].
      by rewrite keysOf_templateOf.
    + by apply (Hvalues k' path').
Qed.

End forward.

(** C1, amended. Let the source be an object whose keys, at every level of
    nested objects, are held once and have no dot, dollar sign, quote or
    bracket, and whose strings, once trimmed, do not look like JSON
    documents; let the keys of the sample be distinct, without a dot, and no
    top-level keys of the source. For the template [ReverseTranslate]
    infers, forward application on the same source returns, and at every
    key whose inferred path is not empty and has no list index in it the
    output holds the string the sample holds there. *)
Theorem round_trip_through_objects `{GoLib} (fuel fuel' : nat)
    (source sample : GoMap) (newMap : Mapping) :
  plainTree (JObj source) = true →
  NoDup (keysOf sample) →
  Forall (λ k, (k ∉ keysOf source) ∧ Contains k "." = false) (keysOf sample) →
  ReverseTranslate fuel (JObj source) sample = Ret newMap →
  ∃ translated modified,
    runJsonTranslation fuel' source (templateOf newMap) false
    = Ret (translated, modified) ∧
    ∀ k path,
      lookupKey k newMap = Some path → path ≠ "" → Contains path "#" = false →
      ∃ s, lookupKey k sample = Some (JStr s) ∧
           lookupKey k translated = Some (JStr s).
Proof.
  intros Hplain Hnd Hkeys Hreverse.
  destruct (ReverseTranslate_paths _ _ _ _ Hreverse) as [HnewKeys Hpaths].
  destruct (plainTree_obj _ Hplain) as [Hsource Hentries].
  assert (keepsSource source (startTranslating source false)) as Hstart.
  { repeat split; try done. apply Forall_forall.
    intros k ([k' v] & -> & Hin)%list_elem_of_fmap.
    destruct (Hentries _ _ Hin) as [Hk _]. by apply plainKey_spec. }
  destruct (translateEntries_paths fuel' source source newMap _ Hstart)
    as (st' & Hrun & (_ & _ & _ & Hunmapped) & Hvalues).
  { by rewrite HnewKeys. }
  { intros k Hk. rewrite HnewKeys in Hk. rewrite Forall_forall in Hkeys. auto. }
  exists (translatedInput st'), (parsedInput st'). split.
  - unfold templateOf. rewrite runJsonTranslation_obj, Hrun.
    cbn [mbind Run_bind]. unfold marshalled. by rewrite Hunmapped.
  - intros k path Hk Hpath Hhash. apply lookupKey_Some_elem in Hk.
    destruct (Hpaths k path Hk) as [->|(s & Hfound & Hmatch & Hne)]; [done|].
    exists s. split.
    + apply lookupKey_NoDup_elem; [done|]. rewrite <- Hmatch.
      apply FindMatchingString_elem. by rewrite Hmatch.
    + apply (Hvalues k path s Hk).
      by apply (foundAt_leadsTo (JObj source) s path).
Qed.

Lemma round_trip_through_objects_witness :
  ∃ translated modified,
    runJsonTranslation (H := refLib) 0 kmsSource
      (templateOf [("user", "secret.name"); ("pw", "secret.version.value");
                   ("none", "")]) false
    = Ret (translated, modified) ∧
    lookupKey "pw" translated = Some (JStr "frikky").
Proof.
  destruct (round_trip_through_objects (H := refLib) 0 0 kmsSource roundSample
              [("user", "secret.name"); ("pw", "secret.version.value"); ("none", "")])
    as (translated & modified & Hrun & Hvalues).
  - vm_compute. reflexivity.
  - apply (bool_decide_unpack _). vm_compute. exact I.
  - apply (bool_decide_unpack _). vm_compute. exact I.
  - vm_compute. reflexivity.
  - exists translated, modified. split; [exact Hrun|].
    destruct (Hvalues "pw" "secret.version.value") as (s & Hsample & Hout);
      [reflexivity | discriminate | vm_compute; reflexivity |].
    vm_compute in Hsample. injection Hsample as <-. exact Hout.
Defined.

(** The claim C1 as stated fails where the value of the sample sits in a
    JSON document inside a string of the source: [ReverseTranslate] decodes
    the string and infers a path into the document, the forward pass does
    not decode strings and resolves the path to the empty string. *)
Lemma round_trip_fails_into_strings :
  ReverseTranslate (H := refLib) 1 (JObj documentSource) documentSample
  = Ret [("name", "user"); ("ident", "raw.id")] ∧
  ∃ translated modified,
    runJsonTranslation (H := refLib) 0 documentSource
      (templateOf [("name", "user"); ("ident", "raw.id")]) false
    = Ret (translated, modified) ∧
    lookupKey "name" translated = Some (JStr "ann") ∧
    lookupKey "ident" documentSample = Some (JStr "77") ∧
    lookupKey "ident" translated = Some (JStr "").
Proof.
  split; [vm_compute; reflexivity|].
  eexists _, _. split; [vm_compute; reflexivity|]. repeat split; reflexivity.
Qed.

(** Through a list the inferred path names one item, and the forward pass
    reads every selector as [#]: it resolves the path to the marker with all
    items of the list. *)
Example round_trip_through_list_index :
  ReverseTranslate (H := refLib) 0 (JObj listSource) listSample
  = Ret [("k", "l.#1")] ∧
  runJsonTranslation (H := refLib) 0 listSource (templateOf [("k", "l.#1")]) false
  = Ret ([("k", JStr markerAB)], listSource) ∧
  lookupKey "k" listSample = Some (JStr "b").
Proof.
  split; [vm_compute; reflexivity|]. split; [vm_compute; reflexivity|]. reflexivity.
Qed.

(** White space beyond ASCII around a JSON document is trimmed like any
    other: the string is decoded, and the source is none of those the
    amended claim speaks of. *)
Example padded_document_is_decoded :
  plainTree (JObj paddedSource) = false ∧
  ReverseTranslate (H := refLib) 1 (JObj paddedSource) [("ident", JStr "77")]
  = Ret [("ident", "raw.id")].
Proof. split; vm_compute; reflexivity. Qed.

(** ** The cache of shuffle.go: what is set can be got *)

Lemma length_append_string (a b : string) :
  String.length (a +:+ b) = (String.length a + String.length b)%nat.
Proof. induction a as [|x a IH]; simpl; [done|]. by rewrite IH. Qed.

Lemma append_inj_r (a b c : string) : a +:+ b = a +:+ c → b = c.
Proof. induction a as [|x a IH]; simpl; [done|]. intros [= Heq]. by apply IH. Qed.

Lemma chunkKey_inj (name : string) (i j : nat) :
  Cache.chunkKey name i = Cache.chunkKey name j → i = j.
Proof.
  assert (∀ k, name ≠ Cache.chunkName name k) as Hname.
  { intros k Heq. apply (f_equal String.length) in Heq.
    unfold Cache.chunkName in Heq. rewrite !length_append_string in Heq.
    cbn in Heq. lia. }
  destruct i as [|i], j as [|j]; cbn; intros Heq; try done.
  - by destruct (Hname (S j)).
  - by destruct (Hname (S i)).
  - unfold Cache.chunkName in Heq.
    apply append_inj_r, append_inj_r in Heq. by apply (inj pretty) in Heq.
Qed.

Section chunks.
Variables (maxCacheSize : nat) (mcSetFails : string → bool).
Variables (name : string) (data : Cache.Bytes) (expiration : Z).
Hypothesis size_positive : (0 < maxCacheSize)%nat.
Hypothesis sets_succeed : ∀ key, mcSetFails key = false.

Local Abbreviation holdsChunks := (Cache.holdsChunks maxCacheSize name data expiration).

Lemma length_chunkOf (i : nat) :
  length (Cache.chunkOf maxCacheSize data i)
  = Nat.min maxCacheSize (length data - i * maxCacheSize).
Proof. unfold Cache.chunkOf. by rewrite length_take, length_drop. Qed.

Lemma holdsChunks_set (store : Cache.Store) (k : nat) :
  holdsChunks store k →
  holdsChunks
    (Cache.storeSet store (Cache.chunkKey name k)
       {| Cache.Value := Cache.chunkOf maxCacheSize data k;
          Cache.Expiration := Cache.wrapInt 32 (expiration * 60) |}) (S k).
Proof using Type*.
  intros Hheld i Hi. unfold Cache.storeSet.
  destruct (String.eqb_spec (Cache.chunkKey name i) (Cache.chunkKey name k)) as [Heq|Hne].
  - apply chunkKey_inj in Heq. by subst.
  - apply Hheld. destruct (decide (i = k)) as [->|]; [done|lia].
Qed.

Lemma setChunks_all (fuel : nat) :
  ∀ k store,
    (k * maxCacheSize ≤ length data)%nat →
    (length data - k * maxCacheSize < fuel)%nat →
    holdsChunks store k →
    ∃ store',
      Cache.setChunks maxCacheSize mcSetFails fuel name data expiration
        (k * maxCacheSize) (k * maxCacheSize + maxCacheSize) (k * maxCacheSize) k
        (Cache.chunkKey name k) store = Ret store' ∧
      holdsChunks store' (S (length data / maxCacheSize)).
Proof using Type*.
  induction fuel as [|fuel IH]; intros k store Hk Hfuel Hheld; [lia|].
  cbn [Cache.setChunks]. set (c := (k * maxCacheSize)%nat) in *.
  assert (Cache.slice data c
            (if (length data <? c + maxCacheSize)%nat then length data
             else (c + maxCacheSize)%nat)
          = Ret (Cache.chunkOf maxCacheSize data k)) as ->.
  { unfold Cache.slice, Cache.chunkOf. fold c.
    destruct (Nat.ltb_spec (length data) (c + maxCacheSize)) as [Hlast|Hfull].
    - rewrite (proj2 (Nat.leb_le _ _)), Nat.leb_refl by lia. cbn [andb]. f_equal.
      rewrite !take_ge; [done|rewrite length_drop; lia..].
    - rewrite !(proj2 (Nat.leb_le _ _)) by lia. cbn [andb]. do 2 f_equal. lia. }
  cbn [mbind Run_bind]. rewrite sets_succeed.
  pose proof (holdsChunks_set store k Hheld) as Hnext.
  destruct (Nat.ltb_spec (length data) (c + maxCacheSize)) as [Hlast|Hfull].
  - eexists. split; [done|].
    replace (length data / maxCacheSize)%nat with k; [done|].
    apply (Nat.div_unique _ _ _ (length data - c)); lia.
  - destruct (IH (S k) _ ltac:(lia) ltac:(lia) Hnext) as (store' & Hrun & Hall).
    exists store'. split; [|done]. rewrite <- Hrun.
    replace (k + 1)%nat with (S k) by lia.
    by replace (c + maxCacheSize)%nat with (S k * maxCacheSize)%nat by lia.
Qed.

Lemma getChunks_all (fuel : nat) (store : Cache.Store) :
  holdsChunks store (S (length data / maxCacheSize)) →
  ∀ i, (1 ≤ i ≤ length data / maxCacheSize)%nat →
       (length data / maxCacheSize - i < fuel)%nat →
       Cache.getChunks maxCacheSize fuel store name (take (i * maxCacheSize) data) i
       = Ret data.
Proof using Type*.
  intros Hheld. pose proof (Nat.div_mod (length data) maxCacheSize ltac:(lia)) as Hdiv.
  pose proof (Nat.mod_upper_bound (length data) maxCacheSize ltac:(lia)) as Hmod.
  set (n := (length data / maxCacheSize)%nat) in *.
  induction fuel as [|fuel IH]; intros i Hi Hfuel; [lia|].
  cbn [Cache.getChunks].
  replace (Cache.chunkName name i) with (Cache.chunkKey name i)
    by (destruct i; [lia|done]).
  rewrite Hheld by lia. cbn [Cache.Value].
  rewrite length_chunkOf. unfold Cache.chunkOf. rewrite take_take_drop.
  destruct (Nat.eqb_spec (Nat.min maxCacheSize (length data - i * maxCacheSize))
                         maxCacheSize) as [Hfull|Hlast]; cbn [negb].
  - assert (i < n)%nat by nia.
    replace (i * maxCacheSize + maxCacheSize)%nat with (S i * maxCacheSize)%nat by lia.
    apply IH; lia.
  - f_equal. apply take_ge. nia.
Qed.

End chunks.

Lemma ReplaceAll_byte_cons (a c : Ascii.ascii) (new r : string) :
  ReplaceAll (String c r) (String a "") new
  = if bool_decide (a = c) then new +:+ ReplaceAll r (String a "") new
    else String c (ReplaceAll r (String a "") new).
Proof.
  unfold ReplaceAll. cbn [ReplaceFrom]. rewrite prefix_byte. cbn [String.length Nat.sub].
  by case_bool_decide.
Qed.

Lemma ReplaceAll_byte_gone (a : Ascii.ascii) (new s : string) :
  Contains new (String a "") = false →
  Contains (ReplaceAll s (String a "") new) (String a "") = false.
Proof.
  intros Hnew. induction s as [|c r IH]; [done|].
  rewrite ReplaceAll_byte_cons. case_bool_decide as Hc.
  - by rewrite Contains_byte_append, Hnew, IH.
  - by rewrite Contains_byte_cons, IH, bool_decide_eq_false_2.
Qed.

Lemma ReplaceAll_byte_same (a : Ascii.ascii) (new s : string) :
  Contains s (String a "") = false → ReplaceAll s (String a "") new = s.
Proof.
  induction s as [|c r IH]; [done|].
  rewrite Contains_byte_cons. intros [Hc Hr]%orb_false_iff.
  rewrite ReplaceAll_byte_cons, Hc. by rewrite IH.
Qed.

Lemma length_eqb_0_false (s : string) :
  s ≠ "" → (String.length s =? 0)%nat = false ∧ (0 <? String.length s)%nat = true.
Proof. by destruct s. Qed.

(** X1. What [SetCache] stores under a name, [GetCache] returns for that
    name, in one piece, whether the data went to [requestCache] or, cut in
    chunks of [maxCacheSize] bytes, to memcached. For memcached the data
    must not be longer than fifty chunks nor exactly one chunk long, and
    the server must take every item. *)
Theorem cache_set_then_get (memcached : string) (maxCacheSize : nat)
    (mcSetFails : string → bool) (fuel : nat) (caches : Cache.Caches)
    (name : string) (data : Cache.Bytes) (expiration : Z) :
  name ≠ "" → (0 < maxCacheSize)%nat → (length data < fuel)%nat →
  (memcached ≠ "" →
   (length data ≤ maxCacheSize * 50)%nat ∧ length data ≠ maxCacheSize ∧
   ∀ key, mcSetFails key = false) →
  ∃ caches',
    Cache.SetCache memcached maxCacheSize mcSetFails fuel caches name data expiration
    = Ret (caches', None) ∧
    Cache.GetCache memcached maxCacheSize fuel caches' name
    = Ret (Cache.CachedBytes data, None).
Proof.
  intros [Hname _]%length_eqb_0_false Hsize Hfuel Hmemcached.
  unfold Cache.SetCache, Cache.GetCache. rewrite Hname.
  set (key := ReplaceAll name " " "_").
  destruct (decide (memcached = "")) as [->|Hmc].
  { cbn [String.length Nat.ltb Nat.leb]. eexists. split; [done|].
    cbn [Cache.requestCache]. unfold Cache.storeSet. by rewrite String.eqb_refl. }
  destruct (Hmemcached Hmc) as (Hmax & Hone & Hsets).
  rewrite (proj2 (length_eqb_0_false memcached Hmc)).
  rewrite (proj2 (Nat.ltb_ge _ _)) by lia.
  destruct (Nat.ltb_spec maxCacheSize (length data)) as [Hlong|Hshort].
  - destruct (setChunks_all maxCacheSize mcSetFails key data expiration Hsize Hsets
                fuel 0%nat (Cache.mc caches)) as (store & Hrun & Hheld);
      [cbn; lia | cbn; lia | by intros i ?; lia |].
    cbn [Nat.mul Nat.add Cache.chunkKey] in Hrun. rewrite Hrun.
    cbn [mbind Run_bind]. eexists. split; [done|].
    cbn [Cache.mc]. pose proof (Hheld 0%nat ltac:(lia)) as Hfirst.
    cbn [Cache.chunkKey] in Hfirst. rewrite Hfirst. cbn [Cache.Value].
    assert (1 ≤ length data / maxCacheSize)%nat as Hn.
    { apply Nat.div_le_lower_bound; lia. }
    pose proof (Nat.Div0.div_le_upper_bound (length data) maxCacheSize (length data)).
    rewrite length_chunkOf, Nat.mul_0_l, Nat.sub_0_r, Nat.min_l, Nat.eqb_refl by lia.
    unfold Cache.chunkOf. rewrite Nat.mul_0_l, drop_0.
    rewrite <- (Nat.mul_1_l maxCacheSize) at 2.
    rewrite (getChunks_all maxCacheSize key data expiration Hsize fuel store Hheld);
      [done|lia|].
    assert (length data / maxCacheSize ≤ length data)%nat; [|lia].
    apply Nat.Div0.div_le_upper_bound; nia.
  - rewrite Hsets. eexists. split; [done|]. cbn [Cache.mc]. unfold Cache.storeSet.
    rewrite String.eqb_refl. cbn [Cache.Value].
    by rewrite (proj2 (Nat.eqb_neq _ _)).
Qed.

Lemma cache_set_then_get_witness :
  ∃ caches',
    Cache.SetCache "cache:11211" 4 (λ _, false) 20 Cache.emptyCaches "my key"
                   helloBytes 30
    = Ret (caches', None) ∧
    Cache.GetCache "cache:11211" 4 20 caches' "my key"
    = Ret (Cache.CachedBytes helloBytes, None).
Proof.
  apply cache_set_then_get.
  - discriminate.
  - lia.
  - vm_compute. lia.
  - intros _. split; [vm_compute; lia|]. split; [vm_compute; lia|done].
Defined.

(** X2. In memcached, data of exactly [maxCacheSize] bytes is stored as one
    item, and [GetCache] then takes it for the first chunk of a longer
    value: it reads on at the key of the second chunk and returns the data
    with what an earlier, longer value left there appended. *)
Theorem cache_full_item_reads_stale_chunk (memcached : string) (maxCacheSize : nat)
    (mcSetFails : string → bool) (fuel : nat) (caches : Cache.Caches)
    (name : string) (data : Cache.Bytes) (expiration : Z) (stale : Cache.Item) :
  name ≠ "" → memcached ≠ "" → (0 < maxCacheSize)%nat →
  length data = maxCacheSize →
  mcSetFails (ReplaceAll name " " "_") = false →
  Cache.mc caches (Cache.chunkName (ReplaceAll name " " "_") 1) = Some stale →
  length (Cache.Value stale) ≠ maxCacheSize →
  ∃ caches',
    Cache.SetCache memcached maxCacheSize mcSetFails fuel caches name data expiration
    = Ret (caches', None) ∧
    Cache.GetCache memcached maxCacheSize (S fuel) caches' name
    = Ret (Cache.CachedBytes (data ++ Cache.Value stale), None).
Proof.
  intros [Hname _]%length_eqb_0_false [_ Hmc]%length_eqb_0_false Hsize Hlength
         Hset Hstale Hshort.
  unfold Cache.SetCache, Cache.GetCache. rewrite Hname, Hmc, Hset.
  rewrite !(proj2 (Nat.ltb_ge _ _)) by lia.
  eexists. split; [done|]. cbn [Cache.mc Cache.getChunks]. unfold Cache.storeSet.
  rewrite String.eqb_refl. cbn [Cache.Value].
  rewrite (proj2 (Nat.eqb_eq _ _)) by done.
  destruct (String.eqb_spec (Cache.chunkName (ReplaceAll name " " "_") 1)
                            (ReplaceAll name " " "_")) as [Heq|_].
  { by apply (chunkKey_inj _ 1 0) in Heq. }
  rewrite Hstale. cbn [mbind Run_bind].
  by rewrite (proj2 (Nat.eqb_neq _ _)).
Qed.

Lemma cache_full_item_reads_stale_chunk_witness :
  ∃ caches',
    Cache.SetCache "cache:11211" 4 (λ _, false) 0 staleCaches "k"
                   (String.list_ascii_of_string "abcd") 30
    = Ret (caches', None) ∧
    Cache.GetCache "cache:11211" 4 1 caches' "k"
    = Ret (Cache.CachedBytes (String.list_ascii_of_string "abcdold"), None).
Proof.
  apply (cache_full_item_reads_stale_chunk "cache:11211" 4 (λ _, false) 0 staleCaches
           "k" (String.list_ascii_of_string "abcd") 30
           {| Cache.Value := String.list_ascii_of_string "old";
              Cache.Expiration := 60 |}).
  - discriminate.
  - discriminate.
  - lia.
  - reflexivity.
  - reflexivity.
  - reflexivity.
  - vm_compute. lia.
Defined.

(** X3. [SetCache] and [GetCache] put an underscore for every blank of the
    name, [DeleteCache] does not: after [SetCache] under a name with a
    blank, [DeleteCache] of that name leaves the item where it is, and
    [GetCache] still returns the data. *)
Theorem cache_delete_misses_blank_names (memcached : string) (maxCacheSize : nat)
    (mcSetFails : string → bool) (fuel : nat) (caches : Cache.Caches)
    (name : string) (data : Cache.Bytes) (expiration : Z) :
  Contains name " " = true → (length data < maxCacheSize)%nat →
  (∀ key, mcSetFails key = false) →
  ∃ caches',
    Cache.SetCache memcached maxCacheSize mcSetFails fuel caches name data expiration
    = Ret (caches', None) ∧
    Cache.GetCache memcached maxCacheSize fuel
      (Cache.DeleteCache memcached caches' name).1 name
    = Ret (Cache.CachedBytes data, None).
Proof.
  intros Hblank Hshort Hsets.
  assert (name ≠ "") as [Hname _]%length_eqb_0_false by (by intros ->).
  assert (name ≠ ReplaceAll name " " "_") as Hkey.
  { intros Heq. rewrite Heq in Hblank.
    by rewrite (ReplaceAll_byte_gone (Ascii.ascii_of_nat 32) "_") in Hblank. }
  apply String.eqb_neq in Hkey. rewrite String.eqb_sym in Hkey.
  unfold Cache.SetCache, Cache.GetCache, Cache.DeleteCache. rewrite Hname.
  destruct (0 <? String.length memcached)%nat.
  - rewrite !(proj2 (Nat.ltb_ge _ _)) by lia. rewrite Hsets.
    eexists. split; [done|]. cbn [Cache.mc].
    assert (∀ store : Cache.Store,
              store (ReplaceAll name " " "_")
              = Some {| Cache.Value := data;
                        Cache.Expiration := Cache.wrapInt 32 (expiration * 60) |} →
              match store (ReplaceAll name " " "_") with
              | Some item =>
                  if (length (Cache.Value item) =? maxCacheSize)%nat
                  then totalData ← Cache.getChunks maxCacheSize fuel store
                                     (ReplaceAll name " " "_") (Cache.Value item) 1;
                       Ret (Cache.CachedBytes totalData, None)
                  else Ret (Cache.CachedBytes (Cache.Value item), None)
              | None => Ret (Cache.CachedString "", Some Cache.NoCacheInMemcached)
              end = Ret (Cache.CachedBytes data, None)) as Hget.
    { intros store ->. cbn [Cache.Value].
      by rewrite (proj2 (Nat.eqb_neq _ _)) by lia. }
    destruct (Cache.storeSet _ _ _ name); cbn [fst Cache.mc]; apply Hget;
      unfold Cache.storeDelete, Cache.storeSet;
      by rewrite ?Hkey, String.eqb_refl.
  - eexists. split; [done|]. cbn [fst Cache.requestCache].
    unfold Cache.storeDelete, Cache.storeSet. by rewrite Hkey, String.eqb_refl.
Qed.

Lemma cache_delete_misses_blank_names_witness :
  ∃ caches',
    Cache.SetCache "" 4 (λ _, false) 0 Cache.emptyCaches "my key"
                   (String.list_ascii_of_string "abc") 30
    = Ret (caches', None) ∧
    Cache.GetCache "" 4 0 (Cache.DeleteCache "" caches' "my key").1 "my key"
    = Ret (Cache.CachedBytes (String.list_ascii_of_string "abc"), None).
Proof.
  apply cache_delete_misses_blank_names; [reflexivity|vm_compute; lia|done].
Defined.

(** X4. After [DeleteCache] of a name without a blank, [GetCache] of that
    name reports a miss, whether or not the name was in the cache. Of a
    value in chunks only the first is deleted. *)
Theorem cache_delete_then_get (memcached : string) (maxCacheSize fuel : nat)
    (caches : Cache.Caches) (name : string) :
  name ≠ "" → Contains name " " = false →
  ∃ err,
    Cache.GetCache memcached maxCacheSize fuel
      (Cache.DeleteCache memcached caches name).1 name
    = Ret (Cache.CachedString "", Some err) ∧
    ∀ keyCount,
      Cache.mc (Cache.DeleteCache memcached caches name).1
        (Cache.chunkName name (S keyCount))
      = Cache.mc caches (Cache.chunkName name (S keyCount)).
Proof.
  intros [Hname _]%length_eqb_0_false Hblank.
  unfold Cache.GetCache, Cache.DeleteCache. rewrite Hname.
  rewrite (ReplaceAll_byte_same (Ascii.ascii_of_nat 32)) by done.
  assert (∀ keyCount, (Cache.chunkName name (S keyCount) =? name)%string = false)
    as Hchunk.
  { intros keyCount. apply String.eqb_neq. intros Heq.
    by apply (chunkKey_inj name (S keyCount) 0) in Heq. }
  destruct (0 <? String.length memcached)%nat.
  - destruct (Cache.mc caches name) as [item|] eqn:Hitem; cbn [fst Cache.mc].
    + unfold Cache.storeDelete. rewrite String.eqb_refl. eexists. split; [done|].
      intros keyCount. by rewrite Hchunk.
    + rewrite Hitem. eexists. by split.
  - cbn [fst Cache.requestCache Cache.mc]. unfold Cache.storeDelete.
    rewrite String.eqb_refl. eexists. by split.
Qed.

Lemma cache_delete_then_get_witness :
  ∃ err,
    Cache.GetCache "cache:11211" 4 5
      (Cache.DeleteCache "cache:11211" staleCaches "k").1 "k"
    = Ret (Cache.CachedString "", Some err) ∧
    ∀ keyCount,
      Cache.mc (Cache.DeleteCache "cache:11211" staleCaches "k").1
        (Cache.chunkName "k" (S keyCount))
      = Cache.mc staleCaches (Cache.chunkName "k" (S keyCount)).
Proof. apply cache_delete_then_get; [discriminate|reflexivity]. Defined.

Lemma setChunks_bounded (maxCacheSize : nat) (mcSetFails : string → bool)
    (name : string) (data : Cache.Bytes) (expiration : Z) (fuel : nat) :
  (0 < maxCacheSize)%nat →
  ∀ c keyAmount keyname store,
    (c ≤ length data)%nat → (length data - c < fuel)%nat →
    ∃ store',
      Cache.setChunks maxCacheSize mcSetFails fuel name data expiration
        c (c + maxCacheSize) c keyAmount keyname store = Ret store' ∧
      ∀ key item, store' key = Some item →
                  store key = Some item ∨
                  (length (Cache.Value item) ≤ maxCacheSize)%nat.
Proof.
  intros Hsize.
  induction fuel as [|fuel IH]; intros c keyAmount keyname store Hc Hfuel; [lia|].
  cbn [Cache.setChunks]. unfold Cache.slice.
  set (nextStep := if (length data <? c + maxCacheSize)%nat then length data
                   else (c + maxCacheSize)%nat).
  assert (c ≤ nextStep ≤ length data ∧ nextStep - c ≤ maxCacheSize)%nat
    as ([Hlow Hhigh] & Hchunk).
  { unfold nextStep. destruct (Nat.ltb_spec (length data) (c + maxCacheSize)); lia. }
  rewrite !(proj2 (Nat.leb_le _ _)) by done. cbn [andb mbind Run_bind].
  destruct (mcSetFails keyname); [eexists; split; [done|]; by left|].
  assert (∀ key item,
            Cache.storeSet store keyname
              {| Cache.Value := take (nextStep - c) (drop c data);
                 Cache.Expiration := Cache.wrapInt 32 (expiration * 60) |} key
            = Some item →
            store key = Some item ∨ (length (Cache.Value item) ≤ maxCacheSize)%nat)
    as Hset.
  { intros key item. unfold Cache.storeSet. destruct (key =? keyname)%string; [|by left].
    intros [= <-]. right. cbn. rewrite length_take. lia. }
  destruct (Nat.ltb_spec (length data) (c + maxCacheSize)) as [Hlast|Hfull].
  - eexists. split; [done|]. exact Hset.
  - subst nextStep. cbv iota in Hset |- *.
    edestruct (IH (c + maxCacheSize)%nat (keyAmount + 1)%nat
                  (Cache.chunkName name (keyAmount + 1))) as (store' & -> & Hbound);
      [exact Hfull|lia|].
    eexists. split; [done|]. intros key item Hitem.
    destruct (Hbound key item Hitem) as [Hfrom|]; [|by right]. by apply Hset.
Qed.

(** X5. With memcached, [SetCache] refuses data of more than fifty times
    [maxCacheSize] bytes with an error and writes nothing. Up to that size
    it returns no error, also when the server refuses an item; it leaves
    [requestCache] alone, and no item it writes is longer than
    [maxCacheSize] bytes. *)
Theorem cache_set_in_chunks (memcached : string) (maxCacheSize : nat)
    (mcSetFails : string → bool) (fuel : nat) (caches : Cache.Caches)
    (name : string) (data : Cache.Bytes) (expiration : Z) :
  name ≠ "" → memcached ≠ "" → (0 < maxCacheSize)%nat → (length data < fuel)%nat →
  ((maxCacheSize * 50 < length data)%nat →
   Cache.SetCache memcached maxCacheSize mcSetFails fuel caches name data expiration
   = Ret (caches, Some Cache.TooLargeForCache)) ∧
  ((length data ≤ maxCacheSize * 50)%nat →
   ∃ caches',
     Cache.SetCache memcached maxCacheSize mcSetFails fuel caches name data expiration
     = Ret (caches', None) ∧
     Cache.requestCache caches' = Cache.requestCache caches ∧
     ∀ key item, Cache.mc caches' key = Some item →
                 Cache.mc caches key = Some item ∨
                 (length (Cache.Value item) ≤ maxCacheSize)%nat).
Proof.
  intros [Hname _]%length_eqb_0_false [_ Hmc]%length_eqb_0_false Hsize Hfuel.
  unfold Cache.SetCache. rewrite Hname, Hmc. split; intros Hlength.
  - by rewrite (proj2 (Nat.ltb_lt _ _)).
  - rewrite (proj2 (Nat.ltb_ge _ _)) by done.
    destruct (Nat.ltb_spec maxCacheSize (length data)) as [Hlong|Hshort].
    + destruct (setChunks_bounded maxCacheSize mcSetFails (ReplaceAll name " " "_")
                  data expiration fuel Hsize 0%nat 0%nat (ReplaceAll name " " "_")
                  (Cache.mc caches)) as (store & Hrun & Hbound); [lia..|].
      cbn [Nat.add] in Hrun. rewrite Hrun. by eexists.
    + eexists. split; [done|]. split; [done|]. cbn [Cache.mc].
      destruct (mcSetFails _); [by left|]. intros key item. unfold Cache.storeSet.
      destruct (key =? _)%string; [|by left]. intros [= <-]. by right.
Qed.

Lemma cache_set_in_chunks_witness :
  ∃ caches',
    Cache.SetCache "cache:11211" 4 (λ key, String.eqb key "my_key_1") 20
                   Cache.emptyCaches "my key" helloBytes 30
    = Ret (caches', None) ∧
    Cache.requestCache caches' = Cache.requestCache Cache.emptyCaches.
Proof.
  destruct (cache_set_in_chunks "cache:11211" 4 (λ key, String.eqb key "my_key_1") 20
              Cache.emptyCaches "my key" helloBytes 30) as [_ Hfits];
    [discriminate | discriminate | lia | vm_compute; lia |].
  destruct Hfits as (caches' & Hrun & Hrequest & _); [vm_compute; lia|].
  by exists caches'.
Defined.

(** ** [GptTranslate]: what it costs and what it returns *)

Lemma completionsIn_app (past more : list Event) :
  completionsIn (past ++ more) = (completionsIn past + completionsIn more)%nat.
Proof. unfold completionsIn. by rewrite List.filter_app, length_app. Qed.

Section completesAtMost.
Context {R : Type} (w : World).

Lemma completesAtMost_Return (r : R) n : completesAtMost w n (Return r).
Proof. intros past. cbn [run fst]. lia. Qed.

Lemma completesAtMost_GetCache name (k : option string → Prog R) n :
  (∀ result, completesAtMost w n (k result)) →
  completesAtMost w n (GetCache name k).
Proof.
  intros Hk past. cbn [run]. etrans; [apply Hk|].
  rewrite completionsIn_app. cbn [completionsIn List.filter isCompletion length]. lia.
Qed.

Lemma completesAtMost_SetCache name data expiration (k : bool → Prog R) n :
  (∀ ok, completesAtMost w n (k ok)) →
  completesAtMost w n (SetCache name data expiration k).
Proof.
  intros Hk past. cbn [run]. etrans; [apply Hk|].
  rewrite completionsIn_app. cbn [completionsIn List.filter isCompletion length]. lia.
Qed.

Lemma completesAtMost_Sleep ms (k : Prog R) n :
  completesAtMost w n k → completesAtMost w n (Sleep ms k).
Proof.
  intros Hk past. cbn [run]. etrans; [apply Hk|].
  rewrite completionsIn_app. cbn [completionsIn List.filter isCompletion length]. lia.
Qed.

Lemma completesAtMost_RandIntn m (k : Z → Prog R) n :
  (∀ result, completesAtMost w n (k result)) →
  completesAtMost w n (RandIntn m k).
Proof.
  intros Hk past. cbn [run]. etrans; [apply Hk|].
  rewrite completionsIn_app. cbn [completionsIn List.filter isCompletion length]. lia.
Qed.

Lemma completesAtMost_SaveQuery a b (k : Prog R) n :
  completesAtMost w n k → completesAtMost w n (SaveQuery a b k).
Proof.
  intros Hk past. cbn [run]. etrans; [apply Hk|].
  rewrite completionsIn_app. cbn [completionsIn List.filter isCompletion length]. lia.
Qed.

Lemma completesAtMost_pollCache remaining sleepTime cacheKey
    (hit : string → Prog R) (after : Prog R) n :
  (∀ contentOutput, completesAtMost w n (hit contentOutput)) →
  completesAtMost w n after →
  completesAtMost w n (pollCache remaining sleepTime cacheKey hit after).
Proof.
  intros Hhit Hafter. induction remaining as [|remaining IH]; cbn [pollCache];
    apply completesAtMost_GetCache; intros [contentOutput|]; auto.
  by apply completesAtMost_Sleep.
Qed.

Lemma completesAtMost_complete remaining systemMessage userQuery
    (got : string → Prog R) (gaveUp : Prog R) :
  (∀ contentOutput, completesAtMost w 0 (got contentOutput)) →
  completesAtMost w 0 gaveUp →
  completesAtMost w remaining (complete remaining systemMessage userQuery got gaveUp).
Proof.
  intros Hgot HgaveUp. induction remaining as [|remaining IH]; cbn [complete]; [done|].
  intros past. cbn [run]. destruct (completion w past) as [contentOutput|].
  - etrans; [apply Hgot|]. rewrite completionsIn_app.
    cbn [completionsIn List.filter isCompletion length]. lia.
  - cbn [run]. etrans; [apply IH|]. rewrite !completionsIn_app.
    cbn [completionsIn List.filter isCompletion length]. lia.
Qed.

End completesAtMost.

(** X6. Whatever the cache, the clock and the generator do, one call of
    [GptTranslate] calls the generator at most five times. *)
Theorem GptTranslate_five_completions `{GoLib} (systemMessage : string)
    (apiKeySet : bool) (w : World)
    (keyTokenFile standardFormat inputDataFormat : string)
    (shuffleConfig : ShuffleConfig) :
  (completionsIn
     (run w [] (GptTranslate systemMessage apiKeySet keyTokenFile standardFormat
                             inputDataFormat shuffleConfig)).1 ≤ 5)%nat.
Proof.
  enough (completesAtMost w 5
            (GptTranslate systemMessage apiKeySet keyTokenFile standardFormat
                          inputDataFormat shuffleConfig)) as Hfive by apply (Hfive []).
  unfold GptTranslate.
  destruct apiKeySet; cbn [negb]; [|apply completesAtMost_Return].
  destruct (_ <? _)%nat; [apply completesAtMost_Return|].
  assert (∀ (got : string → Prog (string * option GptError)) gaveUp s u,
            (∀ c, completesAtMost w 0 (got c)) → completesAtMost w 0 gaveUp →
            completesAtMost w 5 (complete 5 s u got gaveUp)) as Hcomplete.
  { intros. by apply completesAtMost_complete. }
  apply completesAtMost_RandIntn. intros r. apply completesAtMost_Sleep.
  match goal with
  | |- completesAtMost w 5 (GetCache _ (λ found, match found with
                                                 | Some _ => pollCache _ _ _ _ ?generate
                                                 | None => _
                                                 end)) =>
      assert (completesAtMost w 5 generate) as Hgenerate
  end.
  { apply completesAtMost_GetCache. intros [contentOutput|];
      [apply completesAtMost_Return|].
    apply completesAtMost_SaveQuery, Hcomplete; [|apply completesAtMost_Return].
    intros c. apply completesAtMost_SetCache. intros ok. apply completesAtMost_Return. }
  apply completesAtMost_GetCache. intros [lock|].
  - apply completesAtMost_pollCache; [|done]. intros c. apply completesAtMost_Return.
  - by apply completesAtMost_SetCache.
Qed.

(** X7. When the cache holds the result key, [GptTranslate] returns what it
    holds, without an error: it reads the lock key, writes it when it is
    free, reads the result key once and stops. It does not save the query,
    does not call the generator and does not write the result key. *)
Theorem GptTranslate_cached_result `{GoLib} (systemMessage : string) (w : World)
    (keyTokenFile standardFormat inputDataFormat : string)
    (shuffleConfig : ShuffleConfig) (contentOutput : string) :
  (String.length inputDataFormat ≤ maxInputSize)%nat →
  let cacheKey :=
    cacheKeyOf systemMessage standardFormat inputDataFormat shuffleConfig in
  let cacheKeyStarted :=
    cacheKeyStartedOf systemMessage standardFormat inputDataFormat shuffleConfig in
  let r := randomNumber w [] 500 in
  let woke := [DidRandIntn 500 r; DidSleep r] in
  (∀ past, cacheHolds w past cacheKey = Some contentOutput) →
  run w [] (GptTranslate systemMessage true keyTokenFile standardFormat
                         inputDataFormat shuffleConfig)
  = (woke ++ DidGetCache cacheKeyStarted (cacheHolds w woke cacheKeyStarted)
          :: match cacheHolds w woke cacheKeyStarted with
             | Some _ => []
             | None => [DidSetCache cacheKeyStarted "started" 1]
             end
          ++ [DidGetCache cacheKey (Some contentOutput)],
     (contentOutput, None)).
Proof.
  intros Hlen cacheKey cacheKeyStarted r woke Hwarm.
  unfold GptTranslate. cbn [negb].
  destruct (Nat.ltb_spec maxInputSize (String.length inputDataFormat)) as [?|_]; [lia|].
  change ("translationquery-" +:+ md5hex (OrgId shuffleConfig +:+ systemMessage
            +:+ userQueryOf standardFormat inputDataFormat)) with cacheKey.
  change ("translationquery-" +:+ md5hex (OrgId shuffleConfig +:+ systemMessage
            +:+ userQueryOf standardFormat inputDataFormat) +:+ "-started")
    with cacheKeyStarted.
  cbn [run app]. fold r. fold woke.
  destruct (cacheHolds w woke cacheKeyStarted) as [lock|].
  - cbn [pollCache run]. rewrite Hwarm. reflexivity.
  - cbn [run]. rewrite Hwarm. reflexivity.
Qed.

Lemma GptTranslate_cached_result_witness :
  ∃ lock,
    run warmWorld [] (GptTranslate (H := refLib) "prompt" true "ticket-1" "{}" "{}"
                                   someConfig)
    = ([DidRandIntn 500 3; DidSleep 3; DidGetCache lock (Some "{}");
        DidGetCache (cacheKeyOf (H := refLib) "prompt" "{}" "{}" someConfig)
                    (Some "{}")],
       ("{}", None)).
Proof.
  eexists.
  rewrite (GptTranslate_cached_result (H := refLib) "prompt" warmWorld "ticket-1"
             "{}" "{}" someConfig "{}"); [reflexivity|vm_compute; lia|done].
Defined.

Section retries.
Context {R : Type} (w : World) (n : nat) (contentOutput : string).
Hypothesis fails_n_times : ∀ past,
  completion w past = if (completionsIn past <? n)%nat then None else Some contentOutput.

Lemma completionsIn_failedTries (m : nat) : completionsIn (failedTries m) = m.
Proof.
  unfold failedTries. induction m as [|m IH]; [done|].
  cbn [replicate concat]. rewrite completionsIn_app, IH. done.
Qed.

Lemma failedTries_S (m : nat) :
  failedTries (S m) = [DidCreateChatCompletion None; DidSleep 3000] ++ failedTries m.
Proof. done. Qed.

Lemma run_complete_fails (s u : string) (got : string → Prog R) (gaveUp : Prog R)
    (m : nat) :
  ∀ past, (completionsIn past + m ≤ n)%nat →
          run w past (complete m s u got gaveUp) = run w (past ++ failedTries m) gaveUp.
Proof using fails_n_times.
  induction m as [|m IH]; intros past Hm.
  - cbn [complete failedTries replicate concat]. by rewrite app_nil_r.
  - cbn [complete run]. rewrite fails_n_times, (proj2 (Nat.ltb_lt _ _)) by lia.
    cbn [run]. rewrite IH.
    + rewrite failedTries_S. by rewrite <- !app_assoc.
    + rewrite !completionsIn_app. cbn. lia.
Qed.

Lemma run_complete_succeeds (s u : string) (got : string → Prog R) (gaveUp : Prog R)
    (m : nat) :
  ∀ past, (n < completionsIn past + m)%nat → (completionsIn past ≤ n)%nat →
          run w past (complete m s u got gaveUp)
          = run w (past ++ failedTries (n - completionsIn past)
                   ++ [DidCreateChatCompletion (Some contentOutput)])
                (got contentOutput).
Proof using fails_n_times.
  induction m as [|m IH]; intros past Hm Hn; [lia|].
  cbn [complete run]. rewrite fails_n_times.
  destruct (Nat.ltb_spec (completionsIn past) n) as [Hmore|Hnow].
  - cbn [run].
    assert (completionsIn ((past ++ [DidCreateChatCompletion None]) ++ [DidSleep (3 * 1000)])
            = S (completionsIn past)) as Hcount.
    { rewrite !completionsIn_app. cbn. lia. }
    rewrite IH, Hcount by (rewrite Hcount; lia).
    assert (n - completionsIn past = S (n - S (completionsIn past)))%nat as -> by lia.
    rewrite failedTries_S. by rewrite <- !app_assoc.
  - replace (n - completionsIn past)%nat with 0%nat by lia. done.
Qed.

End retries.

(** X8. A caller that finds neither the lock nor the result in the cache
    saves the query and calls the generator. Each call that fails is
    followed by three seconds of sleep. The answer of the first call that
    succeeds is written to the result key for thirty minutes and returned;
    after five failed calls the standard is returned with an error, and the
    result key is not written. *)
Theorem GptTranslate_retries `{GoLib} (systemMessage : string) (w : World)
    (keyTokenFile standardFormat inputDataFormat : string)
    (shuffleConfig : ShuffleConfig) (n : nat) (contentOutput : string) :
  (String.length inputDataFormat ≤ maxInputSize)%nat →
  let cacheKey :=
    cacheKeyOf systemMessage standardFormat inputDataFormat shuffleConfig in
  let cacheKeyStarted :=
    cacheKeyStartedOf systemMessage standardFormat inputDataFormat shuffleConfig in
  let r := randomNumber w [] 500 in
  let woke := [DidRandIntn 500 r; DidSleep r] in
  let started :=
    woke ++ [DidGetCache cacheKeyStarted None;
             DidSetCache cacheKeyStarted "started" 1;
             DidGetCache cacheKey None;
             DidSaveQuery keyTokenFile (userQueryOf standardFormat inputDataFormat)] in
  cacheHolds w woke cacheKeyStarted = None →
  (∀ past, cacheHolds w past cacheKey = None) →
  (∀ past, completion w past
           = if (completionsIn past <? n)%nat then None else Some contentOutput) →
  run w [] (GptTranslate systemMessage true keyTokenFile standardFormat
                         inputDataFormat shuffleConfig)
  = if (n <? 5)%nat then
      let tried :=
        started ++ failedTries n ++ [DidCreateChatCompletion (Some contentOutput)] in
      (tried ++ [DidSetCache cacheKey contentOutput 30],
       (contentOutput,
        if cacheAccepts w tried cacheKey then None else Some SetCacheFailed))
    else (started ++ failedTries 5,
          (standardFormat, Some NoCompletionAfterFiveTries)).
Proof.
  intros Hlen cacheKey cacheKeyStarted r woke started Hfree Hcold Hflaky.
  unfold GptTranslate. cbn [negb].
  destruct (Nat.ltb_spec maxInputSize (String.length inputDataFormat)) as [?|_]; [lia|].
  change ("translationquery-" +:+ md5hex (OrgId shuffleConfig +:+ systemMessage
            +:+ userQueryOf standardFormat inputDataFormat)) with cacheKey.
  change ("translationquery-" +:+ md5hex (OrgId shuffleConfig +:+ systemMessage
            +:+ userQueryOf standardFormat inputDataFormat) +:+ "-started")
    with cacheKeyStarted.
  cbn [run app]. fold r. fold woke. rewrite Hfree. cbn [run app]. rewrite Hcold.
  cbn [run app].
  change [DidRandIntn 500 r; DidSleep r; DidGetCache cacheKeyStarted None;
          DidSetCache cacheKeyStarted "started" 1; DidGetCache cacheKey None;
          DidSaveQuery keyTokenFile (userQueryOf standardFormat inputDataFormat)]
    with started.
  assert (completionsIn started = 0%nat) as Hnone by done.
  destruct (Nat.ltb_spec n 5) as [Hfew|Hmany].
  - rewrite (run_complete_succeeds w n contentOutput Hflaky) by lia.
    rewrite Hnone, Nat.sub_0_r. cbn [run]. by rewrite <- !app_assoc.
  - rewrite (run_complete_fails w n contentOutput Hflaky) by lia. done.
Qed.

Lemma GptTranslate_retries_witness :
  ∃ lock key,
    run flakyWorld [] (GptTranslate (H := refLib) "prompt" true "ticket-1" "{}" "{}"
                                    someConfig)
    = ([DidRandIntn 500 3; DidSleep 3; DidGetCache lock None;
        DidSetCache lock "started" 1; DidGetCache key None;
        DidSaveQuery "ticket-1" (userQueryOf "{}" "{}");
        DidCreateChatCompletion None; DidSleep 3000;
        DidCreateChatCompletion None; DidSleep 3000;
        DidCreateChatCompletion (Some "{}"); DidSetCache key "{}" 30],
       ("{}", None)).
Proof.
  eexists _, _.
  rewrite (GptTranslate_retries (H := refLib) "prompt" flakyWorld "ticket-1"
             "{}" "{}" someConfig 2 "{}"); [reflexivity|vm_compute; lia|done..].
Defined.
(** ** Writing to a location and reading it back *)

Lemma placeEntries_lookup (locationParts : list string) (value : string)
    (entries placed : GoMap) :
  placeEntries locationParts value entries = Ret placed →
  keysOf placed = keysOf entries ∧
  ∀ k x, lookupKey k entries = Some x →
         ∃ x', lookupKey k placed = Some x' ∧
               placeEntry locationParts value k x = Ret x'.
Proof.
  revert placed. induction entries as [|[key mapValue] rest IH]; intros placed.
  - intros [= <-]. by split.
  - cbn [placeEntries].
    destruct (placeEntry _ _ key mapValue) as [first| |] eqn:Hfirst; [|done..].
    cbn [mbind Run_bind].
    destruct (placeEntries _ _ rest) as [later| |] eqn:Hlater; [|done..].
    cbn [mbind Run_bind]. intros [= <-].
    destruct (IH later eq_refl) as [Hkeys Hlookup]. split.
    + unfold keysOf in *. cbn [fmap list_fmap fst]. by f_equal.
    + intros k x. cbn [lookupKey]. case_decide as Hk.
      * intros [= <-]. subst k. by exists first.
      * apply Hlookup.
Qed.

Lemma placeEntries_others (locationParts : list string) (value : string)
    (entries : GoMap) :
  hd "" locationParts ∉ keysOf entries →
  placeEntries locationParts value entries = Ret entries.
Proof.
  induction entries as [|[key mapValue] rest IH]; [done|].
  unfold keysOf. cbn [fmap list_fmap fst]. intros [Hkey Hrest]%not_elem_of_cons.
  cbn [placeEntries]. unfold placeEntry.
  apply not_eq_sym, String.eqb_neq in Hkey. rewrite Hkey. cbn [negb mbind Run_bind].
  by rewrite IH.
Qed.

Lemma placeEntries_returns (locationParts : list string) (value : string)
    (entries : GoMap) :
  (∀ x, (hd "" locationParts, x) ∈ entries →
        ∃ x', placeEntry locationParts value (hd "" locationParts) x = Ret x') →
  ∃ placed, placeEntries locationParts value entries = Ret placed.
Proof.
  induction entries as [|[key mapValue] rest IH]; intros Hfirst; [by eexists|].
  cbn [placeEntries].
  assert (∃ first, placeEntry locationParts value key mapValue = Ret first)
    as [first ->].
  { destruct (String.eqb_spec key (hd "" locationParts)) as [->|Hkey].
    - apply Hfirst, list_elem_of_here.
    - unfold placeEntry. apply String.eqb_neq in Hkey. rewrite Hkey. by eexists. }
  cbn [mbind Run_bind]. destruct IH as [later ->]; [|by eexists].
  intros x Hx. by apply Hfirst, list_elem_of_further.
Qed.

(** X9. A value written by [MapValueToLocation] at a path of keys that leads
    through nested objects of the map is what is found at that path
    afterwards, by [recurseFindKey] as well. The write returns for a map
    that holds no key twice, at any depth. *)
Theorem MapValueToLocation_then_find `{GoLib} (keys : list string) :
  ∀ (m : GoMap) (old : Json) (value : string),
    keys ≠ [] → Forall (λ k, Contains k "." = false) keys →
    lookupPath (JObj m) keys = Some old →
    (json_wf (JObj m) →
     ∃ placed, MapValueToLocation (JObj m) (Join keys ".") value = Ret placed) ∧
    (∀ placed,
       MapValueToLocation (JObj m) (Join keys ".") value = Ret placed →
       lookupPath placed keys = Some (JStr value) ∧
       recurseFindKey placed (Join keys ".") = Found value).
Proof.
  assert (∀ (m : GoMap) (old : Json) (value : string) (placed : Json),
            keys ≠ [] → Forall (λ k, Contains k "." = false) keys →
            lookupPath (JObj m) keys = Some old →
            MapValueToLocation (JObj m) (Join keys ".") value = Ret placed →
            ∃ entries, placed = JObj entries ∧
                       lookupPath placed keys = Some (JStr value)) as Hplaced.
  { induction keys as [|k rest IH]; intros m old value placed Hne Hdots Hpath; [done|].
    rewrite MapValueToLocation_obj, Split_Join_dots by done.
    destruct (placeEntries _ _ m) as [entries| |] eqn:Hentries; [|done..].
    cbn [mbind Run_bind]. intros [= <-]. exists entries. split; [done|].
    apply placeEntries_lookup in Hentries as [_ Hlookup].
    cbn [lookupPath] in *.
    destruct (lookupKey k m) as [x|] eqn:Hx; [|done].
    destruct (Hlookup k x Hx) as (x' & -> & Hentry).
    unfold placeEntry in Hentry. cbn [hd tail] in Hentry.
    rewrite String.eqb_refl in Hentry. cbn [negb] in Hentry.
    destruct rest as [|k2 more]; [by injection Hentry as <-|].
    cbn [length Nat.eqb] in Hentry.
    destruct x as [| | | | |m']; try done.
    destruct (IH m' old value x') as (entries' & _ & Hdeeper);
      [done|by inversion Hdots|done|done|done]. }
  assert (∀ (m : GoMap) (old : Json) (value : string),
            keys ≠ [] → Forall (λ k, Contains k "." = false) keys →
            lookupPath (JObj m) keys = Some old → json_wf (JObj m) →
            ∃ placed, MapValueToLocation (JObj m) (Join keys ".") value = Ret placed)
    as Hreturns.
  { clear Hplaced.
    induction keys as [|k rest IH]; intros m old value Hne Hdots Hpath Hwf; [done|].
    rewrite MapValueToLocation_obj, Split_Join_dots by done.
    apply json_wf_obj in Hwf as [Hkeys Hvalues].
    destruct (placeEntries_returns (k :: rest) value m) as [placed ->];
      [|by eexists].
    cbn [hd]. intros x Hx. rewrite Forall_forall in Hvalues.
    pose proof (Hvalues _ Hx) as Hwf. cbn [snd] in Hwf.
    apply lookupKey_NoDup_elem in Hx; [|done].
    cbn [lookupPath] in Hpath. rewrite Hx in Hpath.
    unfold placeEntry. cbn [hd tail]. rewrite String.eqb_refl. cbn [negb].
    destruct rest as [|k2 more]; [by eexists|]. cbn [length Nat.eqb].
    destruct x as [| | | | |m']; try done.
    apply (IH m' old); [done|by inversion Hdots|done|done]. }
  intros m old value Hne Hdots Hpath. split.
  - by apply (Hreturns m old).
  - intros placed Hrun.
    destruct (Hplaced m old value placed Hne Hdots Hpath Hrun)
      as (entries & -> & Hvalue).
    split; [done|]. by rewrite (recurseFindKey_path keys _ (JStr value)).
Qed.

Lemma MapValueToLocation_then_find_witness :
  ∃ placed,
    MapValueToLocation (JObj kmsSource) "secret.version.value" "new" = Ret placed ∧
    lookupPath placed ["secret"; "version"; "value"] = Some (JStr "new") ∧
    recurseFindKey (H := refLib) placed "secret.version.value" = Found "new".
Proof.
  destruct (MapValueToLocation_then_find (H := refLib) ["secret"; "version"; "value"]
              kmsSource (JStr "frikky") "new") as [Hreturns Hfound].
  - discriminate.
  - repeat constructor.
  - reflexivity.
  - destruct Hreturns as [placed Hrun].
    + cbn. repeat (split || constructor || apply not_elem_of_cons
                   || apply not_elem_of_nil || done).
    + exists placed. split; [exact Hrun|]. by apply Hfound.
Defined.

(** X10. [MapValueToLocation] adds no key and removes none: a map it
    returns has the keys of the map it was given, in their order, and
    every entry whose key is not the first key of the location is as it
    was. A location whose first key the map does not hold is returned for
    and changes nothing. *)
Theorem MapValueToLocation_keeps_keys (m : GoMap) (location value : string) :
  (hd "" (Split location ".") ∉ keysOf m →
   MapValueToLocation (JObj m) location value = Ret (JObj m)) ∧
  (∀ result,
     MapValueToLocation (JObj m) location value = Ret result →
     ∃ placed,
       result = JObj placed ∧ keysOf placed = keysOf m ∧
       ∀ k, k ≠ hd "" (Split location ".") → lookupKey k placed = lookupKey k m).
Proof.
  rewrite MapValueToLocation_obj. split.
  - intros Hmissing. by rewrite placeEntries_others.
  - intros result.
    destruct (placeEntries _ _ m) as [placed| |] eqn:Hplaced; [|done..].
    cbn [mbind Run_bind]. intros [= <-]. exists placed. split; [done|].
    apply placeEntries_lookup in Hplaced as [Hkeys Hlookup]. split; [done|].
    intros k Hk. destruct (lookupKey k m) as [x|] eqn:Hx.
    + destruct (Hlookup k x Hx) as (x' & -> & Hentry).
      unfold placeEntry in Hentry. apply String.eqb_neq in Hk.
      rewrite Hk in Hentry. by injection Hentry as <-.
    + apply lookupKey_None. rewrite Hkeys. by apply lookupKey_None.
Qed.

Lemma MapValueToLocation_keeps_keys_witness :
  MapValueToLocation (JObj kmsSource) "nothing.here" "new" = Ret (JObj kmsSource) ∧
  ∃ placed,
    MapValueToLocation (JObj kmsSource) "secret.version.value" "new"
    = Ret (JObj placed) ∧
    keysOf placed = keysOf kmsSource.
Proof.
  destruct (MapValueToLocation_keeps_keys kmsSource "nothing.here" "new")
    as [Hmissing _].
  destruct (MapValueToLocation_keeps_keys kmsSource "secret.version.value" "new")
    as [_ Hkeeps].
  split.
  - apply Hmissing. apply (bool_decide_unpack _). vm_compute. exact I.
  - assert (∃ result, MapValueToLocation (JObj kmsSource) "secret.version.value" "new"
                      = Ret result) as [result Hrun]
      by (eexists; vm_compute; reflexivity).
    destruct (Hkeeps result Hrun) as (placed & -> & Hkeys & _).
    exists placed. split; [exact Hrun | exact Hkeys].
Defined.

Lemma findInEntries_error `{GoLib} (keys : list string) (key : string)
    (entries : GoMap) (e : string) :
  findInEntries keys key entries = KeyNotFound e → e = key.
Proof.
  induction entries as [|[k v] rest IH]; cbn [findInEntries]; [by intros [= <-]|].
  destruct (negb _); [done|]. destruct (_ <=? _)%nat; [done|].
  destruct v as [| | | |listValue|m]; try done.
  - destruct (HasPrefix _ _); [|done]. cbn zeta. by destruct (_ <? _)%nat.
  - destruct (recurseFindKey (JObj m) _); [done|].
    destruct (_ && _); [|done]. by destruct (recurseFindKey (JObj m) _).
Qed.

(** X11. The error of [recurseFindKey] names the first key of the path: it
    is returned when the input does not hold that key, and when the input
    holds it and a later key of the path is the one that is missing, the
    error names the first key all the same. *)
Theorem recurseFindKey_error_names_first_key `{GoLib} (m : GoMap) (key : string) :
  (firstSegment key ∉ keysOf m →
   recurseFindKey (JObj m) key = KeyNotFound (firstSegment key)) ∧
  (∀ e, recurseFindKey (JObj m) key = KeyNotFound e → e = firstSegment key).
Proof.
  rewrite recurseFindKey_obj. fold (firstSegment key). split.
  - intros Hmissing. induction m as [|[k v] rest IH]; [done|].
    unfold keysOf in Hmissing. cbn [fmap list_fmap fst] in Hmissing.
    apply not_elem_of_cons in Hmissing as [Hk Hrest].
    cbn [findInEntries]. apply not_eq_sym, String.eqb_neq in Hk. rewrite Hk.
    by apply IH.
  - intros e. apply findInEntries_error.
Qed.

Lemma recurseFindKey_error_names_first_key_witness :
  recurseFindKey (H := refLib) (JObj kmsSource) "nothing.here" = KeyNotFound "nothing" ∧
  ∀ e, recurseFindKey (H := refLib) (JObj kmsSource) "secret.id" = KeyNotFound e →
       e = "secret".
Proof.
  destruct (recurseFindKey_error_names_first_key (H := refLib) kmsSource "nothing.here")
    as [Hmissing _].
  destruct (recurseFindKey_error_names_first_key (H := refLib) kmsSource "secret.id")
    as [_ Hnames].
  split; [|exact Hnames].
  apply Hmissing. apply (bool_decide_unpack _). vm_compute. exact I.
Defined.

(** ** The skeleton of [RemoveJsonValues] *)

Lemma stripItem_blank (depth : Z) (item : Json) :
  stripsValues item → forallb holdsNoValue (stripItem depth item) = true.
Proof.
  intros Hitem. destruct item as [| | | | |m]; try done. cbn [stripItem].
  destruct (RemoveJsonValues (JObj m) (depth + 1)) as [[returnJson keyToken]|] eqn:Hrun;
    [|done].
  cbn. by rewrite (Hitem _ _ _ Hrun).
Qed.

Lemma stripEntry_blank (depth : Z) (v : Json) :
  stripsValues v → (∀ l, v = JList l → Forall stripsValues l) →
  holdsNoValue (stripEntry depth v).1 = true.
Proof.
  intros Hv Hitems. destruct v as [| | | |items|m]; try done.
  - cbn [stripEntry fst holdsNoValue]. specialize (Hitems items eq_refl).
    induction Hitems as [|item tl Hitem _ IH]; [done|].
    cbn [List.map concat]. rewrite forallb_app, IH, stripItem_blank; done.
  - cbn [stripEntry]. rewrite RemoveJsonValues_obj. cbn [fst].
    apply (Hv (depth + 1) _ _ (RemoveJsonValues_obj m (depth + 1))).
Qed.

Lemma stripsValues_all (v : Json) :
  stripsValues v ∧ ∀ l, v = JList l → Forall stripsValues l.
Proof.
  induction v as [| | | |l IH|m IH] using Json_ind';
    try (split; [intros ???; cbn; intros ?; by simplify_eq|done]).
  - split; [by intros ???|]. intros val [= <-]. eapply Forall_impl; [exact IH|].
    by intros v [Hv _].
  - split; [|done]. intros depth returnJson keyToken.
    rewrite RemoveJsonValues_obj. intros [= <- _].
    cbn [holdsNoValue]. apply forallb_forall. intros [k x] Hin.
    unfold skeletonOf in Hin. apply filter_In in Hin as [Hin Hk].
    cbn [fst snd] in *. rewrite Hk. cbn [andb].
    apply in_map_iff in Hin as ([k' [x' sub]] & [= -> ->] & Hin).
    unfold perKeyOf in Hin. apply in_map_iff in Hin as ([k' v] & [= -> Hx] & Hin).
    cbn [snd] in Hx. rewrite Forall_forall in IH.
    apply list_elem_of_In, IH in Hin as [Hv Hitems]. cbn [snd] in *.
    pose proof (stripEntry_blank depth v Hv Hitems) as Hblank.
    by rewrite Hx in Hblank.
Qed.

(** X12. The skeleton [RemoveJsonValues] returns holds no value of the
    input: in it every string is empty, every number zero and every
    boolean false, at every depth and inside lists, and no object of it
    has a key that ends in a digit. *)
Theorem RemoveJsonValues_holds_no_value (input returnJson : Json) (depth : Z)
    (keyToken : string) :
  RemoveJsonValues input depth = Some (returnJson, keyToken) →
  holdsNoValue returnJson = true.
Proof. apply stripsValues_all. Qed.

Lemma RemoveJsonValues_holds_no_value_witness :
  ∃ returnJson keyToken,
    RemoveJsonValues (JObj shapeDocA) 1 = Some (returnJson, keyToken) ∧
    holdsNoValue returnJson = true.
Proof.
  eexists _, _. split; [reflexivity|].
  eapply (RemoveJsonValues_holds_no_value (JObj shapeDocA) _ 1). reflexivity.
Defined.

Lemma stripItem_fixed (depth : Z) (item : Json) :
  skeletonIsFixed item →
  concat (List.map (stripItem depth) (stripItem depth item)) = stripItem depth item.
Proof.
  intros Hitem. destruct item as [| | | | |m]; try done. cbn [stripItem].
  destruct (RemoveJsonValues (JObj m) (depth + 1)) as [[returnJson keyToken]|] eqn:Hrun;
    [|done].
  pose proof (Hitem _ _ _ Hrun) as Hfixed.
  rewrite RemoveJsonValues_obj in Hrun. injection Hrun as <- _.
  cbn [List.map concat stripItem]. by rewrite Hfixed.
Qed.

Lemma stripEntry_fixed (depth : Z) (v : Json) :
  skeletonIsFixed v → (∀ l, v = JList l → Forall skeletonIsFixed l) →
  stripEntry depth (stripEntry depth v).1 = stripEntry depth v.
Proof.
  intros Hv Hitems. destruct v as [| | | |items|m]; try done.
  - cbn [stripEntry fst]. do 2 f_equal. specialize (Hitems items eq_refl).
    clear Hv. induction Hitems as [|item tl Hitem _ IH]; [done|].
    cbn [List.map concat]. rewrite List.map_app, concat_app, IH.
    by rewrite stripItem_fixed by done.
  - cbn [stripEntry].
    pose proof (Hv (depth + 1) _ _ (RemoveJsonValues_obj m (depth + 1))) as Hfixed.
    rewrite RemoveJsonValues_obj. cbn [fst stripEntry]. by rewrite Hfixed.
Qed.

Lemma lookupKey_counted {A} (k : string) (l : list (string * A)) :
  endsInDigit k = false →
  lookupKey k (List.filter (λ kv, negb (endsInDigit kv.1)) l) = lookupKey k l.
Proof.
  intros Hk. induction l as [|[k' v] r IH]; [done|]. cbn [List.filter fst lookupKey].
  destruct (endsInDigit k') eqn:Hk'; cbn [negb lookupKey]; case_decide; subst;
    try done. by rewrite Hk in Hk'.
Qed.

Lemma countedKeys_skeleton {A} (l : list (string * A)) :
  countedKeys (keysOf (List.filter (λ kv, negb (endsInDigit kv.1)) l))
  = countedKeys (keysOf l).
Proof.
  apply (StronglySorted_unique String.le); try apply countedKeys_sorted.
  unfold countedKeys, SortStrings. rewrite !merge_sort_Permutation.
  unfold keysOf. induction l as [|[k v] r IH]; [done|].
  cbn [List.filter fst fmap list_fmap]. destruct (endsInDigit k) eqn:Hk; cbn [negb].
  - rewrite IH, (filter_cons _ k). by rewrite decide_False by (by rewrite Hk).
  - cbn [fmap list_fmap fst]. rewrite !filter_cons, !decide_True by done.
    by rewrite IH.
Qed.

Lemma skeletonIsFixed_all (v : Json) :
  skeletonIsFixed v ∧ ∀ l, v = JList l → Forall skeletonIsFixed l.
Proof.
  induction v as [| | | |l IH|m IH] using Json_ind';
    try (split; [intros ???; cbn; intros ?; by simplify_eq|done]).
  - split; [by intros ???|]. intros val [= <-]. eapply Forall_impl; [exact IH|].
    by intros v [Hv _].
  - split; [|done]. intros depth returnJson keyToken.
    rewrite RemoveJsonValues_obj. intros [= <- <-]. rewrite RemoveJsonValues_obj.
    assert (∀ k v, (k, v) ∈ m →
                   stripEntry depth (stripEntry depth v).1 = stripEntry depth v)
      as Hfixed.
    { intros k v Hin. rewrite Forall_forall in IH.
      destruct (IH _ Hin) as [Hv Hitems]. by apply stripEntry_fixed. }
    assert (skeletonOf (perKeyOf depth (skeletonOf (perKeyOf depth m)))
            = skeletonOf (perKeyOf depth m)) as Hskeleton.
    { unfold skeletonOf, perKeyOf. clear IH.
      induction m as [|[k v] rest IHm]; [done|].
      cbn [List.map List.filter fst snd].
      destruct (endsInDigit k) eqn:Hk; cbn [negb].
      - apply IHm. intros k' v' Hin. by apply (Hfixed k'), list_elem_of_further.
      - cbn [List.map List.filter fst snd]. rewrite Hk. cbn [negb].
        rewrite (Hfixed k v) by apply list_elem_of_here. f_equal.
        apply IHm. intros k' v' Hin. by apply (Hfixed k'), list_elem_of_further. }
    rewrite Hskeleton. do 2 f_equal.
    rewrite !keyTokenOf_counted.
    assert (countedKeys (keysOf (perKeyOf depth (skeletonOf (perKeyOf depth m))))
            = countedKeys (keysOf (perKeyOf depth m))) as ->.
    { unfold perKeyOf at 1. rewrite keysOf_map. unfold skeletonOf.
      rewrite countedKeys_skeleton. by rewrite (keysOf_map fst). }
    apply foldl_ext_in. intros k acc Hin.
    apply elem_of_countedKeys in Hin as [Hk _]. do 2 f_equal.
    rewrite !entrySuffix_perKeyOf. unfold skeletonOf.
    rewrite lookupKey_counted by done.
    rewrite (lookupKey_map fst). unfold perKeyOf. rewrite lookupKey_map.
    destruct (lookupKey k m) as [v|] eqn:Hlookup; [|done].
    cbn [fmap option_fmap option_map].
    by rewrite (Hfixed k v) by (by apply lookupKey_Some_elem).
Qed.

(** X13. The skeleton [RemoveJsonValues] returns is a fixed point: given
    the skeleton as input, at the same depth, [RemoveJsonValues] returns
    that skeleton and the key token of the document it was made from. *)
Theorem RemoveJsonValues_skeleton_fixed (input returnJson : Json) (depth : Z)
    (keyToken : string) :
  RemoveJsonValues input depth = Some (returnJson, keyToken) →
  RemoveJsonValues returnJson depth = Some (returnJson, keyToken).
Proof. apply skeletonIsFixed_all. Qed.

Lemma RemoveJsonValues_skeleton_fixed_witness :
  ∃ returnJson keyToken,
    RemoveJsonValues (JObj hiddenDocA) 1 = Some (returnJson, keyToken) ∧
    RemoveJsonValues returnJson 1 = Some (returnJson, keyToken).
Proof.
  eexists _, _. split; [reflexivity|].
  apply (RemoveJsonValues_skeleton_fixed (JObj hiddenDocA)). reflexivity.
Defined.

(** ** Forward application: the keys of the two documents *)

Lemma elem_of_keysOf_setKey {A} (x k : string) (v : A) (m : list (string * A)) :
  x ∈ keysOf (setKey k v m) ↔ x = k ∨ x ∈ keysOf m.
Proof.
  split; [apply keysOf_setKey_elem|].
  unfold keysOf. induction m as [|[k0 v0] r IH]; cbn [setKey fmap list_fmap fst].
  - intros [->|?%elem_of_nil]; [apply list_elem_of_here|done].
  - case_decide as Hk; cbn [fmap list_fmap fst].
    + subst k0. intros [->|Hin]; [apply list_elem_of_here|done].
    + intros [->|[->|Hin]%elem_of_cons].
      * apply list_elem_of_further, IH. by left.
      * apply list_elem_of_here.
      * apply list_elem_of_further, IH. by right.
Qed.

Lemma translateEntry_writesKey `{GoLib} fuel inputValue st st' k v :
  translateEntry fuel inputValue st k v = Ret st' → writesKey k st st'.
Proof.
  unfold translateEntry, writesKey.
  destruct (foundInInput (parsedInput st) v) as [|hit hits].
  - cbn [foldl]. intros Hrun. right.
    destruct v; try (injection Hrun as <-; by eexists).
    + destruct (translateListItems _ _ _ _ _ _) as [[newOutput tv]| |]; try done.
      cbn in Hrun. injection Hrun as <-. by eexists.
    + destruct (runJsonTranslation _ _ _ _) as [[parsed ?]| |]; try done.
      cbn in Hrun. injection Hrun as <-. by eexists.
  - intros [= <-]. left. by eexists _, _.
Qed.

Lemma writesKey_spec (k : string) (st st' : Translating) :
  writesKey k st st' →
  (∀ x, x ∈ keysOf (translatedInput st') ↔ x = k ∨ x ∈ keysOf (translatedInput st)) ∧
  unmappedIsInput st' = unmappedIsInput st && negb (String.eqb k "unmapped") ∧
  (∀ x, x ≠ k → lookupKey x (parsedInput st') = lookupKey x (parsedInput st)) ∧
  (∀ x, x ∈ keysOf (parsedInput st) → x ∈ keysOf (parsedInput st')).
Proof.
  intros [(hit & hits & ->)|(v & ->)].
  - assert (∀ v, writesKey k st (putFound st k v) →
              (∀ x, x ∈ keysOf (translatedInput (putFound st k v))
                    ↔ x = k ∨ x ∈ keysOf (translatedInput st)) ∧
              unmappedIsInput (putFound st k v)
              = unmappedIsInput st && negb (String.eqb k "unmapped") ∧
              (∀ x, x ≠ k → lookupKey x (parsedInput (putFound st k v))
                            = lookupKey x (parsedInput st)) ∧
              (∀ x, x ∈ keysOf (parsedInput st)
                    → x ∈ keysOf (parsedInput (putFound st k v)))) as Hone.
    { intros v _. cbn [putFound putTranslated translatedInput parsedInput unmappedIsInput]. split; [intros x; apply elem_of_keysOf_setKey|].
      split; [done|]. split.
      - intros x Hx. by apply lookupKey_setKey_ne.
      - intros x Hx. apply elem_of_keysOf_setKey. by right. }
    clear Hone. revert st hit. induction hits as [|next hits IH]; intros st hit.
    + cbn [putFound putTranslated translatedInput parsedInput unmappedIsInput]. split; [intros x; apply elem_of_keysOf_setKey|].
      split; [done|]. split.
      * intros x Hx. by apply lookupKey_setKey_ne.
      * intros x Hx. apply elem_of_keysOf_setKey. by right.
    + change (foldl (λ st v, putFound st k v) st (hit :: next :: hits))
        with (foldl (λ st v, putFound st k v) (putFound st k hit) (next :: hits)).
      destruct (IH (putFound st k hit) next) as (Hkeys & Hunmapped & Hother & Hkept).
      split; [|split; [|split]].
      * intros x. rewrite Hkeys. cbn [putFound putTranslated translatedInput parsedInput unmappedIsInput]. rewrite elem_of_keysOf_setKey. tauto.
      * rewrite Hunmapped. cbn [putFound putTranslated translatedInput parsedInput unmappedIsInput]. by destruct (unmappedIsInput st), (String.eqb _ _).
      * intros x Hx. rewrite Hother by done. cbn [putFound putTranslated translatedInput parsedInput unmappedIsInput]. by apply lookupKey_setKey_ne.
      * intros x Hx. apply Hkept. cbn [putFound putTranslated translatedInput parsedInput unmappedIsInput]. apply elem_of_keysOf_setKey. by right.
  - cbn [putFound putTranslated translatedInput parsedInput unmappedIsInput]. split; [intros x; apply elem_of_keysOf_setKey|]. done.
Qed.

Lemma translateEntries_writes `{GoLib} fuel inputValue entries :
  ∀ st st',
    translateEntries fuel inputValue entries st = Ret st' →
    (∀ x, x ∈ keysOf (translatedInput st')
          ↔ x ∈ keysOf entries ∨ x ∈ keysOf (translatedInput st)) ∧
    unmappedIsInput st'
    = unmappedIsInput st && bool_decide ("unmapped" ∉ keysOf entries) ∧
    (∀ x, x ∉ keysOf entries →
          lookupKey x (parsedInput st') = lookupKey x (parsedInput st)) ∧
    (∀ x, x ∈ keysOf (parsedInput st) → x ∈ keysOf (parsedInput st')).
Proof.
  induction entries as [|[k v] later IH]; intros st st' Hrun.
  - injection Hrun as <-. split; [|split; [|done]].
    + intros x. split; [by right|]. by intros [?%elem_of_nil|].
    + rewrite bool_decide_eq_true_2; [by rewrite andb_true_r|]. apply not_elem_of_nil.
  - cbn [translateEntries] in Hrun.
    destruct (translateEntry fuel inputValue st k v) as [st1| |] eqn:Hentry; try done.
    cbn [mbind Run_bind] in Hrun.
    destruct (writesKey_spec k st st1 (translateEntry_writesKey _ _ _ _ _ _ Hentry))
      as (Hkeys1 & Hunmapped1 & Hother1 & Hkept1).
    destruct (IH st1 st' Hrun) as (Hkeys & Hunmapped & Hother & Hkept).
    change (keysOf ((k, v) :: later)) with (k :: keysOf later).
    split; [|split; [|split]].
    + intros x. rewrite Hkeys, Hkeys1, elem_of_cons. tauto.
    + rewrite Hunmapped, Hunmapped1.
      destruct (String.eqb_spec k "unmapped") as [->|Hk]; cbn [negb].
      * rewrite (bool_decide_eq_false_2 ("unmapped" ∉ "unmapped" :: _)); [|].
        -- by rewrite !andb_false_r.
        -- intros Hnot. apply Hnot, list_elem_of_here.
      * rewrite andb_true_r. f_equal. apply bool_decide_ext.
        rewrite not_elem_of_cons. naive_solver.
    + intros x [Hx Hlater]%not_elem_of_cons. rewrite Hother by done. by apply Hother1.
    + intros x Hx. by apply Hkept, Hkept1.
Qed.

(** X14. When [runJsonTranslation] returns for a template, the output has
    the keys of the template and no other, but for [unmapped] when the
    original is kept. Kept and not named by the template, [unmapped] holds
    the modified input, the second document returned. The modified input
    has every key of the input, and holds what the input holds at every
    key the template does not name. *)
Theorem runJsonTranslation_keys `{GoLib} (fuel : nat) (inputValue entries : GoMap)
    (keepOriginal : bool) (translated modified : GoMap) :
  runJsonTranslation fuel inputValue (JObj entries) keepOriginal
  = Ret (translated, modified) →
  (∀ k, k ∈ keysOf translated
        ↔ k ∈ keysOf entries ∨ (keepOriginal = true ∧ k = "unmapped")) ∧
  (keepOriginal = true → "unmapped" ∉ keysOf entries →
   lookupKey "unmapped" translated = Some (JObj modified)) ∧
  (∀ k, k ∉ keysOf entries → lookupKey k modified = lookupKey k inputValue) ∧
  (∀ k, k ∈ keysOf inputValue → k ∈ keysOf modified).
Proof.
  rewrite runJsonTranslation_obj.
  destruct (translateEntries _ _ _ _) as [st'| |] eqn:Hrun; try done.
  cbn [mbind Run_bind]. unfold marshalled. intros [= <- <-].
  destruct (translateEntries_writes _ _ _ _ _ Hrun)
    as (Hkeys & Hunmapped & Hother & Hkept).
  cbn [startTranslating translatedInput unmappedIsInput parsedInput] in *.
  split; [|split; [|done]].
  - intros k. rewrite Hunmapped. destruct keepOriginal; cbn [andb].
    + case_bool_decide as Hnamed.
      * rewrite elem_of_keysOf_setKey, Hkeys.
        change (keysOf [("unmapped", JNull)]) with ["unmapped"].
        rewrite list_elem_of_singleton. naive_solver.
      * rewrite Hkeys. change (keysOf [("unmapped", JNull)]) with ["unmapped"].
        rewrite list_elem_of_singleton. naive_solver.
    + rewrite Hkeys. change (keysOf (@nil (string * Json))) with (@nil string).
      rewrite elem_of_nil. naive_solver.
  - intros -> Hnamed. rewrite Hunmapped. cbn [andb].
    rewrite bool_decide_eq_true_2 by done. apply lookupKey_setKey_eq.
Qed.

Lemma runJsonTranslation_keys_witness :
  ∃ translated modified,
    runJsonTranslation (H := refLib) 0 kmsSource
      (JObj [("n", JStr "id"); ("on", JStr "secret.live")]) true
    = Ret (translated, modified) ∧
    lookupKey "unmapped" translated = Some (JObj modified) ∧
    lookupKey "n" modified = Some (JNum 7).
Proof.
  eexists _, _. split; [vm_compute; reflexivity|].
  split; [|reflexivity].
  eapply (runJsonTranslation_keys (H := refLib) 0 kmsSource
            [("n", JStr "id"); ("on", JStr "secret.live")] true);
    [vm_compute; reflexivity|reflexivity|].
  apply (bool_decide_unpack _). vm_compute. exact I.
Defined.

Lemma translateEntries_return `{GoLib} (fuel : nat) (inputValue : GoMap)
    (entries : GoMap) :
  Forall (λ kv, alwaysReturns fuel kv.2) entries →
  forallb (λ kv, listFree kv.2) entries = true →
  ∀ st, ∃ st', translateEntries fuel inputValue entries st = Ret st'.
Proof.
  induction 1 as [|[k v] later Hv _ IH]; intros Hfree st; [by eexists|].
  cbn [forallb snd] in Hfree. apply andb_true_iff in Hfree as [Hvfree Hlater].
  cbn [translateEntries snd] in *.
  assert (∃ st1, translateEntry fuel inputValue st k v = Ret st1) as [st1 ->].
  { unfold translateEntry.
    destruct (foundInInput (parsedInput st) v) as [|hit hits]; [|by eexists].
    cbn [foldl]. destruct v as [| | | | |m]; try done; try by eexists.
    destruct (Hv Hvfree inputValue false) as [[parsed ?] ->]. by eexists. }
  cbn [mbind Run_bind]. by apply IH.
Qed.

(** X15. For a template without lists, at any depth, [runJsonTranslation]
    returns its two documents for every input: no path that does not
    resolve, no type of value and no nesting of the template makes it
    fail. *)
Theorem runJsonTranslation_returns `{GoLib} (fuel : nat) (translation : Json)
    (inputValue : GoMap) (keepOriginal : bool) :
  listFree translation = true →
  ∃ translated modified,
    runJsonTranslation fuel inputValue translation keepOriginal
    = Ret (translated, modified).
Proof.
  intros Hfree.
  enough (alwaysReturns fuel translation) as Hreturns.
  { destruct (Hreturns Hfree inputValue keepOriginal) as [[translated modified] ->].
    by eexists _, _. }
  clear. induction translation as [| | | |l _|m IH] using Json_ind';
    intros Hfree inputValue keepOriginal; try done; try by eexists.
  rewrite runJsonTranslation_obj.
  destruct (translateEntries_return fuel inputValue m IH Hfree
              (startTranslating inputValue keepOriginal)) as [st' ->].
  by eexists.
Qed.

Lemma runJsonTranslation_returns_witness :
  ∃ translated modified,
    runJsonTranslation (H := refLib) 0 kmsSource
      (JObj [("a", JStr "no.such.path"); ("b", JObj [("c", JStr "$secret.name")]);
             ("d", JNum 3); ("e", JNull)]) true
    = Ret (translated, modified).
Proof. by apply runJsonTranslation_returns. Defined.

(** ** References with a dollar sign *)

Lemma allRefBytes_append (a b : string) :
  allRefBytes (a +:+ b) = allRefBytes a && allRefBytes b.
Proof. induction a as [|c a IH]; [done|]. simpl. by rewrite IH, andb_assoc. Qed.

Lemma allRefBytes_no_byte (c : Ascii.ascii) (s : string) :
  isRefByte c = false → allRefBytes s = true → Contains s (String c "") = false.
Proof.
  intros Hc. induction s as [|x s IH]; [done|]. cbn [allRefBytes].
  intros [Hx Hs]%andb_true_iff. rewrite Contains_byte_cons, IH by done.
  rewrite bool_decide_eq_false_2; [done|]. intros ->. by rewrite Hc in Hx.
Qed.

Lemma rev_app_spec (a acc : string) : String.rev_app a acc = String.rev a +:+ acc.
Proof. unfold String.rev. by rewrite rev_app_append. Qed.

Lemma rev_append (a b : string) :
  String.rev (a +:+ b) = String.rev b +:+ String.rev a.
Proof.
  unfold String.rev. revert b. generalize EmptyString at 1 3.
  induction a as [|c a IH]; intros acc b.
  - cbn. apply rev_app_spec.
  - cbn. rewrite IH. done.
Qed.

Lemma Join_dotted (k : string) (more : list string) :
  Join (k :: more) "." = k +:+ dotted more.
Proof.
  revert k. induction more as [|k' more IH]; intros k.
  - cbn. by rewrite append_empty_r.
  - rewrite Join_cons, IH. done.
Qed.

Lemma refKey_spec (k : string) :
  refKey k = true → ∃ c r, k = String c r ∧ isRefByte c = true ∧ allRefBytes r = true.
Proof.
  unfold refKey. destruct k as [|c r]; [done|]. cbn.
  intros [? ?]%andb_true_iff. by eexists _, _.
Qed.

Lemma spanRef_key (k rest : string) :
  allRefBytes k = true →
  match rest with String c _ => isRefByte c = false | EmptyString => True end →
  spanRef (k +:+ rest) = (k, rest).
Proof.
  intros Hk Hrest. induction k as [|c k IH].
  - cbn. destruct rest as [|c r]; [done|]. cbn. by rewrite Hrest.
  - cbn in Hk. apply andb_true_iff in Hk as [Hc Hk]. cbn. by rewrite Hc, IH.
Qed.

Lemma spanGroups_bytes (afterDot : bool) (k rest : string) :
  allRefBytes k = true → k ≠ "" →
  spanGroups afterDot (k +:+ rest)
  = (k +:+ (spanGroups false rest).1, (spanGroups false rest).2).
Proof.
  intros Hk Hne. revert afterDot. induction k as [|c k IH]; intros afterDot; [done|].
  cbn in Hk. apply andb_true_iff in Hk as [Hc Hk]. simpl String.append.
  cbn [spanGroups]. unfold isRefByteOrHash. rewrite Hc. cbn [orb].
  destruct k as [|c' k'].
  - cbn [String.append]. by destruct (spanGroups false rest).
  - rewrite IH by done. done.
Qed.

Lemma spanGroups_dotted (more : list string) :
  Forall (λ k, refKey k = true) more →
  spanGroups false (dotted more) = (dotted more, "").
Proof.
  induction 1 as [|k more Hk _ IH]; [done|].
  destruct (refKey_spec k Hk) as (c & r & -> & Hc & Hr).
  cbn [dotted foldr]. fold (dotted more).
  change ("." +:+ String c r +:+ dotted more)
    with (String dotByte (String c r +:+ dotted more)).
  cbn [spanGroups]. change (isRefByteOrHash dotByte) with false.
  change ((Ascii.N_of_ascii dotByte =? 46)%N) with true. cbn [negb andb]. cbv iota.
  rewrite spanGroups_bytes; [|by cbn; rewrite Hc|done].
  by rewrite IH.
Qed.

Lemma FindAllFrom_skip (s : string) (n : nat) :
  (String.length s ≤ n)%nat → FindAllFrom n s = [].
Proof.
  revert n. induction s as [|c s IH]; intros n Hn; [done|].
  cbn in Hn. destruct n as [|n]; [lia|]. cbn. apply IH. lia.
Qed.

Lemma dotted_head (more : list string) :
  match dotted more with String c _ => isRefByte c = false | EmptyString => True end.
Proof. by destruct more. Qed.

Lemma FindAllFrom_dollar (s : string) :
  FindAllFrom 0 (String (Ascii.ascii_of_nat 36) s)
  = match matchReference s with
    | Some body => String (Ascii.ascii_of_nat 36) body
                   :: FindAllFrom (String.length body) s
    | None => FindAllFrom 0 s
    end.
Proof. reflexivity. Qed.

Lemma FindAllString_reference (k : string) (more : list string) :
  Forall (λ k, refKey k = true) (k :: more) →
  FindAllString ("$" +:+ Join (k :: more) ".") = ["$" +:+ Join (k :: more) "."].
Proof.
  intros [Hk Hmore]%Forall_cons. rewrite Join_dotted.
  destruct (refKey_spec k Hk) as (c & r & -> & Hc & Hr).
  unfold FindAllString.
  change ("$" +:+ String c r +:+ dotted more)
    with (String (Ascii.ascii_of_nat 36) (String c r +:+ dotted more)).
  rewrite FindAllFrom_dollar. unfold matchReference.
  rewrite spanRef_key; [|by cbn; rewrite Hc|apply dotted_head].
  rewrite spanGroups_dotted by done. cbn [fst].
  by rewrite FindAllFrom_skip.
Qed.

(** [strings.TrimSpace] stops at a byte of ASCII that is no white space. *)
Lemma isSpace2_ascii (a b : Ascii.ascii) :
  (Ascii.N_of_ascii a < 128)%N → isSpace2 a b = false ∧ isSpace2 b a = false.
Proof.
  intros Ha. unfold isSpace2.
  destruct (N.eqb_spec (Ascii.N_of_ascii a) 194); [lia|].
  destruct (N.eqb_spec (Ascii.N_of_ascii a) 133); [lia|].
  destruct (N.eqb_spec (Ascii.N_of_ascii a) 160); [lia|].
  split; [done|]. apply andb_false_r.
Qed.

Lemma isSpace3_ascii (a b c : Ascii.ascii) :
  (Ascii.N_of_ascii a < 128)%N → isSpace3 a b c = false ∧ isSpace3 c b a = false.
Proof.
  intros Ha. unfold isSpace3.
  destruct (N.eqb_spec (Ascii.N_of_ascii a) 225); [lia|].
  destruct (N.eqb_spec (Ascii.N_of_ascii a) 226); [lia|].
  destruct (N.eqb_spec (Ascii.N_of_ascii a) 227); [lia|].
  destruct (N.eqb_spec (Ascii.N_of_ascii a) 128); [lia|].
  destruct (N.eqb_spec (Ascii.N_of_ascii a) 159); [lia|].
  destruct (N.eqb_spec (Ascii.N_of_ascii a) 168); [lia|].
  destruct (N.eqb_spec (Ascii.N_of_ascii a) 169); [lia|].
  destruct (N.eqb_spec (Ascii.N_of_ascii a) 175); [lia|].
  destruct (N.leb_spec 128 (Ascii.N_of_ascii a)); [lia|].
  split; [done|]. by rewrite !andb_false_r.
Qed.

Lemma trimLeftSpace_ascii (c : Ascii.ascii) (r : string) :
  (Ascii.N_of_ascii c < 128)%N → isGoSpace c = false →
  trimLeftSpace (String c r) = String c r.
Proof.
  intros Hc Hspace. cbn [trimLeftSpace]. rewrite Hspace.
  destruct r as [|b r2]; [done|]. rewrite (proj1 (isSpace2_ascii c b Hc)).
  destruct r2 as [|a r3]; [done|]. by rewrite (proj1 (isSpace3_ascii c b a Hc)).
Qed.

Lemma trimRightSpace_ascii (c : Ascii.ascii) (r : string) :
  (Ascii.N_of_ascii c < 128)%N → isGoSpace c = false →
  trimRightSpace (String c r) = String c r.
Proof.
  intros Hc Hspace. cbn [trimRightSpace]. rewrite Hspace.
  destruct r as [|b r2]; [done|]. rewrite (proj2 (isSpace2_ascii c b Hc)).
  destruct r2 as [|a r3]; [done|]. by rewrite (proj2 (isSpace3_ascii c b a Hc)).
Qed.

Lemma isRefByte_not_space (c : Ascii.ascii) :
  isRefByte c = true → (Ascii.N_of_ascii c < 128)%N ∧ isGoSpace c = false.
Proof. destruct c as [[] [] [] [] [] [] [] []]; vm_compute; intros; split; congruence. Qed.

Lemma dotted_app (a b : list string) : dotted (a ++ b) = dotted a +:+ dotted b.
Proof.
  induction a as [|k a IH]; [done|]. cbn [app dotted foldr]. fold (dotted (a ++ b)).
  fold (dotted a). rewrite IH. by rewrite !append_assoc.
Qed.

Lemma path_last_key (k : string) (more : list string) :
  Forall (λ k, refKey k = true) (k :: more) →
  ∃ front last, Join (k :: more) "." = front +:+ last ∧ refKey last = true.
Proof.
  intros Hkeys. rewrite Join_dotted.
  destruct (decide (more = [])) as [->|Hmore].
  - exists "", k. cbn. rewrite append_empty_r. split; [done|]. by inversion Hkeys.
  - destruct (exists_last Hmore) as (init & last & ->).
    exists (k +:+ dotted init +:+ "."), last. split.
    + rewrite dotted_app. cbn [dotted foldr]. by rewrite append_empty_r, !append_assoc.
    + apply Forall_cons in Hkeys as [_ Hkeys]. apply Forall_app in Hkeys as [_ Hlast].
      by inversion Hlast.
Qed.

Lemma rev_refKey (k rest : string) :
  refKey k = true →
  ∃ c r, String.rev k +:+ rest = String c r ∧ isRefByte c = true.
Proof.
  intros (c & r & -> & Hc & Hr)%refKey_spec.
  assert (allRefBytes (String.rev (String c r)) = true) as Hall.
  { assert (∀ s, allRefBytes s = true → allRefBytes (String.rev s) = true) as Hrev.
    { induction s as [|x s IH]; [done|]. cbn [allRefBytes].
      intros [Hx Hs]%andb_true_iff.
      change (String x s) with (String x "" +:+ s).
      rewrite rev_append, allRefBytes_append, IH by done. cbn. by rewrite Hx. }
    apply Hrev. cbn. by rewrite Hc. }
  change (String c r) with (String c "" +:+ r) in Hall |- *.
  rewrite rev_append in Hall |- *.
  destruct (String.rev r +:+ String.rev (String c "")) as [|c' r'] eqn:Hrev.
  - by destruct (String.rev r).
  - cbn in Hall. apply andb_true_iff in Hall as [Hc' _]. by eexists _, _.
Qed.

Lemma prefix_refl (s : string) : String.prefix s s = true.
Proof.
  induction s as [|c s IH]; [done|]. cbn. by destruct (Ascii.ascii_dec c c).
Qed.

Lemma ReplaceFrom_skip (old new s : string) (n : nat) :
  (String.length s ≤ n)%nat → ReplaceFrom old new n s = "".
Proof.
  revert n. induction s as [|c s IH]; intros n Hn; [done|].
  cbn in Hn. destruct n as [|n]; [lia|]. cbn. apply IH. lia.
Qed.

Lemma ReplaceAll_whole (s new : string) : s ≠ "" → ReplaceAll s s new = new.
Proof.
  destruct s as [|c s]; [done|]. intros _. unfold ReplaceAll. cbn [ReplaceFrom].
  rewrite prefix_refl, ReplaceFrom_skip by (cbn; lia). apply append_empty_r.
Qed.

Section reference.
Variables (k1 k2 : string) (more : list string).
Hypothesis ref_keys : Forall (λ k, refKey k = true) (k1 :: k2 :: more).

Local Abbreviation path := (Join (k1 :: k2 :: more) ".").

Lemma path_no_byte (c : Ascii.ascii) :
  isRefByte c = false → c ≠ dotByte → Contains path (String c "") = false.
Proof using ref_keys.
  intros Hc Hdot. apply Contains_Join_byte; [done|].
  eapply Forall_impl; [exact ref_keys|]. intros k Hk. cbn in Hk.
  apply allRefBytes_no_byte; [done|]. unfold refKey in Hk.
  by apply andb_true_iff in Hk as [_ ?].
Qed.

Lemma cleanKey_path : cleanKey path = path.
Proof using ref_keys.
  unfold cleanKey.
  rewrite (Contains_longer (Ascii.ascii_of_nat 91) "]") by (by apply path_no_byte).
  change strDquote with (String (Ascii.ascii_of_nat 34) "").
  by rewrite (path_no_byte (Ascii.ascii_of_nat 34)).
Qed.

Lemma cleanKey_reference : cleanKey ("$" +:+ path) = "$" +:+ path.
Proof using ref_keys.
  unfold cleanKey. change ("$" +:+ path) with (String (Ascii.ascii_of_nat 36) path).
  rewrite (Contains_longer (Ascii.ascii_of_nat 91) "]").
  2:{ rewrite Contains_byte_cons, path_no_byte by done. done. }
  change strDquote with (String (Ascii.ascii_of_nat 34) "").
  by rewrite Contains_byte_cons, path_no_byte.
Qed.

Lemma getParsedMatch_reference : getParsedMatch ("$" +:+ path) = path.
Proof using ref_keys.
  destruct (path_last_key k1 (k2 :: more) ref_keys) as (front & last & Hpath & Hlast).
  unfold getParsedMatch.
  assert (TrimSpace ("$" +:+ path) = "$" +:+ path) as ->.
  { unfold TrimSpace.
    change ("$" +:+ path) with (String (Ascii.ascii_of_nat 36) path).
    rewrite trimLeftSpace_ascii by done.
    change (String (Ascii.ascii_of_nat 36) path) with ("$" +:+ path).
    rewrite Hpath. change ("$" +:+ front +:+ last) with (("$" +:+ front) +:+ last).
    rewrite rev_append.
    destruct (rev_refKey last (String.rev ("$" +:+ front)) Hlast) as (c & r & Heq & Hc).
    apply isRefByte_not_space in Hc as [Hc Hspace].
    rewrite Heq, trimRightSpace_ascii by done.
    rewrite <- Heq, <- rev_append. apply rev_involutive. }
  assert (HasPrefix ("$" +:+ path) "$" = true) as Hdollar.
  { unfold HasPrefix. change ("$" +:+ path) with (String (Ascii.ascii_of_nat 36) path).
    change "$" with (String (Ascii.ascii_of_nat 36) ""). by rewrite prefix_byte. }
  unfold TrimPrefix. rewrite Hdollar.
  change (dropBytes (String.length "$") ("$" +:+ path)) with path.
  assert (HasSuffix path "." = false) as ->; [|done].
  unfold HasSuffix. rewrite Hpath, rev_append.
  destruct (rev_refKey last (String.rev front) Hlast) as (c & r & -> & Hc).
  change (String.rev ".") with (String dotByte "").
  rewrite prefix_byte. apply bool_decide_eq_false_2. intros <-. done.
Qed.

End reference.

(** X16. In a template value, a dollar sign in front of a path of two keys
    or more, each made of letters, digits, [_], [@] and [-], changes
    nothing: the value is resolved as the path without the dollar sign,
    to what [recurseFindKey] finds for it, and to the empty string when
    that fails. *)
Theorem translateString_dollar_path `{GoLib} (parsedInput : GoMap) (k1 k2 : string)
    (more : list string) :
  Forall (λ k, refKey k = true) (k1 :: k2 :: more) →
  let path := Join (k1 :: k2 :: more) "." in
  translateString parsedInput ("$" +:+ path) = translateString parsedInput path ∧
  translateString parsedInput path
  = JStr (recursedOf (recurseFindKey (JObj parsedInput) path)).
Proof.
  intros Hkeys path.
  assert (translateString parsedInput path
          = JStr (recursedOf (recurseFindKey (JObj parsedInput) path))) as Hplain.
  { unfold translateString. subst path. rewrite Contains_Join_dot.
    change "$" with (String (Ascii.ascii_of_nat 36) "").
    rewrite (path_no_byte k1 k2 more Hkeys (Ascii.ascii_of_nat 36)) by done.
    by rewrite cleanKey_path. }
  split; [|done]. rewrite Hplain. unfold translateString.
  change ("$" +:+ path) with (String (Ascii.ascii_of_nat 36) path).
  change "." with (String dotByte ""). rewrite Contains_byte_cons.
  change (String dotByte "") with ".". subst path. rewrite Contains_Join_dot.
  rewrite orb_true_r.
  change "$" with (String (Ascii.ascii_of_nat 36) "") at 1.
  rewrite Contains_byte_cons, bool_decide_eq_true_2 by done. cbn [orb].
  change (String (Ascii.ascii_of_nat 36) (Join (k1 :: k2 :: more) "."))
    with ("$" +:+ Join (k1 :: k2 :: more) ".").
  rewrite cleanKey_reference, FindAllString_reference by done.
  cbn [foldl]. rewrite getParsedMatch_reference by done.
  by rewrite ReplaceAll_whole.
Qed.

Lemma translateString_dollar_path_witness :
  Forall (λ k, refKey k = true) ["secret"; "version"; "value"] ∧
  translateString (H := refLib) kmsSource "$secret.version.value" = JStr "frikky".
Proof.
  assert (Forall (λ k, refKey k = true) ["secret"; "version"; "value"]) as Hkeys
    by (by repeat constructor).
  split; [done|].
  pose proof (translateString_dollar_path (H := refLib) kmsSource "secret" "version"
                ["value"] Hkeys) as Hpath.
  cbv zeta in Hpath. destruct Hpath as [Hdollar Hplain].
  etrans; [exact Hdollar|]. etrans; [exact Hplain|]. vm_compute. reflexivity.
Defined.

(** ** List alignment below the first level: the index of the item *)

Lemma prefix_append (a b s : string) :
  String.prefix (a +:+ b) s = true → String.prefix a s = true.
Proof.
  revert s. induction a as [|c a IH]; intros s; [by destruct s|].
  destruct s as [|x s]; [done|]. cbn.
  destruct (Ascii.ascii_dec c x); [apply IH|done].
Qed.

Lemma Contains_shorter (a b s : string) :
  Contains s (a +:+ b) = true → Contains s a = true.
Proof.
  induction s as [|x s IH]; cbn [Contains].
  - rewrite !orb_false_r. apply prefix_append.
  - intros [Hhere|Hlater]%orb_true_iff; apply orb_true_iff.
    + left. by eapply prefix_append.
    + right. by apply IH.
Qed.

Lemma length_SplitFrom (sep acc s : string) (skip : nat) :
  (1 ≤ length (SplitFrom sep skip acc s))%nat.
Proof.
  revert skip acc. induction s as [|c s IH]; intros skip acc; cbn [SplitFrom].
  - cbn. lia.
  - destruct skip; [|apply IH].
    destruct (String.prefix sep (String c s)); [cbn; lia|apply IH].
Qed.

Lemma length_Split_Contains (s sep : string) :
  sep ≠ "" → Contains s sep = true → (2 ≤ length (Split s sep))%nat.
Proof.
  intros Hsep. unfold Split.
  enough (∀ acc, Contains s sep = true → (2 ≤ length (SplitFrom sep 0 acc s))%nat)
    as Hany by apply Hany.
  induction s as [|c s IH]; intros acc; cbn [Contains].
  - rewrite orb_false_r. by destruct sep.
  - intros Hs. cbn [SplitFrom].
    destruct (String.prefix sep (String c s)) eqn:Hhere.
    + cbn [length]. pose proof (length_SplitFrom sep "" s (String.length sep - 1)). lia.
    + by apply IH.
Qed.

Lemma setNestedMap_fuel (m : GoMap) (path : string) (value : Json) :
  setNestedMap m path value ≠ OutOfFuel.
Proof.
  unfold setNestedMap. destruct (foldl _ _ _) as [nested found]. by destruct nested.
Qed.

Section placed.
Context `{GoLib}.
Variables (firstItem : Json) (newParentKey childKey : string).

Lemma placeListValue_length (modificationList merged : list Json)
    (updated updated' : bool) (cnt : nat) (listValue : string) :
  (cnt ≤ length modificationList)%nat →
  placeListValue firstItem newParentKey childKey (modificationList, updated)
                 cnt listValue = Ret (merged, updated') →
  length merged = Nat.max (length modificationList) (S cnt).
Proof.
  intros Hcnt. unfold placeListValue.
  set (extended := if (length modificationList <=? cnt)%nat then _ else _).
  assert (length extended = Nat.max (length modificationList) (S cnt)) as Hlength.
  { subst extended. destruct (Nat.leb_spec (length modificationList) cnt).
    - rewrite length_app. cbn. lia.
    - lia. }
  destruct (SplitN _ _ _ !! _) as [newKey|]; [|done].
  destruct (mapAt extended cnt) as [newModList| |]; try done. cbn [mbind Run_bind].
  destruct (negb _); [by intros [= <- _]|].
  destruct (setNestedMap _ _ _) as [[placed found]| |]; try done.
  cbn [mbind Run_bind]. intros [= <- _]. by rewrite length_insert.
Qed.

Lemma placeListValue_fuel (st : list Json * bool) (cnt : nat) (listValue : string) :
  placeListValue firstItem newParentKey childKey st cnt listValue ≠ OutOfFuel.
Proof.
  destruct st as [modificationList updated]. unfold placeListValue.
  destruct (SplitN _ _ _ !! _) as [newKey|]; [|done].
  unfold mapAt. destruct (_ !! cnt) as [[]|]; try done. cbn [mbind Run_bind].
  destruct (negb _); [done|].
  destruct (setNestedMap _ _ _) as [[placed found]| |] eqn:Hset; try done.
  by apply setNestedMap_fuel in Hset.
Qed.

Lemma placeListValues_length (unmarshalledList : list string) :
  ∀ (cnt : nat) (modificationList merged : list Json) (updated updated' : bool),
  (cnt ≤ length modificationList)%nat →
  rangeRun (placeListValue firstItem newParentKey childKey) cnt unmarshalledList
           (modificationList, updated) = Ret (merged, updated') →
  length merged = Nat.max (length modificationList) (cnt + length unmarshalledList).
Proof.
  induction unmarshalledList as [|listValue values IH];
    intros cnt modificationList merged updated updated' Hcnt; cbn [rangeRun].
  - intros [= <- _]. cbn. lia.
  - destruct (placeListValue _ _ _ _ _ _) as [[placed updated1]| |] eqn:Hstep; try done.
    cbn [mbind Run_bind]. intros Hrest.
    apply placeListValue_length in Hstep; [|done].
    apply IH in Hrest; [|lia]. cbn [length]. lia.
Qed.

Lemma placeListValues_fuel (unmarshalledList : list string) :
  ∀ (cnt : nat) (st : list Json * bool),
  rangeRun (placeListValue firstItem newParentKey childKey) cnt unmarshalledList st
  ≠ OutOfFuel.
Proof.
  induction unmarshalledList as [|listValue values IH]; intros cnt st; [done|].
  cbn [rangeRun].
  destruct (placeListValue _ _ _ _ _ _) as [st'| |] eqn:Hstep; cbn [mbind Run_bind];
    [apply IH|done|]. by apply placeListValue_fuel in Hstep.
Qed.

End placed.

Lemma updateParent_fuel `{GoLib} (childKey oldParentKey : string)
    (modificationList translatedInput : list Json) :
  updateParent childKey oldParentKey modificationList translatedInput ≠ OutOfFuel.
Proof.
  unfold updateParent.
  assert (updateParentLoop childKey oldParentKey modificationList translatedInput
          ≠ OutOfFuel) as Hloop.
  { induction translatedInput as [|item rest IH]; [done|]. cbn [updateParentLoop].
    destruct item as [| | | | |newMap]; try done.
    destruct (negb _).
    - destruct (updateParentLoop _ _ _ rest); try done.
    - destruct (setNestedMap _ _ _) as [[placed found]| |] eqn:Hset; try done.
      by apply setNestedMap_fuel in Hset. }
  destruct (updateParentLoop _ _ _ _) as [[updated|]| |]; try done.
  cbn [mbind Run_bind].
  destruct (setNestedMap _ _ _) as [[placed found]| |] eqn:Hset; try done.
  by apply setNestedMap_fuel in Hset.
Qed.

Lemma alignField_index `{GoLib} (translatedInput : list Json) (parentKey : string)
    (parsedValues : GoMap) (listDepth : Z) (childIndex : nat)
    (childKey val : string) :
  0 < listDepth → Contains val "schemaless_list[" = true →
  (1 ≤ childIndex)%nat → (length (resolvedValues val) ≤ childIndex)%nat →
  alignField translatedInput parentKey parsedValues listDepth childIndex childKey val
  = Panic.
Proof.
  intros Hdepth Hmarker Hfirst Hvalues. unfold alignField.
  pose proof (length_Split_Contains val "schemaless_list" ltac:(done)
                (Contains_shorter "schemaless_list" "[" val Hmarker)) as Hsplit.
  destruct (Nat.ltb_spec (length (Split val "schemaless_list")) 2); [lia|].
  fold (resolvedValues val). apply Z.ltb_lt in Hdepth. rewrite Hdepth.
  unfold placeListValues.
  destruct (rangeRun _ _ _ _) as [[merged updated]| |] eqn:Hrun; [|done|].
  - apply placeListValues_length in Hrun; [|cbn; lia]. cbn [length] in Hrun.
    assert (mapAt merged childIndex = Panic) as Hitem.
    { unfold mapAt. rewrite lookup_ge_None_2; [done|lia]. }
    cbn [mbind Run_bind]. destruct updated; [by rewrite Hitem|].
    cbn [mbind Run_bind].
    destruct (updateParent _ _ _ _) as [updated| |] eqn:Hparent; [|done|].
    + cbn [mbind Run_bind]. by rewrite Hitem.
    + by apply updateParent_fuel in Hparent.
  - by apply placeListValues_fuel in Hrun.
Qed.

(** X17. Called for the item at an index of one or more of a list below
    the first level, [handleMultiListItems] panics on a field that holds
    the marker with fewer values than the index plus one: the merged list
    starts from this item alone and grows to the number of values, and is
    then read at the index of the item, out of range. *)
Theorem handleMultiListItems_index_out_of_range `{GoLib} (fuel : nat)
    (translatedInput : list Json) (parentKey childKey val : string)
    (listDepth : Z) (childIndex : nat) :
  0 < listDepth →
  Contains val "schemaless_list[" = true →
  (1 ≤ childIndex)%nat →
  (length (resolvedValues val) ≤ childIndex)%nat →
  handleMultiListItems (S fuel) translatedInput parentKey [(childKey, JStr val)]
                       listDepth childIndex
  = Panic.
Proof.
  intros Hdepth Hmarker Hfirst Hvalues. cbn [handleMultiListItems].
  change (keysOf [(childKey, JStr val)]) with [childKey]. cbn [rangeRun].
  cbn [lookupKey]. rewrite decide_True by done. rewrite Hmarker.
  by rewrite alignField_index.
Qed.

Lemma handleMultiListItems_index_out_of_range_witness :
  handleMultiListItems (H := refLib) 1 [JObj [("k", JList [])]] ".k.#"
                       [("y", JStr markerPQ)] 1 2
  = Panic.
Proof.
  apply (handleMultiListItems_index_out_of_range (H := refLib) 0); [done|done|lia|].
  vm_compute. lia.
Defined.

(** The same out of range index, reached from [runJsonTranslation]: the
    marker comes with the input, in the second item of a list that the
    template copies into an item of a list. *)
Example runJsonTranslation_marker_in_input :
  runJsonTranslation (H := refLib) 3 markedSource copiedList false = Panic.
Proof. vm_compute. reflexivity. Qed.

(** ** Fenced model output *)

Lemma prefix_append_same (a b : string) : String.prefix a (a +:+ b) = true.
Proof.
  induction a as [|c a IH]; [by destruct b|]. cbn.
  by destruct (Ascii.ascii_dec c c).
Qed.

Lemma prefix_cons_same (c : Ascii.ascii) (a b : string) :
  String.prefix (String c a) (String c b) = String.prefix a b.
Proof. cbn. by destruct (Ascii.ascii_dec c c). Qed.

Lemma prefix_cons_other (c x : Ascii.ascii) (a b : string) :
  c ≠ x → String.prefix (String c a) (String x b) = false.
Proof. intros Hc. cbn. by destruct (Ascii.ascii_dec c x). Qed.

Lemma dropBytes_append (a b : string) : dropBytes (String.length a) (a +:+ b) = b.
Proof. induction a as [|c a IH]; [by destruct b|]. done. Qed.

Lemma length_rev_string (s : string) : String.length (String.rev s) = String.length s.
Proof.
  induction s as [|c s IH]; [done|].
  change (String c s) with (String c "" +:+ s).
  rewrite rev_append, !length_append_string, IH. cbn. lia.
Qed.

Lemma HasPrefix_same (a b : string) : HasPrefix (a +:+ b) a = true.
Proof. apply prefix_append_same. Qed.

Lemma TrimPrefix_same (a b : string) : TrimPrefix (a +:+ b) a = b.
Proof. unfold TrimPrefix. by rewrite HasPrefix_same, dropBytes_append. Qed.

Lemma HasSuffix_same (a b : string) : HasSuffix (a +:+ b) b = true.
Proof. unfold HasSuffix. rewrite rev_append. apply prefix_append_same. Qed.

Lemma TrimSuffix_same (a b : string) : TrimSuffix (a +:+ b) b = a.
Proof.
  unfold TrimSuffix. rewrite HasSuffix_same, rev_append.
  rewrite <- (length_rev_string b), dropBytes_append. apply rev_involutive.
Qed.

Lemma Contains_prefix (sub s : string) :
  String.prefix sub s = true → Contains s sub = true.
Proof. intros Hs. destruct s; cbn [Contains]; by rewrite Hs. Qed.

Lemma prefix_longer (sub a b : string) :
  String.prefix sub a = true → String.prefix sub (a +:+ b) = true.
Proof.
  revert a. induction sub as [|c sub IH]; intros a.
  - intros _. by destruct (a +:+ b).
  - destruct a as [|x a]; [done|]. cbn.
    destruct (Ascii.ascii_dec c x); [apply IH|done].
Qed.

Lemma Contains_append_l (sub a b : string) :
  Contains a sub = true → Contains (a +:+ b) sub = true.
Proof.
  induction a as [|x a IH]; cbn [Contains].
  - rewrite orb_false_r. intros Hsub. apply Contains_prefix.
    by apply (prefix_longer sub "" b).
  - intros [Hhere|Hlater]%orb_true_iff; cbn [String.append Contains];
      apply orb_true_iff.
    + left. by apply (prefix_longer sub (String x a) b).
    + right. by apply IH.
Qed.

Lemma Contains_append_r (sub a b : string) :
  Contains b sub = true → Contains (a +:+ b) sub = true.
Proof.
  intros Hb. induction a as [|x a IH]; [done|].
  cbn [String.append Contains]. rewrite IH. apply orb_true_r.
Qed.

Lemma allSpace_append (a b : string) :
  allSpace (a +:+ b) = allSpace a && allSpace b.
Proof. induction a as [|c a IH]; [done|]. cbn. by rewrite IH, andb_assoc. Qed.

Lemma allSpace_rev (s : string) : allSpace (String.rev s) = allSpace s.
Proof.
  induction s as [|c s IH]; [done|].
  change (String c s) with (String c "" +:+ s).
  rewrite rev_append, !allSpace_append, IH. apply andb_comm.
Qed.

Lemma trimLeftSpace_space (ws s : string) :
  allSpace ws = true → trimLeftSpace (ws +:+ s) = trimLeftSpace s.
Proof.
  induction ws as [|c ws IH]; [done|]. cbn.
  intros [-> Hws]%andb_true_iff. by apply IH.
Qed.

Lemma trimRightSpace_space (ws s : string) :
  allSpace ws = true → trimRightSpace (ws +:+ s) = trimRightSpace s.
Proof.
  induction ws as [|c ws IH]; [done|]. cbn [allSpace String.append trimRightSpace].
  intros [-> Hws]%andb_true_iff. by apply IH.
Qed.

Lemma isInkByte_space (c : Ascii.ascii) :
  isInkByte c = true → (Ascii.N_of_ascii c < 128)%N ∧ isGoSpace c = false.
Proof.
  unfold isInkByte. intros [Hc Hspace]%andb_true_iff.
  split; [by apply N.ltb_lt|by apply negb_true_iff].
Qed.

Lemma rev_nonempty (c : Ascii.ascii) (s : string) : String.rev (String c s) ≠ "".
Proof.
  intros Hrev. apply (f_equal String.length) in Hrev.
  by rewrite length_rev_string in Hrev.
Qed.

(** [strings.TrimSpace] takes the white space around a bare text away. *)
Lemma TrimSpace_bare (ws1 body ws2 : string) :
  allSpace ws1 = true → allSpace ws2 = true → isBare body = true →
  TrimSpace (ws1 +:+ body +:+ ws2) = body.
Proof.
  intros Hws1 Hws2 Hbody. unfold TrimSpace. rewrite trimLeftSpace_space by done.
  destruct body as [|first body].
  - cbn [String.append]. rewrite <- (append_empty_r ws2).
    rewrite trimLeftSpace_space by done. done.
  - unfold isBare in Hbody.
    destruct (String.rev (String first body)) as [|last before] eqn:Hrev.
    { by apply rev_nonempty in Hrev. }
    apply andb_true_iff in Hbody as [[Hfirst Hink]%isInkByte_space
                                      [Hlast Hink']%isInkByte_space].
    cbn [String.append]. rewrite trimLeftSpace_ascii by done.
    change (String first (body +:+ ws2)) with (String first body +:+ ws2).
    rewrite rev_append, Hrev, trimRightSpace_space by (by rewrite allSpace_rev).
    rewrite trimRightSpace_ascii by done.
    rewrite <- Hrev. apply rev_involutive.
Qed.

Lemma isBare_ends (s : string) (first last : Ascii.ascii) (after before : string) :
  s = String first after → String.rev s = String last before →
  isInkByte first = true → isInkByte last = true → isBare s = true.
Proof. intros -> Hrev Hfirst Hlast. unfold isBare. by rewrite Hrev, Hfirst, Hlast. Qed.

Lemma isBare_fenced (inner : string) : isBare ("```" +:+ inner +:+ "```") = true.
Proof.
  eapply isBare_ends.
  - reflexivity.
  - rewrite <- (append_assoc "```" inner "```"), rev_append. reflexivity.
  - reflexivity.
  - reflexivity.
Qed.

(** X18. A block in a code fence, with or without the word json on the
    opening fence and with white space around the fences and inside them,
    is unwrapped: [FixTranslationStructure] returns its body, a text that
    starts and ends with an ASCII byte that is no white space. With the
    plain fence the text may not hold a fence with json anywhere. *)
Theorem FixTranslationStructure_unwraps (fence ws1 ws2 body ws3 ws4 : string) :
  allSpace ws1 = true → allSpace ws2 = true →
  allSpace ws3 = true → allSpace ws4 = true →
  isBare body = true →
  let block := fence +:+ ws2 +:+ body +:+ ws3 +:+ "```" in
  fence = "```json" ∨ (fence = "```" ∧ Contains block "```json" = false) →
  FixTranslationStructure (ws1 +:+ block +:+ ws4) = body.
Proof.
  intros Hws1 Hws2 Hws3 Hws4 Hbody block Hfence. unfold FixTranslationStructure.
  assert (block = "```" +:+ (TrimPrefix fence "```" +:+ ws2 +:+ body +:+ ws3) +:+ "```")
    as Hblock.
  { subst block. destruct Hfence as [->|[-> _]]; cbn; by rewrite !append_assoc. }
  assert (TrimSpace (ws1 +:+ block +:+ ws4) = block) as ->.
  { apply TrimSpace_bare; [done..|]. rewrite Hblock. apply isBare_fenced. }
  assert (HasPrefix block "```" = true) as ->.
  { rewrite Hblock. apply HasPrefix_same. }
  assert ((if Contains block "```json" then TrimPrefix block "```json"
           else TrimPrefix block "```")
          = (ws2 +:+ body +:+ ws3) +:+ "```") as ->.
  { destruct Hfence as [->|[-> ->]]; subst block.
    - rewrite Contains_prefix by apply prefix_append_same.
      by rewrite TrimPrefix_same, !append_assoc.
    - by rewrite TrimPrefix_same, !append_assoc. }
  rewrite HasSuffix_same, TrimSuffix_same. by apply TrimSpace_bare.
Qed.

Lemma FixTranslationStructure_unwraps_witness :
  FixTranslationStructure
    (String (Ascii.ascii_of_nat 10) "```json" +:+ String (Ascii.ascii_of_nat 10) "{}"
     +:+ String (Ascii.ascii_of_nat 10) "```" +:+ " ")
  = "{}".
Proof.
  apply (FixTranslationStructure_unwraps "```json" (String (Ascii.ascii_of_nat 10) "")
           (String (Ascii.ascii_of_nat 10) "") "{}"
           (String (Ascii.ascii_of_nat 10) "") " "); try reflexivity.
  by left.
Defined.

(** X19. A block in a plain code fence whose body holds a fence with the
    word json keeps its opening fence: the word is looked for anywhere in
    the text, the fence with it is then not found in front, and only the
    closing fence and the white space behind the body are taken away. *)
Theorem FixTranslationStructure_keeps_fence (ws1 ws2 body ws3 ws4 : string) :
  allSpace ws1 = true → allSpace ws2 = true →
  allSpace ws3 = true → allSpace ws4 = true →
  ws2 ≠ "" → isBare body = true → Contains body "```json" = true →
  FixTranslationStructure
    (ws1 +:+ ("```" +:+ ws2 +:+ body +:+ ws3 +:+ "```") +:+ ws4)
  = "```" +:+ ws2 +:+ body.
Proof.
  intros Hws1 Hws2 Hws3 Hws4 Hnext Hbody Hinner. unfold FixTranslationStructure.
  set (block := "```" +:+ ws2 +:+ body +:+ ws3 +:+ "```").
  assert (block = "```" +:+ (ws2 +:+ body +:+ ws3) +:+ "```") as Hblock.
  { subst block. by rewrite !append_assoc. }
  assert (TrimSpace (ws1 +:+ block +:+ ws4) = block) as ->.
  { apply TrimSpace_bare; [done..|]. rewrite Hblock. apply isBare_fenced. }
  assert (HasPrefix block "```" = true) as -> by apply HasPrefix_same.
  assert (Contains block "```json" = true) as ->.
  { subst block. do 2 apply Contains_append_r. by apply Contains_append_l. }
  assert (TrimPrefix block "```json" = block) as ->.
  { unfold TrimPrefix. destruct ws2 as [|c ws2]; [done|].
    cbn in Hws2. apply andb_true_iff in Hws2 as [Hc _].
    assert (HasPrefix block "```json" = false) as ->; [|done].
    subst block. unfold HasPrefix. cbn [String.append].
    rewrite !prefix_cons_same. apply prefix_cons_other. by intros <-. }
  assert (block = ("```" +:+ ws2 +:+ body +:+ ws3) +:+ "```") as ->.
  { subst block. by rewrite !append_assoc. }
  rewrite HasSuffix_same, TrimSuffix_same.
  assert ("```" +:+ ws2 +:+ body +:+ ws3 = "" +:+ ("```" +:+ ws2 +:+ body) +:+ ws3)
    as -> by (by rewrite !append_assoc).
  apply TrimSpace_bare; [done..|].
  destruct body as [|first body]; [done|]. unfold isBare in Hbody.
  destruct (String.rev (String first body)) as [|last before] eqn:Hrev.
  { by apply rev_nonempty in Hrev. }
  apply andb_true_iff in Hbody as [_ Hlast].
  eapply (isBare_ends _ _ last).
  - reflexivity.
  - rewrite <- (append_assoc "```" ws2 (String first body)), rev_append, Hrev.
    reflexivity.
  - reflexivity.
  - done.
Qed.

Lemma FixTranslationStructure_keeps_fence_witness :
  FixTranslationStructure
    ("```" +:+ " " +:+ "{```json}" +:+ " " +:+ "```")
  = "``` {```json}".
Proof.
  apply (FixTranslationStructure_keeps_fence "" " " "{```json}" " " "");
    try reflexivity. done.
Defined.

(** ** The folder of the files *)

Lemma HasSuffix_byte (s : string) (c : Ascii.ascii) :
  HasSuffix s (String c "") = true → ∃ front, s = front +:+ String c "".
Proof.
  unfold HasSuffix. change (String.rev (String c "")) with (String c "").
  destruct (String.rev s) as [|last before] eqn:Hrev; [done|].
  rewrite prefix_byte. intros Hc%bool_decide_eq_true. subst last.
  exists (String.rev before). rewrite <- (rev_involutive s), Hrev.
  change (String c before) with (String c "" +:+ before). by rewrite rev_append.
Qed.

Lemma getRootFolder_location (Getenv : string → string) :
  ∃ front, ∀ Getenv' : string → string,
    Getenv' "FILE_LOCATION" = Getenv "FILE_LOCATION" →
    getRootFolder Getenv' = front +:+ "/schemaless/".
Proof.
  destruct (Getenv "FILE_LOCATION") as [|c folder] eqn:Hlocation.
  - exists "files". intros Getenv' Hsame. unfold getRootFolder. by rewrite Hsame.
  - destruct (HasSuffix (String c folder) "/") eqn:Hslash.
    + destruct (HasSuffix_byte _ _ Hslash) as [front Hfront]. exists front.
      intros Getenv' Hsame. unfold getRootFolder. rewrite Hsame.
      change (0 <? String.length (String c folder))%nat with true. cbv iota.
      change (String.length (String c folder) =? 0)%nat with false. cbv iota.
      rewrite Hslash. cbn [negb].
      change (0 <? String.length (String c folder))%nat with true. cbv iota.
      by rewrite Hfront, append_assoc.
    + exists (String c folder).
      intros Getenv' Hsame. unfold getRootFolder. rewrite Hsame.
      change (0 <? String.length (String c folder))%nat with true. cbv iota.
      change (String.length (String c folder) =? 0)%nat with false. cbv iota.
      rewrite Hslash. cbn [negb].
      change (0 <? String.length (String c folder))%nat with true. cbv iota.
      by rewrite append_assoc.
Qed.

(** X20. The folder of the engine is fixed by [FILE_LOCATION] alone, and
    its name always ends with [/schemaless/]: the default name is not
    empty, so that [SHUFFLE_FILE_LOCATION] is never looked at. *)
Theorem getRootFolder_by_FILE_LOCATION (Getenv Getenv' : string → string) :
  Getenv "FILE_LOCATION" = Getenv' "FILE_LOCATION" →
  getRootFolder Getenv = getRootFolder Getenv' ∧
  HasSuffix (getRootFolder Getenv) "/schemaless/" = true.
Proof.
  intros Hlocation. destruct (getRootFolder_location Getenv) as [front Hfolder].
  rewrite (Hfolder Getenv), (Hfolder Getenv') by done.
  split; [done|]. apply HasSuffix_same.
Qed.

Lemma getRootFolder_by_FILE_LOCATION_witness :
  getRootFolder (λ name, if String.eqb name "FILE_LOCATION" then "/data" else "")
  = getRootFolder
      (λ name, if String.eqb name "FILE_LOCATION" then "/data" else "/shuffle") ∧
  HasSuffix
    (getRootFolder (λ name, if String.eqb name "FILE_LOCATION" then "/data" else ""))
    "/schemaless/" = true.
Proof. by apply getRootFolder_by_FILE_LOCATION. Defined.

(** ** The flags of a translation *)

(** X21. Nothing behind [skip_substandard] is read: the flag ends the loop
    over the arguments, so that a file name prefix counts only when it
    comes before it. *)
Theorem readFlags_stops_at_skip (ToLower : string → string)
    (before after : list string) (filenamePrefix : string) :
  "skip_substandard" ∉ before →
  readFlags ToLower (before ++ "skip_substandard" :: after) filenamePrefix
  = (true, (readFlags ToLower before filenamePrefix).2).
Proof.
  revert filenamePrefix.
  induction before as [|input before IH]; intros filenamePrefix Hbefore; [done|].
  apply not_elem_of_cons in Hbefore as [Hinput Hbefore].
  cbn [app readFlags].
  destruct (String.eqb_spec input "skip_substandard") as [->|_]; [done|].
  destruct (HasPrefix (ToLower input) "filename_prefix:"); by apply IH.
Qed.

Lemma readFlags_stops_at_skip_witness :
  readFlags asciiToLower ["filename_prefix:a"; "skip_substandard"; "filename_prefix:b"] ""
  = (true, "a").
Proof.
  apply (readFlags_stops_at_skip asciiToLower ["filename_prefix:a"]
           ["filename_prefix:b"] "").
  apply (bool_decide_unpack _). vm_compute. exact I.
Defined.

Lemma readFlags_app (ToLower : string → string) (before rest : list string)
    (filenamePrefix : string) :
  "skip_substandard" ∉ before →
  readFlags ToLower (before ++ rest) filenamePrefix
  = readFlags ToLower rest (readFlags ToLower before filenamePrefix).2.
Proof.
  revert filenamePrefix.
  induction before as [|head before IH]; intros filenamePrefix Hbefore; [done|].
  apply not_elem_of_cons in Hbefore as [Hhead Hbefore].
  cbn [app readFlags].
  destruct (String.eqb_spec head "skip_substandard") as [->|_]; [done|].
  destruct (HasPrefix (ToLower head) "filename_prefix:"); by apply IH.
Qed.

(** X22. The file name prefix is recognised whatever the case of its tag,
    but the tag is taken off only when written in lower case: an
    argument with the tag in another case becomes the prefix as a whole,
    tag included. *)
Theorem readFlags_keeps_tag_in_other_case (ToLower : string → string)
    (before : list string) (input filenamePrefix : string) :
  "skip_substandard" ∉ before →
  input ≠ "skip_substandard" → input ≠ "" →
  HasPrefix (ToLower input) "filename_prefix:" = true →
  HasPrefix input "filename_prefix:" = false →
  readFlags ToLower (before ++ [input]) filenamePrefix = (false, input).
Proof.
  intros Hbefore Hskip Hinput Hlower Hexact. rewrite readFlags_app by done.
  cbn [readFlags]. apply String.eqb_neq in Hskip. rewrite Hskip, Hlower.
  unfold TrimPrefix. rewrite Hexact. by destruct input.
Qed.

Lemma readFlags_keeps_tag_in_other_case_witness :
  readFlags asciiToLower ["true"; "Filename_Prefix:acme"] ""
  = (false, "Filename_Prefix:acme").
Proof.
  apply (readFlags_keeps_tag_in_other_case asciiToLower ["true"]
           "Filename_Prefix:acme" ""); try done.
  apply (bool_decide_unpack _). vm_compute. exact I.
Defined.

(** ** Merging a value into an item *)

Lemma wrapKey_fold (m : GoMap) (value : Json) (keys : list string) :
  ∀ found,
  (∃ found', foldl (wrapKey m) (value, found) keys = (value, found')) ∨
  (∃ key inner found',
     key ∈ keys ∧ key ≠ "#" ∧
     foldl (wrapKey m) (value, found) keys = (JObj [(key, inner)], found')).
Proof.
  induction keys as [|key keys IH] using rev_ind; intros found; [left; by eexists|].
  rewrite foldl_app. cbn [foldl].
  destruct (IH found) as [[found' ->]|(key' & inner & found' & Hkey' & Hloop & ->)].
  - unfold wrapKey. destruct (String.eqb_spec key "#") as [->|Hkey].
    { left. by eexists. }
    destruct (lookupKey key m) as [[| | |val| |]|];
      try (right; exists key, value; eexists;
           split; [apply elem_of_app; right; apply list_elem_of_here|done]).
    destruct (Contains val "schemaless_list").
    + right. exists key, value. eexists.
      split; [apply elem_of_app; right; apply list_elem_of_here|done].
    + left. by eexists.
  - right. unfold wrapKey. destruct (String.eqb_spec key "#") as [->|Hkey].
    { exists key', inner, found'. split; [apply elem_of_app; by left|done]. }
    destruct (lookupKey key m) as [[| | |val| |]|];
      try (exists key, (JObj [(key', inner)]); eexists;
           split; [apply elem_of_app; right; apply list_elem_of_here|done]).
    destruct (Contains val "schemaless_list").
    + exists key, (JObj [(key', inner)]). eexists.
      split; [apply elem_of_app; right; apply list_elem_of_here|done].
    + exists key', inner, found'. split; [apply elem_of_app; by left|done].
Qed.

Lemma deepMerge_one (dst : GoMap) (key : string) (inner : Json) :
  ∃ placed, deepMerge dst (JObj [(key, inner)]) = setKey key placed dst.
Proof.
  cbn [deepMerge]. destruct inner; try by eexists.
  destruct (lookupKey key dst) as [[]|]; by eexists.
Qed.

(** X23. [setNestedMap] changes the item under one key alone, a segment of
    the path that is no [#]: the item it returns holds that key, every key
    the item held before, and under every other key what the item held
    there. The value put in is a string or a list, as in the calls of
    [handleMultiListItems]. *)
Theorem setNestedMap_changes_one_key (m merged : GoMap) (path : string)
    (value : Json) (found : bool) :
  (∀ entries, value ≠ JObj entries) →
  setNestedMap m path value = Ret (merged, found) →
  ∃ key,
    key ∈ Split path "." ∧ key ≠ "#" ∧ key ∈ keysOf merged ∧
    (∀ k, k ∈ keysOf m → k ∈ keysOf merged) ∧
    (∀ k, k ≠ key → lookupKey k merged = lookupKey k m).
Proof.
  intros Hvalue. unfold setNestedMap.
  destruct (wrapKey_fold m value (reverse (Split path ".")) false)
    as [[found' ->]|(key & inner & found' & Hkey & Hloop & ->)].
  { destruct value; try done. by destruct (Hvalue m0). }
  rewrite copyMap_id. destruct (deepMerge_one m key inner) as [placed ->].
  intros [= <- _]. exists key.
  rewrite elem_of_reverse in Hkey.
  split; [done|]. split; [done|]. split; [|split].
  - apply elem_of_keysOf_setKey. by left.
  - intros k Hk. apply elem_of_keysOf_setKey. by right.
  - intros k Hk. by apply lookupKey_setKey_ne.
Qed.

Lemma setNestedMap_changes_one_key_witness :
  ∃ key, key ∈ Split "y" "." ∧ key ≠ "#" ∧
    key ∈ keysOf [("x", JStr "a1"); ("y", JStr "p")] ∧
    (∀ k, k ∈ keysOf markedItem → k ∈ keysOf [("x", JStr "a1"); ("y", JStr "p")]) ∧
    (∀ k, k ≠ key →
          lookupKey k [("x", JStr "a1"); ("y", JStr "p")] = lookupKey k markedItem).
Proof.
  apply (setNestedMap_changes_one_key markedItem _ "y" (JStr "p") true); [done|].
  vm_compute. reflexivity.
Defined.

(** ** List alignment: maps without a marker *)

Lemma Forall_bound {A} (R : nat → A → Prop) (l : list A) :
  Forall (λ x, ∃ n, ∀ fuel, (n ≤ fuel)%nat → R fuel x) l →
  ∃ n, ∀ fuel, (n ≤ fuel)%nat → Forall (R fuel) l.
Proof.
  induction 1 as [|x l [n Hx] _ [n' Hl]]; [by exists 0%nat|].
  exists (Nat.max n n'). intros fuel Hfuel. constructor; [apply Hx|apply Hl]; lia.
Qed.

Lemma Contains_dotted (parentKey rest : string) :
  Contains (parentKey +:+ "." +:+ rest) "." = true.
Proof. apply Contains_append_r, Contains_prefix, (prefix_append_same "." rest). Qed.

Lemma startingList_dotted (translatedInput : list Json) (parentKey rest : string)
    (parsedValues : GoMap) :
  startingList translatedInput (parentKey +:+ "." +:+ rest) parsedValues
  = translatedInput.
Proof. unfold startingList. by rewrite Contains_dotted. Qed.

Section without_marker.
Context `{GoLib}.

Lemma leftAlone_items (fuel : nat) (newKey rest : string) (listDepth : Z)
    (val : list Json) (translatedInput : list Json) :
  Forall (leftAloneItem fuel) val →
  ∀ cnt,
  rangeRun
    (λ (translatedInput : list Json) (cnt : nat) (subItem : Json),
       match subItem with
       | JObj parsedSubitem =>
           handleMultiListItems fuel translatedInput (newKey +:+ "." +:+ rest)
                                parsedSubitem (listDepth + 1) cnt
       | _ => Ret translatedInput
       end)
    cnt val translatedInput
  = Ret translatedInput.
Proof.
  induction 1 as [|subItem val Hitem _ IH]; intros cnt; [done|]. cbn [rangeRun].
  destruct subItem as [| | | | |parsedSubitem]; cbn [mbind Run_bind]; try apply IH.
  rewrite (Hitem translatedInput), startingList_dotted. cbn [mbind Run_bind]. apply IH.
Qed.

Lemma leftAlone_step (fuel : nat) (parsedValues : GoMap) :
  Forall (λ kv, markerFree kv.2 = true ∧ leftAloneValue fuel kv.2) parsedValues →
  leftAlone (S fuel) parsedValues.
Proof.
  intros Hvalues translatedInput parentKey listDepth childIndex.
  cbn [handleMultiListItems]. fold (startingList translatedInput parentKey parsedValues).
  generalize (startingList translatedInput parentKey parsedValues). intros merged.
  match goal with
  | |- (rangeRun ?body _ _ _ ≫= _) = _ =>
      assert (∀ keys cnt,
                rangeRun body cnt keys (merged, parsedValues)
                = Ret (merged, parsedValues)) as Hloop
  end.
  { induction keys as [|childKey keys IH]; intros cnt; [done|]. cbn [rangeRun].
    destruct (lookupKey childKey parsedValues) as [v|] eqn:Hv;
      [|cbn [mbind Run_bind]; apply IH].
    apply lookupKey_Some_elem in Hv.
    destruct (proj1 (Forall_forall _ _) Hvalues _ Hv) as [Hfree Halone].
    cbn [snd] in Hfree, Halone.
    destruct v as [| | |val|val|val]; cbn [mbind Run_bind]; try apply IH.
    - cbn [markerFree] in Hfree. apply negb_true_iff in Hfree. rewrite Hfree.
      cbn [mbind Run_bind]. apply IH.
    - cbn [leftAloneValue] in Halone.
      change (parentKey +:+ "." +:+ childKey +:+ ".#")
        with (parentKey +:+ "." +:+ (childKey +:+ ".#")).
      rewrite leftAlone_items by done. cbn [mbind Run_bind]. apply IH.
    - cbn [leftAloneValue] in Halone.
      rewrite (Halone merged), startingList_dotted. cbn [mbind Run_bind]. apply IH. }
  by rewrite Hloop.
Qed.

Lemma leftAlone_all (v : Json) :
  markerFree v = true → ∃ n, ∀ fuel, (n ≤ fuel)%nat → leftAloneValue fuel v.
Proof.
  induction v as [| | | |val IH|parsedValues IH] using Json_ind';
    intros Hfree; try by exists 0%nat.
  - cbn [leftAloneValue]. apply Forall_bound.
    cbn [markerFree] in Hfree. rewrite forallb_forall in Hfree.
    apply Forall_forall. intros subItem Hitem.
    destruct subItem as [| | | | |parsedSubitem]; try by exists 0%nat.
    apply (proj1 (Forall_forall _ _) IH _ Hitem).
    apply (Hfree (JObj parsedSubitem)). by apply list_elem_of_In.
  - cbn [markerFree] in Hfree. rewrite forallb_forall in Hfree.
    assert (Forall (λ kv, ∃ n, ∀ fuel, (n ≤ fuel)%nat →
                          markerFree kv.2 = true ∧ leftAloneValue fuel kv.2)
                   parsedValues) as Hvalues.
    { apply Forall_forall. intros kv Hkv.
      assert (markerFree kv.2 = true) as Hv by (by apply Hfree, list_elem_of_In).
      destruct (proj1 (Forall_forall _ _) IH _ Hkv Hv) as [n Hn].
      exists n. intros fuel Hfuel. split; [done|by apply Hn]. }
    apply (Forall_bound (λ fuel kv, markerFree kv.2 = true ∧ leftAloneValue fuel kv.2))
      in Hvalues as [n Hn].
    exists (S n). intros fuel Hfuel. destruct fuel as [|fuel]; [lia|].
    cbn [leftAloneValue]. apply leftAlone_step, Hn. lia.
Qed.

End without_marker.

(** X24. A map with no string that holds the start of the marker, under
    its keys, in its maps and in the maps that are items of its lists, is
    left alone: with fuel enough for its depth, [handleMultiListItems]
    returns the merged list it was given, with the map as its one item
    when the list was empty and the parent key has no dot. *)
Theorem handleMultiListItems_without_marker `{GoLib} (parsedValues : GoMap) :
  markerFree (JObj parsedValues) = true →
  ∃ enough, ∀ fuel, (enough ≤ fuel)%nat →
    ∀ translatedInput parentKey listDepth childIndex,
      handleMultiListItems fuel translatedInput parentKey parsedValues listDepth
                           childIndex
      = Ret (if negb (Contains parentKey ".") && (length translatedInput =? 0)%nat
             then translatedInput ++ [JObj parsedValues] else translatedInput).
Proof. intros Hfree. exact (leftAlone_all (JObj parsedValues) Hfree). Qed.

Lemma handleMultiListItems_without_marker_witness :
  ∃ enough, ∀ fuel, (enough ≤ fuel)%nat →
    ∀ translatedInput parentKey listDepth childIndex,
      handleMultiListItems (H := refLib) fuel translatedInput parentKey
        [("a", JStr "a1"); ("sub", JObj [("n", JNum 3)]);
         ("l", JList [JObj [("b", JStr "p")]; JStr "schemaless_list[x"])]
        listDepth childIndex
      = Ret (if negb (Contains parentKey ".") && (length translatedInput =? 0)%nat
             then translatedInput
                  ++ [JObj [("a", JStr "a1"); ("sub", JObj [("n", JNum 3)]);
                            ("l", JList [JObj [("b", JStr "p")];
                                         JStr "schemaless_list[x"])]]
             else translatedInput).
Proof. by apply (handleMultiListItems_without_marker (H := refLib)). Defined.

(** ** The cache: an item that the server refuses *)

Lemma setChunks_round (maxCacheSize : nat) (mcSetFails : string → bool) (fuel : nat)
    (name : string) (data : Cache.Bytes) (expiration : Z)
    (currentChunk nextStep totalAdded keyAmount : nat) (keyname : string)
    (store : Cache.Store) :
  (currentChunk ≤ Nat.min (length data) nextStep)%nat →
  Cache.setChunks maxCacheSize mcSetFails (S fuel) name data expiration currentChunk
                  nextStep totalAdded keyAmount keyname store
  = if mcSetFails keyname then Ret store
    else
      let stored :=
        Cache.storeSet store keyname
          {| Cache.Value := take (Nat.min (length data) nextStep - currentChunk)
                                 (drop currentChunk data);
             Cache.Expiration := Cache.wrapInt 32 (expiration * 60) |} in
      if (length data <? totalAdded + maxCacheSize)%nat then Ret stored
      else Cache.setChunks maxCacheSize mcSetFails fuel name data expiration
             (Nat.min (length data) nextStep)
             (Nat.min (length data) nextStep + maxCacheSize)
             (totalAdded + maxCacheSize) (keyAmount + 1)
             (Cache.chunkName name (keyAmount + 1)) stored.
Proof.
  intros Hchunk. cbn [Cache.setChunks].
  assert ((if (length data <? nextStep)%nat then length data else nextStep)
          = Nat.min (length data) nextStep) as ->.
  { destruct (Nat.ltb_spec (length data) nextStep); lia. }
  unfold Cache.slice.
  rewrite (proj2 (Nat.leb_le currentChunk _)), (proj2 (Nat.leb_le _ (length data)))
    by lia.
  reflexivity.
Qed.

(** X25. [SetCache] reports no error when memcached refuses an item. When
    the second chunk of a long value is refused, the first chunk stays in
    the cache: with nothing older under the key of the second chunk,
    [GetCache] then returns the first [maxCacheSize] bytes of the data as
    the value, without an error. *)
Theorem cache_refused_chunk_truncates (memcached : string) (maxCacheSize : nat)
    (mcSetFails : string → bool) (fuel : nat) (caches : Cache.Caches)
    (name : string) (data : Cache.Bytes) (expiration : Z) :
  name ≠ "" → memcached ≠ "" → (0 < maxCacheSize)%nat →
  (maxCacheSize < length data)%nat → (length data ≤ maxCacheSize * 50)%nat →
  let key := ReplaceAll name " " "_" in
  mcSetFails key = false →
  mcSetFails (Cache.chunkName key 1) = true →
  Cache.mc caches (Cache.chunkName key 1) = None →
  ∃ caches',
    Cache.SetCache memcached maxCacheSize mcSetFails (S (S fuel)) caches name data
                   expiration
    = Ret (caches', None) ∧
    Cache.GetCache memcached maxCacheSize (S fuel) caches' name
    = Ret (Cache.CachedBytes (take maxCacheSize data), None).
Proof.
  intros [Hname _]%length_eqb_0_false [_ Hmc]%length_eqb_0_false Hsize Hlong Hmax
    key Hfirst Hsecond Hold.
  unfold Cache.SetCache, Cache.GetCache. rewrite Hname, Hmc. fold key.
  rewrite (proj2 (Nat.ltb_ge _ _)) by lia.
  rewrite (proj2 (Nat.ltb_lt _ _)) by lia.
  rewrite setChunks_round, Hfirst by lia. cbv zeta.
  rewrite (proj2 (Nat.ltb_ge (length data) (0 + maxCacheSize))) by lia.
  rewrite setChunks_round by lia. change (0 + 1)%nat with 1%nat. rewrite Hsecond.
  cbn [mbind Run_bind]. eexists. split; [reflexivity|].
  cbn [Cache.mc]. unfold Cache.storeSet at 1.
  rewrite String.eqb_refl. cbn [Cache.Value].
  rewrite Nat.min_r, Nat.sub_0_r, drop_0, length_take, Nat.min_l, Nat.eqb_refl by lia.
  cbn [Cache.getChunks]. unfold Cache.storeSet.
  destruct (String.eqb_spec (Cache.chunkName key 1) key) as [Hsame|_].
  { by apply (chunkKey_inj key 1 0) in Hsame. }
  by rewrite Hold.
Qed.

Lemma cache_refused_chunk_truncates_witness :
  ∃ caches',
    Cache.SetCache "cache:11211" 4 (λ key, String.eqb key "k_1") 2 Cache.emptyCaches
                   "k" helloBytes 30
    = Ret (caches', None) ∧
    Cache.GetCache "cache:11211" 4 1 caches' "k"
    = Ret (Cache.CachedBytes (String.list_ascii_of_string "hell"), None).
Proof.
  apply (cache_refused_chunk_truncates "cache:11211" 4 (λ key, String.eqb key "k_1") 0
           Cache.emptyCaches "k" helloBytes 30); try done; vm_compute; lia.
Defined.
